(** * mycelo: cluster orchestration and load bot

    A shallow embedding of the two coordination packages of mycelo,
    [cluster] (bring-up and peering of the validator nodes) and [loadbot]
    (rate-paced transaction generator), together with the part of the Go
    runtime and of [golang.org/x/sync/errgroup] they rely on.

    Conventions.
    - A Go [error] is [option err]: [None] is [nil].
    - A Go [int] / [time.Duration] is a [Z] with the 64-bit wrap-around
      written out ([wrap64]); integer division is [Z.quot] and panics on a
      zero divisor.
    - External collaborators (the geth node processes, the RPC clients, the
      clock, the scheduler) are oracles passed as records; every call made to
      a node process is logged in the [World].
    - Console output ([console.Info], [log.Printf], [fmt.Printf] of error
      messages) is not part of the model, except for [PrintNodeInfo] whose
      only purpose is to print. *)

From Stdlib Require Import ZArith Lia.
From Stdlib Require Import Floats.SpecFloat.
From stdpp Require Import base gmap list strings.

Local Open Scope Z_scope.

(* ===================================================================== *)
(** * Go runtime prelude                                                  *)
(* ===================================================================== *)

Module Go.

(** Non-nil error values.  [Canceled] and [DeadlineExceeded] are the two
    sentinel errors of package [context]; [ErrorNew] is [errors.New]; [Errorf]
    is [fmt.Errorf("<msg>: %w", inner)], which wraps [inner]. *)
Inductive err : Type :=
| Canceled
| DeadlineExceeded
| ErrorNew (msg : string)
| Errorf (msg : string) (inner : err).

(** The Go interface type [error]: [None] is [nil]. *)
Definition error : Type := option err.

#[global] Instance err_eq_dec : EqDecision err.
Proof. solve_decision. Defined.

(** [errors.Is]: [e] is [target] or wraps it. *)
Fixpoint Is (e target : err) : bool :=
  if decide (e = target) then true
  else match e with
       | Errorf _ inner => Is inner target
       | _ => false
       end.

(** Run-time panics the modelled code can raise. *)
Inductive Panic : Type :=
| IntegerDivideByZero
| MakeSliceCapOutOfRange
| IndexOutOfRange.

(** What a call does: return, panic, or never return. *)
Inductive Outcome (A : Type) : Type :=
| Returns (a : A)
| Panics (p : Panic)
| Blocks.
Arguments Returns {A} a.
Arguments Panics {A} p.
Arguments Blocks {A}.

(** 64-bit two's complement wrap-around of [int], [int64], [time.Duration]. *)
Definition min_int64 : Z := - 2 ^ 63.
Definition max_int64 : Z := 2 ^ 63 - 1.
Definition wrap64 (z : Z) : Z := (z + 2 ^ 63) mod 2 ^ 64 - 2 ^ 63.

(** Go's [/] and [%] on integers: truncated, panic on a zero divisor. *)
Definition int_div (a b : Z) : Outcome Z :=
  if b =? 0 then Panics IntegerDivideByZero else Returns (wrap64 (Z.quot a b)).
Definition int_rem (a b : Z) : Outcome Z :=
  if b =? 0 then Panics IntegerDivideByZero else Returns (Z.rem a b).

(** IEEE 754 binary64, through the specification of the standard library. *)
Definition float64 : Type := spec_float.
Definition float64_of_int (z : Z) : float64 := binary_normalize 53 1024 z 0 false.
Definition float64_mul (x y : float64) : float64 := SFmul 53 1024 x y.

(** The untyped constant [0.95] converted to float64: the nearest binary64,
    0x1.e666666666666p-1 = 8556839292003942 * 2^-53. *)
Definition float64_0_95 : float64 := S754_finite false 8556839292003942 (-53).

(** [int(f)]: truncation toward zero.  For a value that does not fit (or
    NaN, infinities) Go leaves the result to the implementation; amd64
    yields the minimal integer. *)
Definition int_of_float64 (f : float64) : Z :=
  match f with
  | S754_zero _ => 0
  | S754_finite s m e =>
      let mag := if 0 <=? e then Z.pos m * 2 ^ e else Z.pos m / 2 ^ (- e) in
      let v := if s then - mag else mag in
      if (min_int64 <=? v) && (v <=? max_int64) then v else min_int64
  | _ => min_int64
  end.

(** [time.Millisecond], in nanoseconds. *)
Definition Millisecond : Z := 1000000.

(** The two arms of [select { case <-ctx.Done(): ... case <-time.After(d): ... }]. *)
Inductive SelectCase : Type := CaseDone | CaseTimer.

End Go.

Import Go.

(* ===================================================================== *)
(** * golang.org/x/sync/errgroup                                          *)
(* ===================================================================== *)

Module errgroup.

(** [Group]: [err] and [errOnce] as in the library; [wg] is the WaitGroup
    counter; [ctxDone] is the state of the context derived by [WithContext]
    (true once its [cancel] ran or the parent was done). *)
Record Group : Type := mkGroup {
  ctxDone : bool;
  errOnce : bool;
  gerr : error;
  wg : nat
}.

(** [WithContext(ctx)]: a fresh group and a context derived from [ctx]. *)
Definition WithContext (parentDone : bool) : Group :=
  {| ctxDone := parentDone; errOnce := false; gerr := None; wg := 0 |}.

(** [g.Go(f)], the part run by the caller: [g.wg.Add(1)]. *)
Definition Go (g : Group) : Group :=
  {| ctxDone := ctxDone g; errOnce := errOnce g; gerr := gerr g; wg := S (wg g) |}.

(** The goroutine started by [g.Go(f)] when [f] returns [r]:
    [if err := f(); err != nil { g.errOnce.Do(func() { g.err = err; g.cancel() }) }]
    followed by the deferred [g.wg.Done()]. *)
Definition goroutineReturn (g : Group) (r : error) : Group :=
  match r with
  | Some e =>
      if errOnce g
      then {| ctxDone := ctxDone g; errOnce := true; gerr := gerr g; wg := pred (wg g) |}
      else {| ctxDone := true; errOnce := true; gerr := Some e; wg := pred (wg g) |}
  | None =>
      {| ctxDone := ctxDone g; errOnce := errOnce g; gerr := gerr g; wg := pred (wg g) |}
  end.

(** [g.Wait()]: blocks until the counter is zero, cancels, returns [g.err]. *)
Definition Wait (g : Group) : Outcome error :=
  match wg g with
  | O => Returns (gerr g)
  | S _ => Blocks
  end.

(** Goroutines of a group: the tasks still running, and the group.  A
    completion [(i, r)] is task [i] returning [r]; completions of tasks that
    are not running do not exist and are skipped. *)
Record Tasks : Type := mkTasks {
  group : Group;
  running : list nat
}.

Definition spawn (t : Tasks) (i : nat) : Tasks :=
  {| group := Go (group t); running := running t ++ [i] |}.

Definition complete (t : Tasks) (c : nat * error) : Tasks :=
  if bool_decide (c.1 ∈ running t)
  then {| group := goroutineReturn (group t) c.2;
          running := filter (λ j, j ≠ c.1) (running t) |}
  else t.

Definition completeAll (t : Tasks) (cs : list (nat * error)) : Tasks :=
  foldl complete t cs.

End errgroup.

(* ===================================================================== *)
(** * Package env (external collaborator)                                 *)
(* ===================================================================== *)

Module env.

(** Modelled from the spec: package [env] is absent; an Account is an address
    and a private signing key, and the environment supplies the ordered
    validator account list, the developer account list, the per-node data
    directory, the genesis descriptor path and the chain identifier. *)
Record Account : Type := mkAccount {
  Address : string;
  PrivateKey : string
}.

Record Environment : Type := mkEnvironment {
  ValidatorAccounts : list Account;
  DeveloperAccounts : list Account;
  ValidatorDatadir : nat → string;
  GenesisPath : string;
  ChainID : Z
}.

End env.

(* ===================================================================== *)
(** * Package cluster                                                     *)
(* ===================================================================== *)

Module cluster.

Record NodeConfig : Type := mkNodeConfig {
  GethPath : string;
  Number : nat;
  Account : env.Account;
  Datadir : string;
  ChainID : Z
}.

(** Modelled from the spec: [Node] and [NewNode] live in a file that is
    absent; a node is created once per validator account from its
    configuration. *)
Record Node : Type := mkNode { Config : NodeConfig }.
Definition NewNode (cfg : NodeConfig) : Node := mkNode cfg.

(** [Cluster]: [nodes] is a slice, [None] is the nil slice.  [env] is the
    current content of the environment the cluster points to. *)
Record Cluster : Type := mkCluster {
  env : env.Environment;
  gethPath : string;
  nodes : option (list Node)
}.

(** Calls received by the node processes, oldest first. *)
Inductive Call : Type :=
| CallInit (number : nat) (genesisPath : string)
| CallEnodeURL (number : nat)
| CallSetStaticNodes (number : nat) (urls : list string)
| Printed (index : nat) (url : string).

(** The world outside the cluster: which data directories were initialised,
    the static peer list stored for each node, and the call log. *)
Record World : Type := mkWorld {
  initialized : list nat;
  staticNodes : gmap nat (list string);
  calls : list Call
}.

(** Modelled from the spec: the NodeProcess contract.  The answers of the
    node processes are oracles: [procInit] is the result of [geth init],
    [procEnodeURL] the network identifier of an initialised node,
    [procSetStaticNodes] the result of storing a static peer list. *)
Record Procs : Type := mkProcs {
  procInit : Node → string → error;
  procEnodeURL : Node → string + err;
  procSetStaticNodes : Node → list string → error
}.

(** State and error monad over the world; the world is kept on failure. *)
Definition M (A : Type) : Type := World → (A + err) * World.
Definition ret {A} (a : A) : M A := λ w, (inl a, w).
Definition bind {A B} (m : M A) (k : A → M B) : M B :=
  λ w, match m w with
       | (inl a, w') => k a w'
       | (inr e, w') => (inr e, w')
       end.

Notation "'let*' x ':=' m 'in' k" := (bind m (λ x, k))
  (at level 10, x name, m at level 100, k at level 200).

Definition logCall (c : Call) (w : World) : World :=
  {| initialized := initialized w; staticNodes := staticNodes w; calls := calls w ++ [c] |}.

(** Modelled from the spec: [initialize(genesis-path)] fails with an
    initialization error or marks the data directory initialised. *)
Definition node_Init (P : Procs) (n : Node) (genesisPath : string) : M unit :=
  λ w, let w := logCall (CallInit (Number (Config n)) genesisPath) w in
       match procInit P n genesisPath with
       | Some e => (inr e, w)
       | None => (inl (), {| initialized := Number (Config n) :: initialized w;
                             staticNodes := staticNodes w; calls := calls w |})
       end.

(** Modelled from the spec: [get-network-identifier()] fails with a lookup
    error if called before initialize. *)
Definition node_EnodeURL (P : Procs) (n : Node) : M string :=
  λ w, let w := logCall (CallEnodeURL (Number (Config n))) w in
       if bool_decide (Number (Config n) ∈ initialized w)
       then match procEnodeURL P n with
            | inl url => (inl url, w)
            | inr e => (inr e, w)
            end
       else (inr (ErrorNew "node key lookup failed"), w).

(** Modelled from the spec: [set-static-peers(list)] fails with a topology
    error or stores the list. *)
Definition node_SetStaticNodes (P : Procs) (n : Node) (urls : list string) : M unit :=
  λ w, let w := logCall (CallSetStaticNodes (Number (Config n)) urls) w in
       match procSetStaticNodes P n urls with
       | Some e => (inr e, w)
       | None => (inl (), {| initialized := initialized w;
                             staticNodes := <[Number (Config n) := urls]> (staticNodes w);
                             calls := calls w |})
       end.

(** [New] *)
Definition New (e : env.Environment) (gethPath : string) : Cluster :=
  {| env := e; gethPath := gethPath; nodes := None |}.

(** The body of the [if cl.nodes == nil] branch of [ensureNodes]:
    [cl.nodes[i] = NewNode(...)] for each [(i, validator)]. *)
Definition buildNodes (e : env.Environment) (gethPath : string) : list Node :=
  imap (λ i validator,
          NewNode {| GethPath := gethPath;
                     Number := i;
                     Account := validator;
                     Datadir := env.ValidatorDatadir e i;
                     ChainID := env.ChainID e |})
       (env.ValidatorAccounts e).

(** [ensureNodes]: returns the slice and the (possibly updated) cluster. *)
Definition ensureNodes (cl : Cluster) : list Node * Cluster :=
  match nodes cl with
  | None =>
      let ns := buildNodes (env cl) (gethPath cl) in
      (ns, {| env := env cl; gethPath := gethPath cl; nodes := Some ns |})
  | Some ns => (ns, cl)
  end.

(** First loop of [Init], from index [i] on: [geth init], then the enode URL
    stored at [enodeUrls[i]]. *)
Fixpoint initLoop (P : Procs) (genesisPath : string) (i : nat) (ns : list Node)
    (enodeUrls : list string) : M (list string) :=
  match ns with
  | [] => ret enodeUrls
  | node :: rest =>
      let* _ := node_Init P node genesisPath in
      let* url := node_EnodeURL P node in
      initLoop P genesisPath (S i) rest (<[i := url]> enodeUrls)
  end.

(** [urls = append(urls, enodeUrls[:i]...); urls = append(urls, enodeUrls[i+1:]...)] *)
Definition peersOf (i : nat) (enodeUrls : list string) : list string :=
  ([] ++ take i enodeUrls) ++ drop (S i) enodeUrls.

(** Second loop of [Init], from index [i] on. *)
Fixpoint connectLoop (P : Procs) (i : nat) (ns : list Node)
    (enodeUrls : list string) : M unit :=
  match ns with
  | [] => ret ()
  | node :: rest =>
      let* _ := node_SetStaticNodes P node (peersOf i enodeUrls) in
      connectLoop P (S i) rest enodeUrls
  end.

(** [Init] *)
Definition Init (P : Procs) (cl : Cluster) (w : World) : error * Cluster * World :=
  let '(nodes, cl) := ensureNodes cl in
  let enodeUrls := replicate (length nodes) ""%string in
  match initLoop P (env.GenesisPath (env cl)) 0 nodes enodeUrls w with
  | (inr e, w) => (Some e, cl, w)
  | (inl enodeUrls, w) =>
      match connectLoop P 0 nodes enodeUrls w with
      | (inr e, w) => (Some e, cl, w)
      | (inl _, w) => (None, cl, w)
      end
  end.

(** [fmt.Printf] of one line of node information. *)
Definition printf (line : Call) : M unit := λ w, (inl (), logCall line w).

(** Loop of [PrintNodeInfo], from index [i] on. *)
Fixpoint printLoop (P : Procs) (i : nat) (ns : list Node) : M unit :=
  match ns with
  | [] => ret ()
  | node :: rest =>
      let* url := node_EnodeURL P node in
      let* _ := printf (Printed i url) in
      printLoop P (S i) rest
  end.

(** [PrintNodeInfo] *)
Definition PrintNodeInfo (P : Procs) (cl : Cluster) (w : World) : error * Cluster * World :=
  let '(nodes, cl) := ensureNodes cl in
  match printLoop P 0 nodes w with
  | (inr e, w) => (Some e, cl, w)
  | (inl _, w) => (None, cl, w)
  end.

(** [Run]: one goroutine per node under one group.  [completions] is the
    order in which the [node.Run(ctx)] calls return, with their results
    (the node processes and the scheduler decide it). *)
Definition runTasks (parentDone : bool) (ns : list Node) : errgroup.Tasks :=
  foldl errgroup.spawn
        {| errgroup.group := errgroup.WithContext parentDone; errgroup.running := [] |}
        (seq 0 (length ns)).

Definition Run (parentDone : bool) (completions : list (nat * error)) (cl : Cluster)
  : Outcome error * Cluster :=
  let '(nodes, cl) := ensureNodes cl in
  let t := errgroup.completeAll (runTasks parentDone nodes) completions in
  (errgroup.Wait (errgroup.group t), cl).

End cluster.

(* ===================================================================== *)
(** * Package loadbot                                                     *)
(* ===================================================================== *)

Module loadbot.

#[global] Instance Outcome_ret : MRet Outcome := λ _ a, Returns a.
#[global] Instance Outcome_bind : MBind Outcome := λ _ _ k m,
  match m with
  | Returns a => k a
  | Panics p => Panics p
  | Blocks => Blocks
  end.

Definition clientCap : Z := 100.

(** A [bind.ContractBackend] connection, as produced by the client factory. *)
Inductive Client : Type := Conn (id : nat).

(** [LoadBotConfig].  [ClientFactory k] is what the [k]-th call of the
    factory closure returns. *)
Record LoadBotConfig : Type := mkLoadBotConfig {
  Accounts : list env.Account;
  Amount : Z;
  TransactionsPerSecond : Z;
  ClientCount : Z;
  ClientFactory : nat → Client + err
}.

(** Instants and durations are nanosecond counts.  [time.Time.Add],
    [time.Time.After], and [time.Until], which saturates. *)
Definition Add (t d : Z) : Z := t + d.
Definition After (t u : Z) : bool := u <? t.
Definition Until (now t : Z) : Z := Z.max min_int64 (Z.min max_int64 (t - now)).

(** The context shared by the group: the instant from which [ctx.Done()] is
    closed ([None]: never) and the non-nil value [ctx.Err()] has from then on. *)
Record Context : Type := mkContext {
  doneAt : option Z;
  ctxErr : err
}.

(** [waitFor], entered at instant [now]: the result and the instant of
    return.  [time.After(d)] fires [d] after [now], at once when [d <= 0]; the
    select takes the arm that is ready first, and [tie] when both are. *)
Definition waitFor (ctx : Context) (tie : SelectCase) (now waitTime : Z) : error * Z :=
  let fire := now + Z.max 0 waitTime in
  match doneAt ctx with
  | None => (None, fire)
  | Some c =>
      let c := Z.max now c in
      if c <? fire then (Some (ctxErr ctx), c)
      else if fire <? c then (None, fire)
      else match tie with
           | CaseDone => (Some (ctxErr ctx), fire)
           | CaseTimer => (None, fire)
           end
  end.

(** What one turn of the loop of [runBot] observes: the clock at the three
    places it is read, the results of [Send] and [WaitMined], and the arm the
    select takes on a tie. *)
Record Cycle : Type := mkCycle {
  sentAt : Z;
  sendResult : error;
  minedResult : error;
  checkedAt : Z;
  waitedAt : Z;
  tie : SelectCase
}.

(** A turn of the loop either returns from [runBot] or starts the next turn,
    [Some (d, t)] after a [waitFor] of duration [d] that returned at [t],
    [None] by [continue]. *)
Inductive CycleResult : Type :=
| CycleReturn (e : error)
| CycleContinue (slept : option (Z * Z)).

(** The body of the [for] loop of [runBot]. *)
Definition runCycle (ctx : Context) (sleepTime : Z) (c : Cycle) : CycleResult :=
  let txSentTime := sentAt c in
  match sendResult c with
  | Some err => CycleReturn (Some (Errorf "Error sending transaction" err))
  | None =>
      match minedResult c with
      | Some err => CycleReturn (Some (Errorf "Error waitin for tx" err))
      | None =>
          let nextSendTime := Add txSentTime sleepTime in
          if After (checkedAt c) nextSendTime then CycleContinue None
          else
            let waitTime := Until (waitedAt c) nextSendTime in
            match waitFor ctx (tie c) (waitedAt c) waitTime with
            | (Some err, _) => CycleReturn (Some err)
            | (None, t) => CycleContinue (Some (waitTime, t))
            end
      end
  end.

(** [runBot] over the turns observed so far; [Blocks] while the loop has not
    returned. *)
Fixpoint runBot (ctx : Context) (sleepTime : Z) (cycles : list Cycle) : Outcome error :=
  match cycles with
  | [] => Blocks
  | c :: rest =>
      match runCycle ctx sleepTime c with
      | CycleReturn e => Returns e
      | CycleContinue _ => runBot ctx sleepTime rest
      end
  end.

(** [make([]bind.ContractBackend, 0, clientCount)] *)
Definition makeClients (clientCount : Z) : Outcome (list Client) :=
  if clientCount <? 0 then Panics MakeSliceCapOutOfRange else Returns [].

(** [for i := 0; i < clientCount; i++ { ... }], with [n] turns left. *)
Fixpoint clientLoop (factory : nat → Client + err) (n i : nat) (clients : list Client)
  : list Client + err :=
  match n with
  | O => inl clients
  | S n' =>
      match factory i with
      | inr e => inr e
      | inl client => clientLoop factory n' (S i) (clients ++ [client])
      end
  end.

(** [clientCount] after the cap. *)
Definition cappedClientCount (cfg : LoadBotConfig) : Z :=
  if clientCap <? ClientCount cfg then clientCap else ClientCount cfg.

(** [int(float64(len(cfg.Accounts)*1000/cfg.TransactionsPerSecond)*0.95)] *)
Definition delayMillis (len tps : Z) : Outcome Z :=
  q ← int_div (wrap64 (len * 1000)) tps;
  mret (int_of_float64 (float64_mul (float64_of_int q) float64_0_95)).

(** [delay] and [startDelay]. *)
Definition delays (len tps : Z) : Outcome (Z * Z) :=
  ms ← delayMillis len tps;
  let delay := wrap64 (ms * Millisecond) in
  startDelay ← int_div delay len;
  mret (delay, startDelay).

(** [clients[k]] *)
Definition index (clients : list Client) (k : Z) : Outcome Client :=
  if k <? 0 then Panics IndexOutOfRange
  else match clients !! Z.to_nat k with
       | Some c => Returns c
       | None => Panics IndexOutOfRange
       end.

(** A goroutine started by [group.Go]: the arguments of its [runBot]. *)
Record Worker : Type := mkWorker {
  workerAccount : env.Account;
  workerDelay : Z;
  workerClient : Client
}.

(** What the run-time decides during [Start]: the shared context, the
    instant and the tie-break of the [i]-th launch wait, the turns worker [i]
    observes, and the order in which the worker goroutines return. *)
Record Runtime : Type := mkRuntime {
  parentDone : bool;
  ctx : Context;
  launchAt : nat → Z;
  launchTie : nat → SelectCase;
  cycles : nat → list Cycle;
  returnOrder : list nat
}.

(** The launch loop of [Start], from index [i] on: the error returned from
    inside the loop, if any, and the workers started. *)
Fixpoint launch (rt : Runtime) (clients : list Client) (clientCount delay startDelay : Z)
    (i : nat) (accs : list env.Account) (started : list Worker)
  : Outcome (error * list Worker) :=
  match accs with
  | [] => Returns (None, started)
  | acc :: rest =>
      k ← int_rem (Z.of_nat i) clientCount;
      client ← index clients k;
      match waitFor (ctx rt) (launchTie rt i) (launchAt rt i) startDelay with
      | (Some err, _) => Returns (Some err, started)
      | (None, _) =>
          launch rt clients clientCount delay startDelay (S i) rest
                 (started ++ [mkWorker acc delay client])
      end
  end.

(** The returns of the worker goroutines, in the order of [returnOrder]. *)
Definition workerReturns (rt : Runtime) (workers : list Worker) : list (nat * error) :=
  omap (λ i, w ← workers !! i;
             match runBot (ctx rt) (workerDelay w) (cycles rt i) with
             | Returns r => Some (i, r)
             | _ => None
             end)
       (returnOrder rt).

Definition workerTasks (rt : Runtime) (workers : list Worker) : errgroup.Tasks :=
  foldl errgroup.spawn
        {| errgroup.group := errgroup.WithContext (parentDone rt); errgroup.running := [] |}
        (seq 0 (length workers)).

(** The client pool of [Start]: the slice [clients] after the factory loop,
    or the error of the factory call that failed. *)
Definition clientPool (cfg : LoadBotConfig) : Outcome (list Client + err) :=
  let clientCount := cappedClientCount cfg in
  clients ← makeClients clientCount;
  mret (clientLoop (ClientFactory cfg) (Z.to_nat clientCount) 0 clients).

(** [Start]: the error returned and the workers that were started. *)
Definition Start (rt : Runtime) (cfg : LoadBotConfig) : Outcome (error * list Worker) :=
  let clientCount := cappedClientCount cfg in
  pool ← clientPool cfg;
  match pool with
  | inr err => Returns (Some err, [])
  | inl clients =>
      let len := Z.of_nat (length (Accounts cfg)) in
      '(delay, startDelay) ← delays len (TransactionsPerSecond cfg);
      '(err, workers) ← launch rt clients clientCount delay startDelay 0 (Accounts cfg) [];
      match err with
      | Some err => Returns (Some err, workers)
      | None =>
          let t := errgroup.completeAll (workerTasks rt workers) (workerReturns rt workers) in
          r ← errgroup.Wait (errgroup.group t);
          mret (r, workers)
      end
  end.

End loadbot.

(* ===================================================================== *)
(** * Vocabulary of the properties                                        *)
(* ===================================================================== *)

Import cluster.

(** The node list the cluster works on after any access. *)
Definition nodesOf (cl : Cluster) : list Node := (ensureNodes cl).1.

(** A cluster whose node list, if materialised, came from [ensureNodes]. *)
Definition wellFormed (cl : Cluster) : Prop :=
  nodes cl = None ∨ ∃ e g, nodes cl = Some (buildNodes e g).

(** The identifier node [n] reports once initialised (empty on failure). *)
Definition enodeOf (P : Procs) (n : Node) : string :=
  match procEnodeURL P n with
  | inl url => url
  | inr _ => ""%string
  end.

(** The error that stops the bootstrap of node [n], if any: [geth init]
    first, the identifier fetch second. *)
Definition bootError (P : Procs) (genesisPath : string) (n : Node) : error :=
  match procInit P n genesisPath with
  | Some e => Some e
  | None => match procEnodeURL P n with
            | inl _ => None
            | inr e => Some e
            end
  end.

(** The calls a node receives during its bootstrap: both when it succeeds,
    and up to the failing one otherwise. *)
Definition bootCalls (genesisPath : string) (n : Node) : list Call :=
  [CallInit (Number (Config n)) genesisPath; CallEnodeURL (Number (Config n))].

Definition failedBootCalls (P : Procs) (genesisPath : string) (n : Node) : list Call :=
  match procInit P n genesisPath with
  | Some _ => [CallInit (Number (Config n)) genesisPath]
  | None => bootCalls genesisPath n
  end.

(** The peering call node [n], at index [i], receives. *)
Definition peerCall (ids : list string) (i : nat) (n : Node) : Call :=
  CallSetStaticNodes (Number (Config n)) (peersOf i ids).

(** The world after node [n] booted, and after its bootstrap failed. *)
Definition booted (genesisPath : string) (w : World) (n : Node) : World :=
  {| initialized := Number (Config n) :: initialized w;
     staticNodes := staticNodes w;
     calls := calls w ++ bootCalls genesisPath n |}.

Definition bootFailed (P : Procs) (genesisPath : string) (w : World) (n : Node) : World :=
  {| initialized := match procInit P n genesisPath with
                    | None => Number (Config n) :: initialized w
                    | Some _ => initialized w
                    end;
     staticNodes := staticNodes w;
     calls := calls w ++ failedBootCalls P genesisPath n |}.

(** [enodeUrls] after the first loop of [Init] ran over [ns] from index [i]. *)
Fixpoint fillUrls (P : Procs) (i : nat) (ns : list Node) (urls : list string) : list string :=
  match ns with
  | [] => urls
  | n :: rest => fillUrls P (S i) rest (<[i := enodeOf P n]> urls)
  end.

(** The result of pushing its peer list to node [n], at index [i]. *)
Definition peerError (P : Procs) (ids : list string) (i : nat) (n : Node) : error :=
  procSetStaticNodes P n (peersOf i ids).

(** The world after node [n], at index [i], stored its peer list; after all
    of [ns], at indices [i], [i+1], ..., did; and the calls they received. *)
Definition peered (ids : list string) (i : nat) (w : World) (n : Node) : World :=
  {| initialized := initialized w;
     staticNodes := <[Number (Config n) := peersOf i ids]> (staticNodes w);
     calls := calls w ++ [peerCall ids i n] |}.

Fixpoint peeredAll (ids : list string) (i : nat) (ns : list Node) (w : World) : World :=
  match ns with
  | [] => w
  | n :: rest => peeredAll ids (S i) rest (peered ids i w n)
  end.

Fixpoint peerCalls (ids : list string) (i : nat) (ns : list Node) : list Call :=
  match ns with
  | [] => []
  | n :: rest => peerCall ids i n :: peerCalls ids (S i) rest
  end.

(** The node a call is addressed to. *)
Definition callTarget (c : Call) : option nat :=
  match c with
  | CallInit k _ | CallEnodeURL k | CallSetStaticNodes k _ => Some k
  | Printed _ _ => None
  end.

Definition isPeering (c : Call) : bool :=
  match c with
  | CallSetStaticNodes _ _ => true
  | _ => false
  end.

(** Operations on a cluster during its lifetime.  [OpSetEnv] is not an
    operation of the cluster: it is the environment the cluster points to
    being changed from outside. *)
Inductive Op : Type :=
| OpInit
| OpPrintNodeInfo
| OpRun (parentDone : bool) (completions : list (nat * error))
| OpSetEnv (e : env.Environment).

Definition accessesNodes (op : Op) : bool :=
  match op with
  | OpSetEnv _ => false
  | _ => true
  end.

Definition step (P : Procs) (s : Cluster * World) (op : Op) : Cluster * World :=
  match op with
  | OpInit => let '(_, cl, w) := Init P s.1 s.2 in (cl, w)
  | OpPrintNodeInfo => let '(_, cl, w) := PrintNodeInfo P s.1 s.2 in (cl, w)
  | OpRun parentDone completions => ((Run parentDone completions s.1).2, s.2)
  | OpSetEnv e => ({| env := e; gethPath := gethPath s.1; nodes := nodes s.1 |}, s.2)
  end.

Definition steps (P : Procs) (s : Cluster * World) (ops : list Op) : Cluster * World :=
  foldl (step P) s ops.

(** The WaitGroup counter counts the running tasks. *)
Definition counted (t : errgroup.Tasks) : Prop :=
  errgroup.wg (errgroup.group t) = length (errgroup.running t)
  ∧ NoDup (errgroup.running t).

Import loadbot.

(** A failure of [Send] or [WaitMined] that is the cancellation, or no
    failure. *)
Definition cancellation (r : error) : bool :=
  match r with
  | None => true
  | Some e => Is e Canceled
  end.

(** Every failure worker [i] observes is the cancellation of the context. *)
Definition onlyCancelled (rt : Runtime) (i : nat) : bool :=
  forallb (λ c, cancellation (sendResult c) && cancellation (minedResult c)) (cycles rt i).

(** A turn in which [Send] or [WaitMined] fails. *)
Definition failureSeen (c : Cycle) : bool :=
  bool_decide (sendResult c ≠ None) || bool_decide (minedResult c ≠ None).

(** What worker [i] returns, when it returns. *)
Definition workerResult (rt : Runtime) (ws : list Worker) (i : nat) : error :=
  match ws !! i with
  | Some w => match runBot (ctx rt) (workerDelay w) (cycles rt i) with
              | Returns r => r
              | _ => None
              end
  | None => None
  end.

(** A group that ran its [errOnce] has an error. *)
Definition latched (t : errgroup.Tasks) : Prop :=
  errgroup.errOnce (errgroup.group t) = true → errgroup.gerr (errgroup.group t) ≠ None.

(** The record of a right shift of [m] by [k] bits: the quotient, the
    round bit (the remainder is at least half) and the sticky bit (the
    remainder is neither zero nor exactly half). *)
Definition shifted (m : Z) (k : Z) (mrs : shr_record) : Prop :=
  shr_m mrs = m / 2 ^ k
  ∧ shr_r mrs = (2 ^ k <=? 2 * (m mod 2 ^ k))
  ∧ shr_s mrs = negb (2 * (m mod 2 ^ k) =? (if shr_r mrs then 2 ^ k else 0)).

(** [0.95 * q], rounded down. *)
Definition damped (q : Z) : Z := 95 * q / 100.

(* ===================================================================== *)
(** * Concrete inputs                                                     *)
(* ===================================================================== *)

Module Example.

Definition datadir (i : nat) : string :=
  nth i ["validator-00"; "validator-01"; "validator-02"; "validator-03"]%string
      "validator-nn"%string.

Definition account (name : string) : env.Account :=
  {| env.Address := name; env.PrivateKey := String.append name "-key" |}.

(** An environment with four validators and three developer accounts. *)
Definition environment : env.Environment :=
  {| env.ValidatorAccounts := [account "v0"; account "v1"; account "v2"; account "v3"];
     env.DeveloperAccounts := [account "d0"; account "d1"; account "d2"];
     env.ValidatorDatadir := datadir;
     env.GenesisPath := "genesis.json";
     env.ChainID := 1101 |}.

Definition identifier (n : Node) : string :=
  String.append "enode://" (env.Address (Account (Config n))).

(** Node processes that never fail. *)
Definition healthy : Procs :=
  {| procInit := λ _ _, None;
     procEnodeURL := λ n, inl (identifier n);
     procSetStaticNodes := λ _ _, None |}.

(** Node processes where [geth init] of node 2 fails. *)
Definition initFails : Procs :=
  {| procInit := λ n _, if decide (Number (Config n) = 2%nat)
                        then Some (ErrorNew "geth init: exit status 1") else None;
     procEnodeURL := λ n, inl (identifier n);
     procSetStaticNodes := λ _ _, None |}.

(** Node processes where node 1 rejects its static peer list. *)
Definition peeringFails : Procs :=
  {| procInit := λ _ _, None;
     procEnodeURL := λ n, inl (identifier n);
     procSetStaticNodes := λ n _, if decide (Number (Config n) = 1%nat)
                                  then Some (ErrorNew "static-nodes.json: permission denied")
                                  else None |}.

(** The world before anything ran. *)
Definition world : World :=
  {| initialized := []; staticNodes := ∅; calls := [] |}.

Definition fresh : Cluster := New environment "geth".

Definition node (i : nat) (name : string) : Node :=
  NewNode {| GethPath := "geth"; Number := i; Account := account name;
             Datadir := datadir i; ChainID := 1101 |}.

(** Load bot: three accounts, five transactions per second, two clients. *)
Definition config : LoadBotConfig :=
  {| Accounts := [account "d0"; account "d1"; account "d2"];
     Amount := 10000000;
     TransactionsPerSecond := 5;
     ClientCount := 2;
     ClientFactory := λ k, inl (Conn k) |}.

(** The same with a rate of zero. *)
Definition zeroRate : LoadBotConfig :=
  {| Accounts := [account "d0"; account "d1"; account "d2"];
     Amount := 10000000;
     TransactionsPerSecond := 0;
     ClientCount := 2;
     ClientFactory := λ k, inl (Conn k) |}.

(** A rate of zero and a factory that cannot connect. *)
Definition zeroRateNoDial : LoadBotConfig :=
  {| Accounts := [account "d0"; account "d1"; account "d2"];
     Amount := 10000000;
     TransactionsPerSecond := 0;
     ClientCount := 1;
     ClientFactory := λ _, inr (ErrorNew "dial tcp 127.0.0.1:8545: connection refused") |}.

(** A turn that is confirmed 200 ms after it was sent at [t], and a turn that
    finds the context cancelled when sending. *)
Definition confirmed (t : Z) : Cycle :=
  {| sentAt := t; sendResult := None; minedResult := None;
     checkedAt := t + 200000000; waitedAt := t + 200000000; tie := CaseTimer |}.

Definition cancelledAt (t : Z) : Cycle :=
  {| sentAt := t; sendResult := Some Canceled; minedResult := None;
     checkedAt := t; waitedAt := t; tie := CaseDone |}.

(** A run cancelled after 2 s: every worker completes one turn, then fails
    to send; worker 2 returns first. *)
Definition runtime : Runtime :=
  {| parentDone := false;
     ctx := {| doneAt := Some 2000000000; ctxErr := Canceled |};
     launchAt := λ i, Z.of_nat i * 190000000;
     launchTie := λ _, CaseTimer;
     cycles := λ i, [confirmed (1000000000 + Z.of_nat i * 190000000);
                     cancelledAt (2000000000 + Z.of_nat i)];
     returnOrder := [2%nat; 0%nat; 1%nat] |}.

End Example.

(* ===================================================================== *)
(** * Vocabulary: printing, running, key serialisation                    *)
(* ===================================================================== *)

(** What [EnodeURL] answers for node [n] in world [w], and the identifier it
    reports there (empty on failure). *)
Definition enodeResult (P : Procs) (w : World) (n : Node) : string + err :=
  if bool_decide (Number (Config n) ∈ initialized w)
  then procEnodeURL P n
  else inr (ErrorNew "node key lookup failed").

Definition answers (P : Procs) (w : World) (n : Node) : bool :=
  match enodeResult P w n with
  | inl _ => true
  | inr _ => false
  end.

Definition urlIn (P : Procs) (w : World) (n : Node) : string :=
  match enodeResult P w n with
  | inl url => url
  | inr _ => ""%string
  end.

(** The calls and printed lines of [PrintNodeInfo] over [ns], from index [i]
    on, when every node answers. *)
Fixpoint infoCalls (url : Node → string) (i : nat) (ns : list Node) : list Call :=
  match ns with
  | [] => []
  | n :: rest =>
      CallEnodeURL (Number (Config n)) :: Printed i (url n) :: infoCalls url (S i) rest
  end.

Definition isReadOnly (c : Call) : bool :=
  match c with
  | CallEnodeURL _ | Printed _ _ => true
  | _ => false
  end.

(** Package cluster, continued. *)

(** What a call that may end the process does: [log.Fatal] exits. *)
Inductive Exits (A : Type) : Type :=
| Continues (a : A)
| Fatal (msg : string).
Arguments Continues {A} a.
Arguments Fatal {A} msg.

(** [toSerializedBlsPublicKey].  [PUBLICKEYBYTES] is the length of the array
    type [blscrypto.SerializedPublicKey], a constant of a package that is not
    part of these files; [key] starts as the zero array and [key[i] = b] runs
    for every byte of [bs]. *)
Definition toSerializedBlsPublicKey (PUBLICKEYBYTES : nat) (bs : list Byte.byte)
  : Exits (list Byte.byte) :=
  if bool_decide (length bs ≠ PUBLICKEYBYTES) then Fatal "Invalid bls key size"
  else
    let key := replicate PUBLICKEYBYTES Byte.x00 in
    Continues (foldl (λ key ib, <[ib.1 := ib.2]> key) key (imap pair bs)).

(* ===================================================================== *)
(** * Package loadbot, continued                                          *)
(* ===================================================================== *)

(** A call that returns or panics with a message ([panic(...)], or a run-time
    error). *)
Inductive Raises (A : Type) : Type :=
| Ok (a : A)
| Raise (msg : string).
Arguments Ok {A} a.
Arguments Raise {A} msg.

(** [rand.Intn(n)]: panics unless [n > 0], else a number in [[0, n)]; [raw] is
    the non-negative number the generator draws. *)
Definition Intn (raw : nat) (n : Z) : Raises Z :=
  if n <=? 0 then Raise "invalid argument to Intn" else Ok (Z.of_nat raw mod n).

(** The closure [nextTransfer] of [Start]: the recipient address and the
    amount. *)
Definition nextTransfer (cfg : LoadBotConfig) (raw : nat) : Raises (string * Z) :=
  match Intn raw (Z.of_nat (length (Accounts cfg))) with
  | Raise msg => Raise msg
  | Ok idx =>
      match Accounts cfg !! Z.to_nat idx with
      | Some acc => Ok (env.Address acc, Amount cfg)
      | None => Raise "index out of range"
      end
  end.

(** The result of the [i]-th launch wait of [Start]. *)
Definition launchWait (rt : Runtime) (startDelay : Z) (i : nat) : error :=
  (waitFor (ctx rt) (launchTie rt i) (launchAt rt i) startDelay).1.

(** The workers [Start] starts for the accounts [accs], the first of them at
    index [i]. *)
Fixpoint workersFrom (pool : list Client) (delay : Z) (i : nat) (accs : list env.Account)
  : list Worker :=
  match accs with
  | [] => []
  | acc :: rest =>
      match pool !! (i mod length pool)%nat with
      | Some client => mkWorker acc delay client :: workersFrom pool delay (S i) rest
      | None => []
      end
  end.

(** A turn that goes on to the next one. *)
Definition continues (ctx : Context) (sleepTime : Z) (c : Cycle) : bool :=
  match runCycle ctx sleepTime c with
  | CycleContinue _ => true
  | CycleReturn _ => false
  end.

(** A turn that reaches [waitFor] (the send and the confirmation succeed,
    the clock is not past the next send time) with a context that is done
    before the timer of that wait fires. *)
Definition interruptedInWait (ctx : Context) (sleepTime : Z) (c : Cycle) : Prop :=
  sendResult c = None ∧ minedResult c = None
  ∧ checkedAt c ≤ sentAt c + sleepTime
  ∧ ∃ T, doneAt ctx = Some T
         ∧ Z.max (waitedAt c) T
           < waitedAt c + Z.max 0 (Until (waitedAt c) (sentAt c + sleepTime)).

(** A turn in which [Send] or [WaitMined] fails, or whose wait the done
    context interrupts. *)
Definition interrupted (ctx : Context) (sleepTime : Z) (c : Cycle) : Prop :=
  failureSeen c = true ∨ interruptedInWait ctx sleepTime c.

(** The return order is complete for the first [n] workers: it lists every
    one of them whose loop has returned. *)
Definition returnsObserved (rt : Runtime) (sleepTime : Z) (n : nat) : Prop :=
  ∀ i, (i < n)%nat →
       (∃ r, runBot (ctx rt) sleepTime (cycles rt i) = Returns r) →
       i ∈ returnOrder rt.

(* ===================================================================== *)
(** * Further concrete inputs                                             *)
(* ===================================================================== *)

Module Scenario.

(** A context that is never done. *)
Definition background : Context := {| doneAt := None; ctxErr := Canceled |}.

(** A run cancelled after 250 ms, during the second launch wait. *)
Definition cancelledEarly : Runtime :=
  {| parentDone := false;
     ctx := {| doneAt := Some 250000000; ctxErr := Canceled |};
     launchAt := λ i, Z.of_nat i * 190000000;
     launchTie := λ _, CaseTimer;
     cycles := λ i, [Example.cancelledAt (250000000 + Z.of_nat i)];
     returnOrder := [0%nat] |}.

(** A run cancelled after 2 s in which worker 1 is still waiting for the
    confirmation of its first transaction, the others having returned. *)
Definition stuck : Runtime :=
  {| parentDone := false;
     ctx := {| doneAt := Some 2000000000; ctxErr := Canceled |};
     launchAt := λ i, Z.of_nat i * 190000000;
     launchTie := λ _, CaseTimer;
     cycles := λ i, if decide (i = 1%nat) then []
                    else [Example.confirmed (1000000000 + Z.of_nat i * 190000000);
                          Example.cancelledAt (2000000000 + Z.of_nat i)];
     returnOrder := [2%nat; 0%nat] |}.

(** A run cancelled after 2 s while every worker sleeps between two
    transactions: each was confirmed 200 ms after its second send and waits for
    the rest of its delay; worker 1 returns first. *)
Definition cancelledAsleep : Runtime :=
  {| parentDone := false;
     ctx := {| doneAt := Some 2000000000; ctxErr := Canceled |};
     launchAt := λ i, Z.of_nat i * 190000000;
     launchTie := λ _, CaseTimer;
     cycles := λ i, [Example.confirmed (1000000000 + Z.of_nat i * 190000000);
                     Example.confirmed (1570000000 + Z.of_nat i * 190000000)];
     returnOrder := [1%nat; 0%nat; 2%nat] |}.

(** A load bot whose third connection is refused. *)
Definition thirdDialFails : LoadBotConfig :=
  {| Accounts := [Example.account "d0"; Example.account "d1"; Example.account "d2"];
     Amount := 10000000;
     TransactionsPerSecond := 5;
     ClientCount := 4;
     ClientFactory := λ k, if decide (k = 2%nat)
                           then inr (ErrorNew "dial tcp 127.0.0.1:8545: connection refused")
                           else inl (Conn k) |}.

(** The world after a successful [Init] of the example cluster, and the
    cluster it leaves. *)
Definition initialised : World := (Init Example.healthy Example.fresh Example.world).2.
Definition built : Cluster := (Init Example.healthy Example.fresh Example.world).1.2.

(** Node processes where the identifier lookup of node 2 fails. *)
Definition lookupFails : Procs :=
  {| procInit := λ _ _, None;
     procEnodeURL := λ n, if decide (Number (Config n) = 2%nat)
                          then inr (ErrorNew "nodekey: no such file")
                          else inl (Example.identifier n);
     procSetStaticNodes := λ _ _, None |}.

(** The three workers of the example load bot. *)
Definition workers : list Worker :=
  [mkWorker (Example.account "d0") 570000000 (Conn 0);
   mkWorker (Example.account "d1") 570000000 (Conn 1);
   mkWorker (Example.account "d2") 570000000 (Conn 0)].

End Scenario.

(* ===================================================================== *)
(** * Cluster.Init: the two loops                                         *)
(* ===================================================================== *)

Section InitLoops.
Context (P : Procs) (g : string).

Lemma boot_one n i urls w rest :
  bootError P g n = None →
  initLoop P g i (n :: rest) urls w
  = initLoop P g (S i) rest (<[i := enodeOf P n]> urls) (booted g w n).
Proof.
  unfold bootError, enodeOf. intros Hb.
  destruct (procInit P n g) eqn:Hi; [done|].
  destruct (procEnodeURL P n) as [u|e] eqn:Hu; [|done].
  cbn [initLoop]. unfold bind at 1, node_Init. rewrite Hi. cbn.
  unfold bind at 1, node_EnodeURL. cbn.
  rewrite bool_decide_eq_true_2 by apply list_elem_of_here.
  rewrite Hu. unfold booted, bootCalls, logCall. cbn. rewrite <- (assoc_L (++)). done.
Qed.

Lemma boot_fails n e i urls w rest :
  bootError P g n = Some e →
  initLoop P g i (n :: rest) urls w = (inr e, bootFailed P g w n).
Proof.
  unfold bootError, bootFailed, failedBootCalls. intros Hb.
  cbn [initLoop]. unfold bind at 1, node_Init.
  destruct (procInit P n g) eqn:Hi; cbn.
  { by simplify_eq. }
  unfold bind at 1, node_EnodeURL. cbn.
  rewrite bool_decide_eq_true_2 by apply list_elem_of_here.
  destruct (procEnodeURL P n) as [u|e'] eqn:Hu; [done|]. simplify_eq.
  unfold bootCalls, logCall. cbn. rewrite <- (assoc_L (++)). done.
Qed.

Lemma initLoop_boots ns : ∀ i urls w,
  Forall (λ n, bootError P g n = None) ns →
  initLoop P g i ns urls w = (inl (fillUrls P i ns urls), foldl (booted g) w ns).
Proof.
  induction ns as [|n rest IH]; intros i urls w Hall; [done|].
  inversion_clear Hall. rewrite boot_one by done. cbn. by apply IH.
Qed.

Lemma initLoop_fails pre nk post e : ∀ i urls w,
  Forall (λ n, bootError P g n = None) pre →
  bootError P g nk = Some e →
  initLoop P g i (pre ++ nk :: post) urls w
  = (inr e, bootFailed P g (foldl (booted g) w pre) nk).
Proof.
  induction pre as [|n rest IH]; intros i urls w Hall Hk.
  - by apply boot_fails.
  - inversion_clear Hall. cbn [app]. rewrite boot_one by done. cbn. by apply IH.
Qed.

Lemma initLoop_inv ns : ∀ i urls w urls' w',
  initLoop P g i ns urls w = (inl urls', w') →
  Forall (λ n, bootError P g n = None) ns.
Proof.
  induction ns as [|n rest IH]; intros i urls w urls' w' H; [constructor|].
  destruct (bootError P g n) as [e|] eqn:Hb.
  - by rewrite (boot_fails _ e) in H.
  - rewrite boot_one in H by done. constructor; [done|]. eauto.
Qed.

Lemma fillUrls_spec ns : ∀ i urls,
  length urls = (i + length ns)%nat →
  fillUrls P i ns urls = take i urls ++ (enodeOf P <$> ns).
Proof.
  induction ns as [|n rest IH]; intros i urls Hlen; cbn in *.
  - rewrite app_nil_r, take_ge; [done|lia].
  - rewrite IH by (rewrite length_insert; lia).
    rewrite (take_S_r _ _ (enodeOf P n)).
    + rewrite take_insert_ge by lia. by rewrite <- (assoc_L (++)).
    + apply list_lookup_insert_eq. lia.
Qed.

Lemma booted_initialized ns : ∀ w,
  initialized (foldl (booted g) w ns) = rev (Number ∘ Config <$> ns) ++ initialized w.
Proof.
  induction ns as [|n rest IH]; intros w; [done|]. cbn. rewrite IH. cbn.
  by rewrite <- (assoc_L (++)).
Qed.

Lemma booted_calls ns : ∀ w,
  calls (foldl (booted g) w ns) = calls w ++ flat_map (bootCalls g) ns.
Proof.
  induction ns as [|n rest IH]; intros w; cbn -[bootCalls].
  - by rewrite app_nil_r.
  - rewrite IH. cbn -[bootCalls]. by rewrite <- (assoc_L (++)).
Qed.

Lemma booted_staticNodes ns : ∀ w,
  staticNodes (foldl (booted g) w ns) = staticNodes w.
Proof. induction ns as [|n rest IH]; intros w; [done|]. cbn. by rewrite IH. Qed.

(** The second loop. *)

Lemma peer_one ids n i w rest :
  peerError P ids i n = None →
  connectLoop P i (n :: rest) ids w = connectLoop P (S i) rest ids (peered ids i w n).
Proof.
  unfold peerError. intros He. cbn [connectLoop].
  unfold bind at 1, node_SetStaticNodes. by rewrite He.
Qed.

Lemma peer_fails ids n e i w rest :
  peerError P ids i n = Some e →
  connectLoop P i (n :: rest) ids w = (inr e, logCall (peerCall ids i n) w).
Proof.
  unfold peerError. intros He. cbn [connectLoop].
  unfold bind at 1, node_SetStaticNodes. by rewrite He.
Qed.

Lemma connectLoop_peers ids ns : ∀ i w,
  (∀ j n, ns !! j = Some n → peerError P ids (i + j) n = None) →
  connectLoop P i ns ids w = (inl (), peeredAll ids i ns w).
Proof.
  induction ns as [|n rest IH]; intros i w Hall; [done|].
  rewrite peer_one.
  - cbn. apply IH. intros j m Hj. replace (S i + j)%nat with (i + S j)%nat by lia.
    by apply Hall.
  - replace i with (i + 0)%nat at 1 by lia. by apply Hall.
Qed.

Lemma connectLoop_fails ids pre nk post e : ∀ i w,
  (∀ j n, pre !! j = Some n → peerError P ids (i + j) n = None) →
  peerError P ids (i + length pre) nk = Some e →
  connectLoop P i (pre ++ nk :: post) ids w
  = (inr e, logCall (peerCall ids (i + length pre) nk) (peeredAll ids i pre w)).
Proof.
  induction pre as [|n rest IH]; intros i w Hall Hk.
  - cbn in *. rewrite Nat.add_0_r in *. by apply peer_fails.
  - cbn [app]. rewrite peer_one.
    + cbn. replace (i + S (length rest))%nat with (S i + length rest)%nat by lia.
      apply IH.
      * intros j m Hj. replace (S i + j)%nat with (i + S j)%nat by lia. by apply Hall.
      * cbn in Hk. by replace (S i + length rest)%nat with (i + S (length rest))%nat by lia.
    + replace i with (i + 0)%nat at 1 by lia. by apply Hall.
Qed.

Lemma connectLoop_inv ids ns : ∀ i w u w',
  connectLoop P i ns ids w = (inl u, w') →
  ∀ j n, ns !! j = Some n → peerError P ids (i + j) n = None.
Proof.
  induction ns as [|n rest IH]; intros i w u w' H j m Hj; [done|].
  destruct (peerError P ids i n) as [e|] eqn:He.
  { by rewrite (peer_fails _ _ e) in H. }
  rewrite peer_one in H by done. destruct j as [|j]; cbn in Hj.
  - simplify_eq. by rewrite Nat.add_0_r.
  - replace (i + S j)%nat with (S i + j)%nat by lia. eauto.
Qed.

Lemma peeredAll_initialized ids ns : ∀ i w,
  initialized (peeredAll ids i ns w) = initialized w.
Proof. induction ns as [|n rest IH]; intros i w; [done|]. cbn. by rewrite IH. Qed.

Lemma peeredAll_calls ids ns : ∀ i w,
  calls (peeredAll ids i ns w) = calls w ++ peerCalls ids i ns.
Proof.
  induction ns as [|n rest IH]; intros i w; cbn.
  - by rewrite app_nil_r.
  - rewrite IH. cbn. by rewrite <- (assoc_L (++)).
Qed.

Lemma peerCalls_app ids pre post : ∀ i,
  peerCalls ids i (pre ++ post) = peerCalls ids i pre ++ peerCalls ids (i + length pre) post.
Proof.
  induction pre as [|n rest IH]; intros i; cbn.
  - by rewrite Nat.add_0_r.
  - rewrite IH. by replace (S i + length rest)%nat with (i + S (length rest))%nat by lia.
Qed.

Lemma peeredAll_below ids ns : ∀ i w k,
  (∀ j n, ns !! j = Some n → Number (Config n) = (i + j)%nat) →
  (k < i)%nat →
  staticNodes (peeredAll ids i ns w) !! k = staticNodes w !! k.
Proof.
  induction ns as [|n rest IH]; intros i w k Hnum Hk; [done|]. cbn.
  rewrite IH.
  - cbn. rewrite lookup_insert_ne; [done|].
    specialize (Hnum 0%nat n eq_refl). lia.
  - intros j m Hj. replace (S i + j)%nat with (i + S j)%nat by lia. by apply Hnum.
  - lia.
Qed.

Lemma peeredAll_lookup ids ns : ∀ i w j n,
  (∀ j n, ns !! j = Some n → Number (Config n) = (i + j)%nat) →
  ns !! j = Some n →
  staticNodes (peeredAll ids i ns w) !! (i + j)%nat = Some (peersOf (i + j) ids).
Proof.
  induction ns as [|m rest IH]; intros i w j n Hnum Hj; [done|].
  assert (∀ j n, rest !! j = Some n → Number (Config n) = (S i + j)%nat) as Hnum'.
  { intros j' n' Hj'. replace (S i + j')%nat with (i + S j')%nat by lia. by apply Hnum. }
  cbn. destruct j as [|j]; cbn in Hj.
  - simplify_eq. rewrite Nat.add_0_r. rewrite peeredAll_below by (done || lia).
    cbn. rewrite (Hnum 0%nat n eq_refl), Nat.add_0_r. apply lookup_insert_eq.
  - replace (i + S j)%nat with (S i + j)%nat by lia. by eapply IH.
Qed.

End InitLoops.

(* ===================================================================== *)
(** * Cluster: node list, Init                                            *)
(* ===================================================================== *)

Section ClusterInit.
Context (P : Procs).

Lemma ensureNodes_env cl : env (ensureNodes cl).2 = env cl.
Proof. unfold ensureNodes. by destruct (nodes cl). Qed.

Lemma ensureNodes_nodes cl : nodes (ensureNodes cl).2 = Some (nodesOf cl).
Proof. unfold nodesOf, ensureNodes. by destruct (nodes cl) eqn:E. Qed.

Lemma ensureNodes_idem cl ns : nodes cl = Some ns → ensureNodes cl = (ns, cl).
Proof. unfold ensureNodes. by intros ->. Qed.

Lemma buildNodes_numbered e g j n :
  buildNodes e g !! j = Some n → Number (Config n) = j.
Proof.
  unfold buildNodes. rewrite list_lookup_imap.
  destruct (env.ValidatorAccounts e !! j); cbn; [|done]. by intros [= <-].
Qed.

Lemma buildNodes_length e g :
  length (buildNodes e g) = length (env.ValidatorAccounts e).
Proof. unfold buildNodes. apply length_imap. Qed.

Lemma nodesOf_numbered cl j n :
  wellFormed cl → nodesOf cl !! j = Some n → Number (Config n) = j.
Proof.
  unfold nodesOf, ensureNodes. intros [Hn|(e & g & Hn)]; rewrite Hn; cbn;
    apply buildNodes_numbered.
Qed.

Lemma Init_unfold cl w :
  Init P cl w =
  match initLoop P (env.GenesisPath (env cl)) 0 (nodesOf cl)
                 (replicate (length (nodesOf cl)) ""%string) w with
  | (inr e, w) => (Some e, (ensureNodes cl).2, w)
  | (inl enodeUrls, w) =>
      match connectLoop P 0 (nodesOf cl) enodeUrls w with
      | (inr e, w) => (Some e, (ensureNodes cl).2, w)
      | (inl _, w) => (None, (ensureNodes cl).2, w)
      end
  end.
Proof.
  unfold Init, nodesOf. pose proof (ensureNodes_env cl) as He.
  destruct (ensureNodes cl) as [ns cl1]. cbn in *. by rewrite He.
Qed.

Lemma Init_boot_failure cl w pre nk post e :
  let g := env.GenesisPath (env cl) in
  nodesOf cl = pre ++ nk :: post →
  Forall (λ n, bootError P g n = None) pre →
  bootError P g nk = Some e →
  Init P cl w = (Some e, (ensureNodes cl).2, bootFailed P g (foldl (booted g) w pre) nk).
Proof.
  intros g Hns Hpre Hk. rewrite Init_unfold, Hns.
  by rewrite (initLoop_fails P _ pre nk post e).
Qed.

Lemma Init_peer_stage cl w :
  let g := env.GenesisPath (env cl) in
  Forall (λ n, bootError P g n = None) (nodesOf cl) →
  Init P cl w =
  match connectLoop P 0 (nodesOf cl) (enodeOf P <$> nodesOf cl)
                    (foldl (booted g) w (nodesOf cl)) with
  | (inr e, w) => (Some e, (ensureNodes cl).2, w)
  | (inl _, w) => (None, (ensureNodes cl).2, w)
  end.
Proof.
  intros g Hall. rewrite Init_unfold, initLoop_boots by done.
  rewrite fillUrls_spec by (by rewrite length_replicate). done.
Qed.

Lemma Init_success_inv cl w cl' w' :
  let g := env.GenesisPath (env cl) in
  let ids := enodeOf P <$> nodesOf cl in
  Init P cl w = (None, cl', w') →
  Forall (λ n, bootError P g n = None) (nodesOf cl)
  ∧ (∀ j n, nodesOf cl !! j = Some n → peerError P ids j n = None)
  ∧ w' = peeredAll ids 0 (nodesOf cl) (foldl (booted g) w (nodesOf cl)).
Proof.
  intros g ids H.
  assert (Forall (λ n, bootError P g n = None) (nodesOf cl)) as Hall.
  { rewrite Init_unfold in H.
    destruct (initLoop _ _ _ _ _ _) as [[urls|e] w1] eqn:Hl; [|done].
    by eapply initLoop_inv. }
  split; [done|]. rewrite Init_peer_stage in H by done.
  destruct (connectLoop _ _ _ _ _) as [[u|e] w1] eqn:Hc; [|done].
  pose proof (connectLoop_inv P _ _ _ _ _ _ Hc) as Hp. split; [exact Hp|].
  rewrite connectLoop_peers in Hc by exact Hp. by simplify_eq.
Qed.

Lemma bootError_None g n :
  bootError P g n = None → procEnodeURL P n = inl (enodeOf P n).
Proof.
  unfold bootError, enodeOf. destruct (procInit P n g); [done|].
  by destruct (procEnodeURL P n).
Qed.

End ClusterInit.

Lemma others_length {A} (l : list A) i :
  (i < length l)%nat → length (take i l ++ drop (S i) l) = (length l - 1)%nat.
Proof. intros. rewrite length_app, length_take, length_drop. lia. Qed.

Lemma others_elem {A} (l : list A) i j x :
  l !! j = Some x → j ≠ i → x ∈ take i l ++ drop (S i) l.
Proof.
  intros Hj Hne. apply elem_of_app.
  destruct (decide (j < i)%nat).
  - left. apply list_elem_of_lookup. exists j. by rewrite lookup_take_lt.
  - right. apply list_elem_of_lookup. exists (j - S i)%nat.
    rewrite lookup_drop. by replace (S i + (j - S i))%nat with j by lia.
Qed.

Lemma others_not_self {A} (l : list A) i x :
  l !! i = Some x → NoDup l → x ∉ take i l ++ drop (S i) l.
Proof.
  intros Hi Hnd. rewrite <- (take_drop_middle l i x Hi) in Hnd.
  apply NoDup_app in Hnd as (_ & Hd & Hnd').
  apply NoDup_cons in Hnd' as [Hx _].
  intros [Hin|Hin]%elem_of_app; [|done].
  apply (Hd x Hin). left.
Qed.

(** C1. When [Init] succeeds, every node of the cluster has reported an
    identifier, and the static peer list stored for the node at index [i] is
    the list of the identifiers of the other nodes, in index order: the
    identifiers before position [i] followed by those after it.  It has
    [N - 1] entries, contains the identifier of every other node, and, the
    identifiers of distinct nodes being distinct, does not contain the
    identifier of node [i] itself.  This holds for every [N], in particular
    for [N >= 2]. *)
Theorem Init_full_mesh (P : Procs) (cl cl' : Cluster) (w w' : World) (i : nat) (n : Node) :
  wellFormed cl →
  Init P cl w = (None, cl', w') →
  nodesOf cl !! i = Some n →
  let ids := enodeOf P <$> nodesOf cl in
  let peers := take i ids ++ drop (S i) ids in
  procEnodeURL P n = inl (enodeOf P n)
  ∧ staticNodes w' !! Number (Config n) = Some peers
  ∧ length peers = (length (nodesOf cl) - 1)%nat
  ∧ (∀ j m, nodesOf cl !! j = Some m → j ≠ i → enodeOf P m ∈ peers)
  ∧ (NoDup ids → enodeOf P n ∉ peers).
Proof.
  intros Hwf HInit Hi ids peers.
  apply Init_success_inv in HInit as (Hboot & _ & ->).
  assert (ids !! i = Some (enodeOf P n)) as Hid.
  { unfold ids. by rewrite list_lookup_fmap, Hi. }
  split; [|split; [|split; [|split]]].
  - eapply bootError_None, (Forall_lookup_1 _ _ _ _ Hboot Hi).
  - rewrite (nodesOf_numbered cl i n Hwf Hi).
    pose proof (peeredAll_lookup ids (nodesOf cl) 0
                  (foldl (booted (env.GenesisPath (env cl))) w (nodesOf cl)) i n) as Hl.
    cbn in Hl. apply Hl; [|done]. intros j m. by apply nodesOf_numbered.
  - unfold peers. rewrite others_length.
    + unfold ids. by rewrite length_fmap.
    + by eapply lookup_lt_Some.
  - intros j m Hj Hne. apply (others_elem ids i j); [|done].
    unfold ids. by rewrite list_lookup_fmap, Hj.
  - intros Hnd. by apply others_not_self.
Qed.

Lemma peeredAll_other ids ns : ∀ i w k,
  (∀ n, n ∈ ns → Number (Config n) ≠ k) →
  staticNodes (peeredAll ids i ns w) !! k = staticNodes w !! k.
Proof.
  induction ns as [|n rest IH]; intros i w k Hne; [done|]. cbn.
  rewrite IH.
  - cbn. apply lookup_insert_ne, Hne. left.
  - intros m Hm. apply Hne. by right.
Qed.

Lemma bootCalls_targets g (pre : list Node) k c :
  (∀ j n, pre !! j = Some n → Number (Config n) = j) →
  (length pre ≤ k)%nat →
  c ∈ flat_map (bootCalls g) pre →
  isPeering c = false ∧ ∃ t, callTarget c = Some t ∧ (t ≤ k)%nat.
Proof.
  intros Hnum Hk Hc. apply list_elem_of_In, in_flat_map in Hc as (n & Hn & Hc).
  apply list_elem_of_In, list_elem_of_lookup in Hn as [j Hj].
  pose proof (lookup_lt_Some _ _ _ Hj). rewrite <- (Hnum j n Hj) in H.
  cbn in Hc. destruct Hc as [<-|[<-|[]]]; (split; [done|]); eexists; (split; [done|lia]).
Qed.

(** C2. [Init] visits the nodes in index order and stops at the first
    failure.  (1) If every node before index [k] boots and the bootstrap of
    node [k] fails with [e] (its [geth init], or else its identifier fetch),
    [Init] returns [e]; the calls made are exactly the two bootstrap calls of
    each of the nodes [0..k-1], in order, then the calls of node [k] up to the
    failing one: no call goes to a node after [k] and no peer list is pushed;
    the nodes initialised so far stay initialised and no stored peer list
    changes.  (2) If every node boots, the peer lists are pushed after all the
    bootstrap calls, in index order; if the push to node [k] fails with [e]
    after the pushes before it succeeded, [Init] returns [e], the log ends
    with that push, the nodes before [k] have their peer list and nothing is
    stored for a node from [k] on. *)
Theorem Init_ordered_fail_fast (P : Procs) (cl : Cluster) (w : World) :
  wellFormed cl →
  let g := env.GenesisPath (env cl) in
  let ns := nodesOf cl in
  let ids := enodeOf P <$> ns in
  (∀ pre nk post e,
      ns = pre ++ nk :: post →
      Forall (λ n, bootError P g n = None) pre →
      bootError P g nk = Some e →
      ∃ cl' w',
        Init P cl w = (Some e, cl', w')
        ∧ calls w' = calls w ++ flat_map (bootCalls g) pre ++ failedBootCalls P g nk
        ∧ (∀ c, c ∈ flat_map (bootCalls g) pre ++ failedBootCalls P g nk →
                isPeering c = false ∧ ∃ t, callTarget c = Some t ∧ (t ≤ length pre)%nat)
        ∧ initialized w' =
            match procInit P nk g with
            | None => [Number (Config nk)]
            | Some _ => []
            end ++ rev (Number ∘ Config <$> pre) ++ initialized w
        ∧ staticNodes w' = staticNodes w)
  ∧ (∀ pre nk post e,
      ns = pre ++ nk :: post →
      Forall (λ n, bootError P g n = None) ns →
      (∀ j n, pre !! j = Some n → peerError P ids j n = None) →
      peerError P ids (length pre) nk = Some e →
      ∃ cl' w',
        Init P cl w = (Some e, cl', w')
        ∧ calls w' = calls w ++ flat_map (bootCalls g) ns ++ peerCalls ids 0 (pre ++ [nk])
        ∧ initialized w' = rev (Number ∘ Config <$> ns) ++ initialized w
        ∧ (∀ j m, pre !! j = Some m → staticNodes w' !! j = Some (peersOf j ids))
        ∧ (∀ j, (length pre ≤ j)%nat → staticNodes w' !! j = staticNodes w !! j)).
Proof.
  intros Hwf g ns ids.
  assert (∀ j n, ns !! j = Some n → Number (Config n) = j) as Hnum.
  { intros j n. by apply nodesOf_numbered. }
  split.
  - intros pre nk post e Hns Hpre Hk.
    assert (∀ j n, pre !! j = Some n → Number (Config n) = j) as Hnum_pre.
    { intros j n Hj. apply Hnum. rewrite Hns. by apply lookup_app_l_Some. }
    assert (Number (Config nk) = length pre) as Hnk.
    { apply Hnum. rewrite Hns. by rewrite list_lookup_middle. }
    eexists _, _. split; [by apply (Init_boot_failure P cl w pre nk post e)|].
    cbn [calls initialized staticNodes bootFailed].
    rewrite booted_calls, booted_initialized, booted_staticNodes.
    split; [by rewrite (assoc_L (++))|]. split; [|split; [|done]].
    + intros c [Hc|Hc]%elem_of_app.
      * by apply (bootCalls_targets g pre).
      * unfold failedBootCalls, bootCalls in Hc. rewrite Hnk in Hc.
        destruct (procInit P nk g); set_unfold;
          destruct Hc as [->|Hc]; try destruct Hc as [->|Hc]; try done;
          (split; [done|]); eexists; (split; [done|lia]).
    + unfold g. by destruct (procInit P nk _).
  - intros pre nk post e Hns Hboot Hpre Hk.
    pose proof (Init_peer_stage P cl w Hboot) as HI. fold g ns ids in HI.
    rewrite Hns in HI at 1.
    rewrite (connectLoop_fails P ids pre nk post e 0) in HI by done.
    eexists _, _. split; [exact HI|].
    cbn [calls initialized staticNodes logCall].
    rewrite peeredAll_calls, peeredAll_initialized.
    rewrite booted_calls, booted_initialized.
    split; [|split; [done|split]].
    + rewrite peerCalls_app. cbn. by rewrite <- !(assoc_L (++)).
    + intros j m Hj.
      assert (∀ j n, pre !! j = Some n → Number (Config n) = (0 + j)%nat) as Hnum_pre.
      { intros j' n' Hj'. apply Hnum. rewrite Hns. by apply lookup_app_l_Some. }
      by apply (peeredAll_lookup ids pre 0 _ j m Hnum_pre).
    + intros j Hj. rewrite peeredAll_other, booted_staticNodes; [done|].
      intros n [i Hi]%list_elem_of_lookup.
      pose proof (lookup_lt_Some _ _ _ Hi).
      rewrite (Hnum i n); [lia|]. rewrite Hns. by apply lookup_app_l_Some.
Qed.

(* ===================================================================== *)
(** * errgroup: first error wins                                          *)
(* ===================================================================== *)

Section ErrGroup.
Import errgroup.

Lemma spawn_seq n : ∀ t a,
  foldl spawn t (seq a n)
  = {| group := mkGroup (ctxDone (group t)) (errOnce (group t)) (gerr (group t))
                        (wg (group t) + n);
       running := running t ++ seq a n |}.
Proof.
  induction n as [|n IH]; intros [[d o r c] l] a; cbn.
  - by rewrite Nat.add_0_r, app_nil_r.
  - rewrite IH. cbn. f_equal; [f_equal; lia|]. by rewrite <- (assoc_L (++)).
Qed.

Lemma spawn_seq_counted parentDone n :
  counted (foldl spawn {| group := WithContext parentDone; running := [] |} (seq 0 n)).
Proof.
  rewrite spawn_seq. split; cbn.
  - by rewrite length_seq.
  - apply NoDup_seq.
Qed.

Lemma filter_ne_id (l : list nat) x :
  x ∉ l → filter (λ j, j ≠ x) l = l.
Proof.
  induction l as [|z l IH]; intros Hx; [done|].
  apply not_elem_of_cons in Hx as [Hzx Hx].
  rewrite filter_cons. destruct (decide (z ≠ x)) as [_|Hn]; [|by destruct Hn].
  by rewrite IH.
Qed.

Lemma filter_remove_length (l : list nat) x :
  NoDup l → x ∈ l → length (filter (λ j, j ≠ x) l) = pred (length l).
Proof.
  induction l as [|y l IH]; intros Hnd Hx; [by apply elem_of_nil in Hx|].
  apply NoDup_cons in Hnd as [Hy Hnd]. rewrite filter_cons.
  destruct (decide (y ≠ x)) as [Hne|Heq].
  - apply elem_of_cons in Hx as [->|Hx]; [done|].
    cbn. rewrite IH by done. destruct l; [by apply elem_of_nil in Hx|done].
  - apply dec_stable in Heq. subst y. cbn. by rewrite filter_ne_id.
Qed.

Lemma wg_goroutineReturn g r : wg (goroutineReturn g r) = pred (wg g).
Proof. destruct r; cbn; [by destruct (errOnce g)|done]. Qed.

Lemma complete_counted t c : counted t → counted (complete t c).
Proof.
  intros [Hwg Hnd]. unfold complete. case_bool_decide as Hin; [|done].
  split; cbn.
  - by rewrite wg_goroutineReturn, Hwg, filter_remove_length.
  - by apply NoDup_filter.
Qed.

Lemma completeAll_cons t c cs :
  completeAll t (c :: cs) = completeAll (complete t c) cs.
Proof. done. Qed.

Lemma completeAll_counted cs : ∀ t, counted t → counted (completeAll t cs).
Proof.
  induction cs as [|c cs IH]; intros t Ht; [done|].
  rewrite completeAll_cons. by apply IH, complete_counted.
Qed.

Lemma complete_running t c j :
  j ∈ running (complete t c) ↔ j ∈ running t ∧ j ≠ c.1.
Proof.
  unfold complete. case_bool_decide as Hin; cbn.
  - rewrite list_elem_of_filter. tauto.
  - split; [|by intros []]. intros Hj. split; [done|]. by intros ->.
Qed.

Lemma completeAll_running cs : ∀ t j,
  j ∈ running (completeAll t cs) ↔ j ∈ running t ∧ j ∉ cs.*1.
Proof.
  induction cs as [|c cs IH]; intros t j.
  - cbn. split; [|by intros []]. intros Hj. split; [done|]. apply not_elem_of_nil.
  - rewrite completeAll_cons, IH, complete_running, fmap_cons, not_elem_of_cons. tauto.
Qed.

Lemma completeAll_app t cs1 cs2 :
  completeAll t (cs1 ++ cs2) = completeAll (completeAll t cs1) cs2.
Proof. apply foldl_app. Qed.

(** Returns of [nil] leave the error and the context of the group alone. *)
Lemma completeAll_nil cs : ∀ t,
  Forall (λ c, c.2 = None) cs →
  ctxDone (group (completeAll t cs)) = ctxDone (group t)
  ∧ errOnce (group (completeAll t cs)) = errOnce (group t)
  ∧ gerr (group (completeAll t cs)) = gerr (group t).
Proof.
  induction cs as [|[i r] cs IH]; intros t Hall; [done|].
  inversion_clear Hall as [|? ? Hr Hcs]. cbn in Hr. subst r.
  rewrite completeAll_cons.
  destruct (IH (complete t (i, None)) Hcs) as (-> & -> & ->).
  unfold complete. by case_bool_decide.
Qed.

(** Once an error is recorded, nothing changes it and the context stays done. *)
Lemma completeAll_latched cs : ∀ t,
  errOnce (group t) = true →
  ctxDone (group (completeAll t cs)) = ctxDone (group t)
  ∧ errOnce (group (completeAll t cs)) = true
  ∧ gerr (group (completeAll t cs)) = gerr (group t).
Proof.
  induction cs as [|[i r] cs IH]; intros t Ho; [done|].
  rewrite completeAll_cons.
  assert (ctxDone (group (complete t (i, r))) = ctxDone (group t)
          ∧ errOnce (group (complete t (i, r))) = true
          ∧ gerr (group (complete t (i, r))) = gerr (group t)) as (Hd & Ho' & He).
  { unfold complete. case_bool_decide; [|done]. cbn.
    destruct r; cbn; [by rewrite Ho|done]. }
  destruct (IH _ Ho') as (-> & -> & ->). by rewrite Hd, He.
Qed.

(** The first non-nil return records its error and cancels the context. *)
Lemma complete_first_error t m e :
  errOnce (group t) = false → m ∈ running t →
  ctxDone (group (complete t (m, Some e))) = true
  ∧ errOnce (group (complete t (m, Some e))) = true
  ∧ gerr (group (complete t (m, Some e))) = Some e.
Proof.
  intros Ho Hm. unfold complete. rewrite bool_decide_eq_true_2 by done.
  cbn. by rewrite Ho.
Qed.

Lemma Wait_returns t r : Wait (group t) = Returns r → r = gerr (group t).
Proof. unfold Wait. destruct (wg (group t)); [by intros [= <-]|done]. Qed.

Lemma Wait_all_returned t :
  counted t → (∀ j, j ∉ running t) → Wait (group t) = Returns (gerr (group t)).
Proof.
  intros [Hwg _] Hnone. unfold Wait. rewrite Hwg.
  destruct (running t) as [|j l]; [done|]. exfalso. apply (Hnone j). left.
Qed.

End ErrGroup.

(* ===================================================================== *)
(** * Cluster.Run and the node list                                       *)
(* ===================================================================== *)

Lemma runTasks_running parentDone ns j :
  j ∈ errgroup.running (runTasks parentDone ns) ↔ (j < length ns)%nat.
Proof.
  unfold runTasks. rewrite spawn_seq. cbn. rewrite elem_of_seq. lia.
Qed.

Lemma runTasks_group parentDone ns :
  errgroup.ctxDone (errgroup.group (runTasks parentDone ns)) = parentDone
  ∧ errgroup.errOnce (errgroup.group (runTasks parentDone ns)) = false
  ∧ errgroup.gerr (errgroup.group (runTasks parentDone ns)) = None.
Proof. unfold runTasks. by rewrite spawn_seq. Qed.

Lemma Run_unfold parentDone cs cl :
  Run parentDone cs cl
  = (errgroup.Wait (errgroup.group
       (errgroup.completeAll (runTasks parentDone (nodesOf cl)) cs)),
     (ensureNodes cl).2).
Proof. unfold Run, nodesOf. by destruct (ensureNodes cl). Qed.

(** C4. Take any run of the cluster in which the nodes of [pre] return
    [nil], and then node [m], still running, returns the error [e].  Until
    then the shared context is done only if the caller's was; at that return
    it is done (the cancellation signal is triggered) and [e] is recorded,
    while the nodes that are neither [m] nor in [pre] are still running; and
    whatever the nodes of [post] return later, errors included, the context
    stays done and [Run], if it returns, returns [e].  It does return [e]
    once every node has returned. *)
Theorem Run_first_error (cl : Cluster) (parentDone : bool)
    (pre post : list (nat * error)) (m : nat) (e : err) :
  Forall (λ c, c.2 = None) pre →
  (m < length (nodesOf cl))%nat →
  m ∉ pre.*1 →
  let before := errgroup.completeAll (runTasks parentDone (nodesOf cl)) pre in
  let t := errgroup.complete before (m, Some e) in
  errgroup.ctxDone (errgroup.group before) = parentDone
  ∧ errgroup.ctxDone (errgroup.group t) = true
  ∧ errgroup.gerr (errgroup.group t) = Some e
  ∧ (∀ j, j ∈ errgroup.running t ↔ (j < length (nodesOf cl))%nat ∧ j ≠ m ∧ j ∉ pre.*1)
  ∧ errgroup.ctxDone (errgroup.group (errgroup.completeAll t post)) = true
  ∧ (∀ r, (Run parentDone (pre ++ (m, Some e) :: post) cl).1 = Returns r → r = Some e)
  ∧ ((∀ j, (j < length (nodesOf cl))%nat → j ∈ (pre ++ (m, Some e) :: post).*1) →
     (Run parentDone (pre ++ (m, Some e) :: post) cl).1 = Returns (Some e)).
Proof.
  intros Hpre Hm Hnot before t.
  destruct (runTasks_group parentDone (nodesOf cl)) as (Hd0 & Ho0 & He0).
  destruct (completeAll_nil pre (runTasks parentDone (nodesOf cl)) Hpre) as (Hd1 & Ho1 & He1).
  fold before in Hd1, Ho1, He1.
  assert (m ∈ errgroup.running before) as Hrun.
  { unfold before. rewrite completeAll_running, runTasks_running. done. }
  destruct (complete_first_error before m e) as (Hd2 & Ho2 & He2);
    [by rewrite Ho1|done|]. fold t in Hd2, Ho2, He2.
  destruct (completeAll_latched post t Ho2) as (Hd3 & Ho3 & He3).
  assert (errgroup.completeAll (runTasks parentDone (nodesOf cl)) (pre ++ (m, Some e) :: post)
          = errgroup.completeAll t post) as Hall.
  { by rewrite completeAll_app, completeAll_cons. }
  split; [by rewrite Hd1|]. split; [done|]. split; [done|]. split.
  { intros j. unfold t. rewrite complete_running. unfold before.
    rewrite completeAll_running, runTasks_running. cbn. tauto. }
  split; [by rewrite Hd3|]. split.
  - intros r. rewrite Run_unfold, Hall. cbn. intros Hr%Wait_returns.
    by rewrite Hr, He3.
  - intros Hcover. rewrite Run_unfold, Hall. cbn. rewrite <- Hall.
    rewrite Wait_all_returned.
    + by rewrite Hall, He3, He2.
    + apply completeAll_counted, spawn_seq_counted.
    + intros j. rewrite completeAll_running, runTasks_running.
      intros [Hj Hn]. by apply Hn, Hcover.
Qed.

Section NodeList.
Context (P : Procs).

Lemma Init_cluster cl w : (Init P cl w).1.2 = (ensureNodes cl).2.
Proof.
  rewrite Init_unfold. destruct (initLoop _ _ _ _ _ _) as [[urls|e] w1]; [|done].
  by destruct (connectLoop _ _ _ _ _) as [[u|e] w2].
Qed.

Lemma PrintNodeInfo_cluster cl w : (PrintNodeInfo P cl w).1.2 = (ensureNodes cl).2.
Proof.
  unfold PrintNodeInfo. destruct (ensureNodes cl) as [ns cl1].
  by destruct (printLoop _ _ _ _) as [[u|e] w1].
Qed.

Lemma step_access s op :
  accessesNodes op = true → (step P s op).1 = (ensureNodes s.1).2.
Proof.
  destruct op; cbn; [| | |done]; intros _.
  - rewrite <- (Init_cluster s.1 s.2). by destruct (Init P s.1 s.2) as [[r c] w].
  - rewrite <- (PrintNodeInfo_cluster s.1 s.2).
    by destruct (PrintNodeInfo P s.1 s.2) as [[r c] w].
  - by rewrite Run_unfold.
Qed.

Lemma step_keeps s op ns : nodes s.1 = Some ns → nodes (step P s op).1 = Some ns.
Proof.
  intros Hn. destruct (accessesNodes op) eqn:Ha.
  - rewrite step_access by done. by rewrite (ensureNodes_idem _ ns).
  - by destruct op.
Qed.

Lemma steps_keep ops : ∀ s ns,
  nodes s.1 = Some ns → nodes (steps P s ops).1 = Some ns.
Proof.
  induction ops as [|op ops IH]; intros s ns Hn; [done|].
  change (steps P s (op :: ops)) with (steps P (step P s op) ops).
  by apply IH, step_keeps.
Qed.

Lemma steps_unaccessed sets : ∀ s,
  Forall (λ o, accessesNodes o = false) sets →
  nodes (steps P s sets).1 = nodes s.1 ∧ gethPath (steps P s sets).1 = gethPath s.1.
Proof.
  induction sets as [|op ops IH]; intros s Hall; [done|].
  inversion_clear Hall as [|? ? Hop Hops].
  change (steps P s (op :: ops)) with (steps P (step P s op) ops).
  destruct (IH (step P s op) Hops) as [-> ->]. by destruct op.
Qed.

End NodeList.

(** C9. A cluster made by [New] has no node list until the first operation
    that accesses it ([Init], [PrintNodeInfo] or [Run]).  That access builds
    the list from the validator accounts the environment has at that moment,
    one node per account; from then on, whatever operations follow (the
    environment may even be changed from outside), the cluster holds that
    same list and [ensureNodes] returns it without changing the cluster. *)
Theorem node_list_built_once (P : Procs) (e : env.Environment) (g : string) (w : World)
    (sets rest : list Op) (op : Op) :
  Forall (λ o, accessesNodes o = false) sets →
  accessesNodes op = true →
  let s0 := steps P (New e g, w) sets in
  let built := buildNodes (env s0.1) g in
  nodes s0.1 = None
  ∧ length built = length (env.ValidatorAccounts (env s0.1))
  ∧ ∀ k, let s := steps P s0 (op :: take k rest) in
         nodes s.1 = Some built ∧ ensureNodes s.1 = (built, s.1).
Proof.
  intros Hsets Hop s0 built.
  destruct (steps_unaccessed P sets (New e g, w) Hsets) as [Hn Hg].
  fold s0 in Hn, Hg. cbn in Hn, Hg.
  split; [done|]. split; [apply buildNodes_length|].
  intros k s.
  assert (nodes s.1 = Some built) as Hs.
  { unfold s. change (steps P s0 (op :: take k rest))
      with (steps P (step P s0 op) (take k rest)).
    apply steps_keep. rewrite step_access by done.
    unfold ensureNodes. rewrite Hn. cbn. by rewrite Hg. }
  split; [done|]. by apply ensureNodes_idem.
Qed.

(* ===================================================================== *)
(** * LoadBot: client pool, launch loop, panics                           *)
(* ===================================================================== *)

Lemma clientLoop_inv factory n : ∀ i clients pool,
  clientLoop factory n i clients = inl pool →
  length pool = (length clients + n)%nat
  ∧ ∀ k, (k < n)%nat → ∃ c, factory (i + k)%nat = inl c.
Proof.
  induction n as [|n IH]; intros i clients pool H; cbn in H.
  - simplify_eq. split; [lia|]. intros k Hk. lia.
  - destruct (factory i) as [c|e] eqn:Hf; [|done].
    apply IH in H as [Hlen Hall]. rewrite length_app in Hlen. cbn in Hlen.
    split; [lia|]. intros [|k] Hk.
    + rewrite Nat.add_0_r. eauto.
    + replace (i + S k)%nat with (S i + k)%nat by lia. apply Hall. lia.
Qed.

Lemma clientLoop_total factory n : ∀ i clients,
  (∀ k, (k < n)%nat → ∃ c, factory (i + k)%nat = inl c) →
  ∃ pool, clientLoop factory n i clients = inl pool.
Proof.
  induction n as [|n IH]; intros i clients Hall; cbn; [eauto|].
  destruct (Hall 0%nat) as [c Hc]; [lia|]. rewrite Nat.add_0_r in Hc. rewrite Hc.
  apply IH. intros k Hk. replace (S i + k)%nat with (i + S k)%nat by lia.
  apply Hall. lia.
Qed.

Lemma cappedClientCount_min cfg : cappedClientCount cfg = Z.min (ClientCount cfg) clientCap.
Proof. unfold cappedClientCount. case_match; lia. Qed.

Lemma clientPool_built cfg pool :
  clientPool cfg = Returns (inl pool) →
  0 ≤ cappedClientCount cfg ∧ Z.of_nat (length pool) = cappedClientCount cfg.
Proof.
  unfold clientPool, makeClients. case_match eqn:Hneg; [done|]. cbn.
  intros [= H]. apply clientLoop_inv in H as [Hlen _]. cbn in Hlen. lia.
Qed.

(** C6. For a configured client count [c >= 0], building the client pool of
    [Start] does not panic; whenever the pool is built (no factory call
    failed) it holds exactly [min(c, 100)] clients, whatever the accounts are,
    so it is not empty when [c > 0]; and it is built as soon as the first
    [min(c, 100)] calls of the factory succeed. *)
Theorem clientPool_size (cfg : LoadBotConfig) :
  0 ≤ ClientCount cfg →
  (∃ r, clientPool cfg = Returns r)
  ∧ (∀ pool, clientPool cfg = Returns (inl pool) →
       Z.of_nat (length pool) = Z.min (ClientCount cfg) clientCap
       ∧ (0 < ClientCount cfg → pool ≠ []))
  ∧ ((∀ k, Z.of_nat k < Z.min (ClientCount cfg) clientCap → ∃ c, ClientFactory cfg k = inl c) →
     ∃ pool, clientPool cfg = Returns (inl pool)).
Proof.
  intros Hc. pose proof (cappedClientCount_min cfg) as Hmin.
  assert (clientPool cfg
          = Returns (clientLoop (ClientFactory cfg) (Z.to_nat (cappedClientCount cfg)) 0 []))
    as Hpool.
  { unfold clientPool, makeClients. case_match eqn:Hneg; [|done].
    unfold clientCap in *. lia. }
  split; [eauto|]. split.
  - intros pool Hb. apply clientPool_built in Hb as [_ Hlen].
    split; [lia|]. intros Hpos ->. cbn in Hlen. unfold clientCap in *. lia.
  - intros Hall. rewrite Hpool.
    destruct (clientLoop_total (ClientFactory cfg) (Z.to_nat (cappedClientCount cfg)) 0 [])
      as [pool ->]; [|eauto].
    intros k Hk. apply Hall. lia.
Qed.

Lemma int_rem_nat (i n : nat) :
  n ≠ 0%nat → int_rem (Z.of_nat i) (Z.of_nat n) = Returns (Z.of_nat (i mod n)).
Proof.
  intros Hn. unfold int_rem. destruct (Z.eqb_spec (Z.of_nat n) 0) as [H0|_]; [lia|].
  rewrite Z.rem_mod_nonneg by lia. by rewrite Nat2Z.inj_mod.
Qed.

Lemma index_nat pool (k : nat) :
  index pool (Z.of_nat k)
  = match pool !! k with Some c => Returns c | None => Panics IndexOutOfRange end.
Proof.
  unfold index. destruct (Z.ltb_spec (Z.of_nat k) 0) as [H|_]; [lia|].
  by rewrite Nat2Z.id.
Qed.

Section Launch.
Context (rt : Runtime) (pool : list Client) (delay startDelay : Z).

Lemma launch_inv accs : ∀ i started r ws,
  launch rt pool (Z.of_nat (length pool)) delay startDelay i accs started = Returns (r, ws) →
  length started = i →
  (r = None → length ws = (i + length accs)%nat)
  ∧ ∀ j w, ws !! j = Some w →
      started !! j = Some w
      ∨ (i ≤ j)%nat ∧ accs !! (j - i)%nat = Some (workerAccount w)
        ∧ workerDelay w = delay
        ∧ pool !! (j mod length pool)%nat = Some (workerClient w).
Proof.
  induction accs as [|acc rest IH]; intros i started r ws H Hlen.
  - cbn in H. simplify_eq. split; [intros _; cbn; lia|]. intros j w Hj. by left.
  - cbn [launch] in H.
    destruct (decide (length pool = 0%nat)) as [H0|Hne].
    { rewrite H0 in H. by cbn in H. }
    rewrite int_rem_nat in H by done. cbn in H. rewrite index_nat in H.
    destruct (pool !! (i mod length pool)%nat) as [client|] eqn:Hc; [|done]. cbn in H.
    destruct (waitFor _ _ _ _) as [[err|] t].
    + simplify_eq. split; [done|]. intros j w Hj. by left.
    + apply IH in H as [Hl Hw]; [|rewrite length_app; cbn; lia].
      split; [intros Hr; rewrite (Hl Hr); cbn; lia|].
      intros j w Hj. destruct (Hw j w Hj) as [Hs|(Hij & Ha & Hd & Hp)].
      * apply lookup_app_Some in Hs as [Hs|[Hge Hs]]; [by left|].
        apply list_lookup_singleton_Some in Hs as [Hz <-]. right.
        assert (j = i) as -> by lia. rewrite Nat.sub_diag. by cbn.
      * right. split; [lia|]. replace (j - i)%nat with (S (j - S i)) by lia. done.
Qed.

End Launch.

Lemma delayMillis_returns len tps :
  tps ≠ 0 → ∃ ms, delayMillis len tps = Returns ms.
Proof.
  intros Htps. unfold delayMillis, int_div.
  destruct (Z.eqb_spec tps 0) as [|_]; [done|]. cbn. eauto.
Qed.

Lemma delays_returns len tps :
  tps ≠ 0 → len ≠ 0 → ∃ d sd, delays len tps = Returns (d, sd).
Proof.
  intros Htps Hlen. unfold delays. destruct (delayMillis_returns len tps Htps) as [ms ->].
  cbn. unfold int_div. destruct (Z.eqb_spec len 0) as [|_]; [done|]. cbn. eauto.
Qed.

Lemma delays_panics len tps :
  tps = 0 ∨ len = 0 → delays len tps = Panics IntegerDivideByZero.
Proof.
  intros H. unfold delays.
  destruct (decide (tps = 0)) as [->|Htps]; [done|].
  destruct H as [H|H]; [done|]. subst len.
  destruct (delayMillis_returns 0 tps Htps) as [ms ->]. done.
Qed.

Lemma Start_inv rt cfg r ws :
  Start rt cfg = Returns (r, ws) →
  (∃ err, clientPool cfg = Returns (inr err) ∧ r = Some err ∧ ws = [])
  ∨ ∃ pool delay startDelay r0,
      clientPool cfg = Returns (inl pool)
      ∧ delays (Z.of_nat (length (Accounts cfg))) (TransactionsPerSecond cfg)
        = Returns (delay, startDelay)
      ∧ launch rt pool (Z.of_nat (length pool)) delay startDelay 0 (Accounts cfg) []
        = Returns (r0, ws)
      ∧ match r0 with
        | Some err => r = Some err
        | None =>
            errgroup.Wait (errgroup.group
              (errgroup.completeAll (workerTasks rt ws) (workerReturns rt ws)))
            = Returns r
        end.
Proof.
  unfold Start. destruct (clientPool cfg) as [[pool|err]| |] eqn:Hp; cbn; try done.
  2:{ intros [= <- <-]. left. eauto. }
  apply clientPool_built in Hp as Hb. destruct Hb as [_ <-].
  destruct (delays _ _) as [[d sd]| |]; cbn; try done.
  destruct (launch _ _ _ _ _ _ _ _) as [[r0 ws0]| |] eqn:Hl; cbn; try done.
  intros H. right. exists pool, d, sd, r0. split; [done|]. split; [done|].
  destruct r0 as [err|].
  - simplify_eq. done.
  - destruct (errgroup.Wait _) as [r1| |] eqn:Hw; cbn in H; try done.
    unfold mret, Outcome_ret in H. simplify_eq. done.
Qed.

(** C7. Every worker [Start] has started, for the account at index [i], was
    given the client at position [i mod poolSize] of the client pool, which is
    then not empty; the worker carries that one client for its whole run, and
    two workers whose indices agree modulo the pool size share the same
    client. *)
Theorem worker_client_assignment (rt : Runtime) (cfg : LoadBotConfig)
    (r : error) (ws : list Worker) (i : nat) (w : Worker) :
  Start rt cfg = Returns (r, ws) →
  ws !! i = Some w →
  ∃ pool,
    clientPool cfg = Returns (inl pool)
    ∧ pool ≠ []
    ∧ Accounts cfg !! i = Some (workerAccount w)
    ∧ pool !! (i mod length pool)%nat = Some (workerClient w)
    ∧ ∀ j w', ws !! j = Some w' →
        (j mod length pool = i mod length pool)%nat → workerClient w' = workerClient w.
Proof.
  intros HS Hi. apply Start_inv in HS as [(err & _ & _ & ->)|(pool & d & sd & r0 & Hp & _ & Hl & _)].
  { done. }
  apply launch_inv in Hl as [_ Hw]; [|done].
  assert (∀ j w', ws !! j = Some w' →
            Accounts cfg !! j = Some (workerAccount w')
            ∧ pool !! (j mod length pool)%nat = Some (workerClient w')) as Hw'.
  { intros j w' Hj. destruct (Hw j w' Hj) as [?|(_ & Ha & _ & Hc)]; [done|].
    by rewrite Nat.sub_0_r in Ha. }
  destruct (Hw' i w Hi) as [Ha Hc].
  exists pool. split; [done|]. split; [by intros ->|]. split; [done|]. split; [done|].
  intros j w' Hj Hmod. destruct (Hw' j w' Hj) as [_ Hc']. rewrite Hmod in Hc'. congruence.
Qed.

(** C10.  [Start] is not total.  When the client pool has been built (the
    client count is not negative and no factory call failed), [Start] panics
    with an integer division by zero in each of these cases: the rate is 0
    (while computing the pacing delay); the account set is empty (while
    computing the pacing delay or the launch stagger, the latter when the rate
    is not 0); the capped client count is 0 and there is an account (at the
    modulo of the first client assignment when the rate is not 0, at the pacing
    delay otherwise).  In all three cases it does so whatever the workers
    would do, hence before any worker error is returned.  When a factory call
    fails, [Start] returns that error and does not panic, whatever the rate
    and the accounts are. *)
Theorem Start_panics (cfg : LoadBotConfig) :
  let len := Z.of_nat (length (Accounts cfg)) in
  let tps := TransactionsPerSecond cfg in
  (∀ pool, clientPool cfg = Returns (inl pool) →
     (tps = 0 →
        delayMillis len tps = Panics IntegerDivideByZero
        ∧ ∀ rt, Start rt cfg = Panics IntegerDivideByZero)
     ∧ (Accounts cfg = [] →
          delays len tps = Panics IntegerDivideByZero
          ∧ (tps ≠ 0 → ∃ ms, delayMillis len tps = Returns ms
                             ∧ int_div (wrap64 (ms * Millisecond)) len
                               = Panics IntegerDivideByZero)
          ∧ ∀ rt, Start rt cfg = Panics IntegerDivideByZero)
     ∧ (cappedClientCount cfg = 0 → Accounts cfg ≠ [] →
          (tps ≠ 0 → ∃ delay startDelay,
             delays len tps = Returns (delay, startDelay)
             ∧ int_rem 0 (cappedClientCount cfg) = Panics IntegerDivideByZero
             ∧ ∀ rt, launch rt pool (cappedClientCount cfg) delay startDelay 0
                            (Accounts cfg) [] = Panics IntegerDivideByZero)
          ∧ ∀ rt, Start rt cfg = Panics IntegerDivideByZero))
  ∧ (∀ e, clientPool cfg = Returns (inr e) → ∀ rt, Start rt cfg = Returns (Some e, [])).
Proof.
  intros len tps. split; [|by intros e He rt; unfold Start; rewrite He].
  intros pool Hp.
  assert (tps = 0 ∨ Accounts cfg = [] → ∀ rt, Start rt cfg = Panics IntegerDivideByZero)
    as Hdiv.
  { intros H rt. unfold Start. rewrite Hp. cbn. fold len tps. rewrite delays_panics; [done|].
    destruct H as [?|Ha]; [by left|]. right. unfold len. by rewrite Ha. }
  split; [|split].
  - intros H. split; [by unfold delayMillis, int_div; rewrite H|]. apply Hdiv. by left.
  - intros Ha. split; [apply delays_panics; right; unfold len; by rewrite Ha|].
    split; [|apply Hdiv; by right].
    intros Htps. destruct (delayMillis_returns len tps Htps) as [ms Hms].
    exists ms. split; [done|]. unfold len. by rewrite Ha.
  - intros Hcc Hacc.
    assert (tps ≠ 0 → ∃ delay startDelay,
              delays len tps = Returns (delay, startDelay)
              ∧ int_rem 0 (cappedClientCount cfg) = Panics IntegerDivideByZero
              ∧ ∀ rt, launch rt pool (cappedClientCount cfg) delay startDelay 0
                             (Accounts cfg) [] = Panics IntegerDivideByZero) as Hmod.
    { intros Htps.
      destruct (delays_returns len tps) as (d & sd & Hd);
        [done|by unfold len; destruct (Accounts cfg)|].
      exists d, sd. split; [done|]. rewrite Hcc. split; [done|].
      intros rt. destruct (Accounts cfg) as [|acc rest]; [done|]. done. }
    split; [exact Hmod|]. intros rt.
    destruct (decide (tps = 0)) as [H|Htps]; [apply Hdiv; by left|].
    destruct (Hmod Htps) as (d & sd & Hd & _ & Hl).
    unfold Start. rewrite Hp. cbn. fold len tps. rewrite Hd. cbn. by rewrite Hl.
Qed.

(* ===================================================================== *)
(** * LoadBot: pacing of a worker                                         *)
(* ===================================================================== *)

Lemma waitFor_err ctx tie now d e t :
  waitFor ctx tie now d = (Some e, t) → e = ctxErr ctx.
Proof.
  unfold waitFor. destruct (doneAt ctx); [|done].
  repeat case_match; congruence.
Qed.

Lemma waitFor_nonneg ctx tie now d r t :
  waitFor ctx tie now d = (r, t) → now ≤ t ∧ (r = None → t = now + Z.max 0 d).
Proof.
  unfold waitFor. destruct (doneAt ctx); [|intros [= <- <-]; split; [lia|done]].
  repeat case_match; intros [= <- <-]; (split; [lia|done]).
Qed.

Lemma waitFor_timer ctx tie now d :
  (doneAt ctx = None ∨ ∃ T, doneAt ctx = Some T ∧ now + Z.max 0 d < T) →
  waitFor ctx tie now d = (None, now + Z.max 0 d).
Proof.
  unfold waitFor. intros [->|(T & -> & HT)]; [done|].
  destruct (Z.ltb_spec (Z.max now T) (now + Z.max 0 d)); [lia|].
  destruct (Z.ltb_spec (now + Z.max 0 d) (Z.max now T)); [done|lia].
Qed.

Lemma waitFor_cancelled ctx tie now d T :
  doneAt ctx = Some T → Z.max now T < now + Z.max 0 d →
  waitFor ctx tie now d = (Some (ctxErr ctx), Z.max now T).
Proof.
  unfold waitFor. intros -> HT.
  destruct (Z.ltb_spec (Z.max now T) (now + Z.max 0 d)); [done|lia].
Qed.

Lemma runBot_no_panic ctx d cycles p : runBot ctx d cycles ≠ Panics p.
Proof.
  induction cycles as [|c rest IH]; [done|]. cbn. by destruct (runCycle ctx d c).
Qed.

(** C8. In a turn whose send and confirmation succeed, the next send is
    scheduled at the recorded send time plus [d].  If the clock is past it
    after the confirmation, the loop continues at once, without a [waitFor].
    Otherwise (the clock not having passed it since) the wait requested is the
    time left, which is not negative; if the context is not done by then the
    turn ends at the scheduled time exactly, and if the context is done
    earlier [runBot] returns the error of the context at that earlier instant.
    No sleep is ever of negative length, and [runBot] never panics. *)
Theorem runCycle_pacing (ctx : Context) (d : Z) (c : Cycle) :
  sendResult c = None →
  minedResult c = None →
  let next := sentAt c + d in
  let waitTime := Until (waitedAt c) next in
  (next < checkedAt c → runCycle ctx d c = CycleContinue None)
  ∧ (checkedAt c ≤ next → waitedAt c ≤ next → next - waitedAt c ≤ max_int64 →
       waitTime = next - waitedAt c
       ∧ 0 ≤ waitTime
       ∧ ((doneAt ctx = None ∨ ∃ T, doneAt ctx = Some T ∧ next < T) →
          runCycle ctx d c = CycleContinue (Some (waitTime, next)))
       ∧ (∀ T, doneAt ctx = Some T → T < next → waitedAt c < next →
            runCycle ctx d c = CycleReturn (Some (ctxErr ctx))
            ∧ waitFor ctx (tie c) (waitedAt c) waitTime
              = (Some (ctxErr ctx), Z.max (waitedAt c) T)
            ∧ Z.max (waitedAt c) T < next))
  ∧ (∀ dt t, runCycle ctx d c = CycleContinue (Some (dt, t)) →
       t = waitedAt c + Z.max 0 dt ∧ waitedAt c ≤ t)
  ∧ (∀ cycles p, runBot ctx d cycles ≠ Panics p).
Proof.
  intros Hs Hm next waitTime.
  assert (runCycle ctx d c =
            if After (checkedAt c) next then CycleContinue None
            else match waitFor ctx (tie c) (waitedAt c) waitTime with
                 | (Some err, _) => CycleReturn (Some err)
                 | (None, t) => CycleContinue (Some (waitTime, t))
                 end) as Hrun.
  { unfold runCycle. by rewrite Hs, Hm. }
  unfold After in Hrun.
  split; [|split; [|split]].
  - intros Hpast. rewrite Hrun. by destruct (Z.ltb_spec next (checkedAt c)); [|lia].
  - intros Hnot Hclock Hsat.
    assert (waitTime = next - waitedAt c) as Hw.
    { unfold waitTime, Until, min_int64, max_int64 in *. lia. }
    split; [done|]. split; [lia|].
    destruct (Z.ltb_spec next (checkedAt c)) as [|_]; [lia|]. split.
    + intros Hctx. rewrite Hrun, waitFor_timer.
      * do 3 f_equal. lia.
      * destruct Hctx as [?|(T & HT & Hlt)]; [by left|]. right. exists T. split; [done|lia].
    + intros T HT Hlt Hbefore.
      assert (Z.max (waitedAt c) T < waitedAt c + Z.max 0 waitTime) by lia.
      rewrite Hrun, (waitFor_cancelled _ _ _ _ T) by done. split; [done|]. split; [done|lia].
  - intros dt t. rewrite Hrun. destruct (Z.ltb_spec next (checkedAt c)); [done|].
    destruct (waitFor _ _ _ _) as [[err|] t'] eqn:Hwf; [done|].
    intros [= <- <-]. apply waitFor_nonneg in Hwf as [? Ht]. split; [by apply Ht|done].
  - intros cycles p. apply runBot_no_panic.
Qed.

(* ===================================================================== *)
(** * LoadBot: what Start returns                                         *)
(* ===================================================================== *)

Lemma Is_wrapped msg e : Is (Errorf msg e) Canceled = Is e Canceled.
Proof. cbn. by destruct (decide (Errorf msg e = Canceled)). Qed.

Lemma runCycle_not_nil ctx d c r : runCycle ctx d c = CycleReturn r → r ≠ None.
Proof.
  unfold runCycle. destruct (sendResult c); [by intros [= <-]|].
  destruct (minedResult c); [by intros [= <-]|].
  destruct (After _ _); [done|].
  destruct (waitFor _ _ _ _) as [[err|] t]; [by intros [= <-]|done].
Qed.

Lemma runBot_not_nil ctx d cycles r : runBot ctx d cycles = Returns r → r ≠ None.
Proof.
  induction cycles as [|c rest IH]; [done|]. cbn.
  destruct (runCycle ctx d c) eqn:Hc; [|done].
  intros [= <-]. by eapply runCycle_not_nil.
Qed.

Lemma runCycle_cancelled ctx d c r :
  ctxErr ctx = Canceled →
  cancellation (sendResult c) && cancellation (minedResult c) = true →
  runCycle ctx d c = CycleReturn r →
  ∃ e, r = Some e ∧ Is e Canceled = true.
Proof.
  intros Hctx [Hs Hm]%andb_true_iff. unfold runCycle.
  destruct (sendResult c) as [es|].
  { intros [= <-]. eexists. split; [done|]. by rewrite Is_wrapped. }
  destruct (minedResult c) as [em|].
  { intros [= <-]. eexists. split; [done|]. by rewrite Is_wrapped. }
  destruct (After _ _); [done|].
  destruct (waitFor _ _ _ _) as [[err|] t] eqn:Hw; [|done].
  intros [= <-]. apply waitFor_err in Hw as ->. rewrite Hctx. by eexists.
Qed.

Lemma runBot_cancelled ctx d cycles r :
  ctxErr ctx = Canceled →
  forallb (λ c, cancellation (sendResult c) && cancellation (minedResult c)) cycles = true →
  runBot ctx d cycles = Returns r →
  ∃ e, r = Some e ∧ Is e Canceled = true.
Proof.
  intros Hctx. induction cycles as [|c rest IH]; [done|]. cbn.
  intros [Hc Hrest]%andb_true_iff.
  destruct (runCycle ctx d c) eqn:Hr; [|by apply IH].
  intros [= <-]. by eapply runCycle_cancelled.
Qed.

Lemma runBot_returns ctx d cycles :
  existsb failureSeen cycles = true → ∃ r, runBot ctx d cycles = Returns r.
Proof.
  induction cycles as [|c rest IH]; [done|]. cbn.
  destruct (runCycle ctx d c) eqn:Hr; [eauto|].
  intros [Hc|Hrest]%orb_true_iff; [|by apply IH]. exfalso.
  unfold failureSeen in Hc. unfold runCycle in Hr.
  destruct (sendResult c); [done|]. destruct (minedResult c); [done|].
  by vm_compute in Hc.
Qed.

Section GroupErrors.
Import errgroup.

Lemma complete_latched t c : latched t → latched (complete t c).
Proof.
  unfold latched, complete. intros Ht. case_bool_decide; [|done]. cbn.
  destruct c.2; cbn; [|done]. destruct (errOnce (group t)); [by intros _; apply Ht|done].
Qed.

Lemma gerr_source cs : ∀ t,
  gerr (group (completeAll t cs)) = gerr (group t)
  ∨ ∃ c e, c ∈ cs ∧ c.2 = Some e ∧ gerr (group (completeAll t cs)) = Some e.
Proof.
  induction cs as [|c cs IH]; intros t; [by left|].
  rewrite completeAll_cons.
  destruct (IH (complete t c)) as [->|(c' & e & Hin & Hc' & ->)].
  - unfold complete. case_bool_decide; [|by left]. cbn.
    destruct c.2 as [e|] eqn:Hc; cbn; [|by left].
    destruct (errOnce (group t)); [by left|]. right. exists c, e. split; [left|done].
  - right. exists c', e. split; [by right|done].
Qed.

Lemma gerr_None_results cs (f : nat → error) : ∀ t,
  (∀ c, c ∈ cs → c.2 = f c.1) →
  latched t →
  gerr (group (completeAll t cs)) = None →
  ∀ j, j ∈ running t → j ∉ running (completeAll t cs) → f j = None.
Proof.
  induction cs as [|c cs IH]; intros t Hf Hl Hnone j Hj Hgone; [done|].
  rewrite completeAll_cons in Hnone, Hgone.
  assert (∀ c', c' ∈ cs → c'.2 = f c'.1) as Hf' by (intros c' Hc'; apply Hf; by right).
  destruct (decide (j = c.1)) as [->|Hne].
  - destruct (f c.1) as [e|] eqn:Hfe; [exfalso|done].
    assert (errOnce (group (complete t c)) = true) as Ho.
    { unfold complete. rewrite bool_decide_eq_true_2 by done. cbn.
      rewrite (Hf c) by left. rewrite Hfe. cbn. by destruct (errOnce (group t)). }
    destruct (completeAll_latched cs (complete t c) Ho) as (_ & _ & He).
    rewrite He in Hnone. by apply (complete_latched t c Hl Ho).
  - apply (IH (complete t c) Hf' (complete_latched t c Hl) Hnone j); [|done].
    rewrite complete_running. done.
Qed.

End GroupErrors.

Lemma workerTasks_counted rt ws : counted (workerTasks rt ws).
Proof. apply spawn_seq_counted. Qed.

Lemma workerTasks_running rt ws j :
  j ∈ errgroup.running (workerTasks rt ws) ↔ (j < length ws)%nat.
Proof. unfold workerTasks. rewrite spawn_seq. cbn. rewrite elem_of_seq. lia. Qed.

Lemma workerTasks_latched rt ws : latched (workerTasks rt ws).
Proof. unfold latched, workerTasks. by rewrite spawn_seq. Qed.

Lemma workerTasks_gerr rt ws : errgroup.gerr (errgroup.group (workerTasks rt ws)) = None.
Proof. unfold workerTasks. by rewrite spawn_seq. Qed.

Lemma workerReturns_elem rt ws i r :
  (i, r) ∈ workerReturns rt ws ↔
  i ∈ returnOrder rt ∧ ∃ w, ws !! i = Some w
    ∧ runBot (ctx rt) (workerDelay w) (cycles rt i) = Returns r.
Proof.
  unfold workerReturns. rewrite list_elem_of_omap. split.
  - intros (j & Hj & Hb). destruct (ws !! j) as [w|] eqn:Hw; cbn in Hb; [|done].
    destruct (runBot _ _ _) eqn:Hr; simplify_eq. eauto.
  - intros (Hi & w & Hw & Hr). exists i. split; [done|]. rewrite Hw. cbn. by rewrite Hr.
Qed.

Lemma workerReturns_result rt ws c :
  c ∈ workerReturns rt ws → c.2 = workerResult rt ws c.1.
Proof.
  destruct c as [i r]. rewrite workerReturns_elem. intros (_ & w & Hw & Hr).
  unfold workerResult. cbn. by rewrite Hw, Hr.
Qed.

(** Every worker that was started has returned when [Wait] returns. *)
Lemma Wait_workers_returned rt ws r i w :
  errgroup.Wait (errgroup.group
    (errgroup.completeAll (workerTasks rt ws) (workerReturns rt ws))) = Returns r →
  ws !! i = Some w →
  runBot (ctx rt) (workerDelay w) (cycles rt i) = Returns (workerResult rt ws i).
Proof.
  intros HW Hi.
  pose proof (completeAll_counted (workerReturns rt ws) _ (workerTasks_counted rt ws))
    as [Hwg _].
  unfold errgroup.Wait in HW. rewrite Hwg in HW.
  destruct (errgroup.running _) as [|k l] eqn:Hrun; [|done].
  assert (i ∉ errgroup.running
            (errgroup.completeAll (workerTasks rt ws) (workerReturns rt ws))) as Hgone.
  { rewrite Hrun. apply not_elem_of_nil. }
  rewrite completeAll_running, workerTasks_running in Hgone.
  destruct (decide (i ∈ (workerReturns rt ws).*1)) as [Hin|Hn].
  - apply list_elem_of_fmap in Hin as ([i' r'] & -> & Hin). cbn.
    pose proof (workerReturns_result _ _ _ Hin) as Hres. cbn in Hres.
    apply workerReturns_elem in Hin as (_ & w' & Hw' & Hr'). cbn in Hi. by simplify_eq.
  - exfalso. apply Hgone. split; [by eapply lookup_lt_Some|done].
Qed.

Lemma launch_returns rt pool delay startDelay accs : ∀ i started,
  length pool ≠ 0%nat →
  ∃ r ws,
    launch rt pool (Z.of_nat (length pool)) delay startDelay i accs started = Returns (r, ws)
    ∧ ∀ err, r = Some err → err = ctxErr (ctx rt).
Proof.
  induction accs as [|acc rest IH]; intros i started Hne.
  - exists None, started. by split.
  - cbn [launch]. rewrite int_rem_nat by done. cbn. rewrite index_nat.
    destruct (lookup_lt_is_Some_2 pool (i mod length pool)%nat) as [client ->].
    { by apply Nat.mod_upper_bound. }
    cbn. destruct (waitFor _ _ _ _) as [[err|] t] eqn:Hw.
    + exists (Some err), started. split; [done|]. intros ? [= <-]. by eapply waitFor_err.
    + by apply IH.
Qed.

Lemma Wait_inv (t : errgroup.Tasks) r :
  counted t → errgroup.Wait (errgroup.group t) = Returns r →
  r = errgroup.gerr (errgroup.group t) ∧ errgroup.running t = [].
Proof.
  intros [Hwg _] HW. split; [by apply Wait_returns|].
  unfold errgroup.Wait in HW. rewrite Hwg in HW. by destruct (errgroup.running t).
Qed.

Lemma Wait_None_workers rt ws i w :
  errgroup.Wait (errgroup.group
    (errgroup.completeAll (workerTasks rt ws) (workerReturns rt ws))) = Returns None →
  ws !! i = Some w →
  runBot (ctx rt) (workerDelay w) (cycles rt i) = Returns None.
Proof.
  intros HW Hi. rewrite (Wait_workers_returned rt ws None i w HW Hi). f_equal.
  apply Wait_inv in HW as [Hnone Hrun];
    [|apply completeAll_counted, workerTasks_counted].
  apply (gerr_None_results (workerReturns rt ws) (workerResult rt ws) (workerTasks rt ws)).
  - apply workerReturns_result.
  - apply workerTasks_latched.
  - done.
  - apply workerTasks_running. by eapply lookup_lt_Some.
  - rewrite Hrun. apply not_elem_of_nil.
Qed.

Lemma Start_nil_workers rt cfg ws :
  Start rt cfg = Returns (None, ws) →
  ∀ i w, ws !! i = Some w →
    runBot (ctx rt) (workerDelay w) (cycles rt i) = Returns None.
Proof.
  intros HS i w Hi.
  apply Start_inv in HS as [(err & _ & ? & _)|(pool & d & sd & r0 & _ & _ & _ & Hr)]; [done|].
  destruct r0; [done|]. by eapply Wait_None_workers.
Qed.

Lemma Start_not_nil rt cfg ws : Start rt cfg ≠ Returns (None, ws).
Proof.
  intros HS. pose proof (Start_nil_workers rt cfg ws HS) as Hw.
  apply Start_inv in HS as [(err & _ & ? & _)|(pool & d & sd & r0 & _ & Hd & Hl & Hr)]; [done|].
  destruct r0; [done|].
  apply launch_inv in Hl as [Hlen _]; [|done]. specialize (Hlen eq_refl).
  destruct ws as [|w0 ws].
  - cbn in Hlen. destruct (Accounts cfg); [|done].
    by rewrite delays_panics in Hd by (by right).
  - by apply (runBot_not_nil _ _ _ _ (Hw 0%nat w0 eq_refl)).
Qed.

(* ===================================================================== *)
(** * binary64: rounding of a product                                     *)
(* ===================================================================== *)

Lemma digits2_size p : digits2_pos p = Pos.size p.
Proof. induction p as [p IH|p IH|]; cbn; by rewrite ?IH. Qed.

Lemma Zdigits2_log2 p : Zdigits2 (Z.pos p) = Z.log2 (Z.pos p) + 1.
Proof.
  cbn [Zdigits2]. rewrite digits2_size.
  change (Z.pos (Pos.size p)) with (Z.log2 (Z.pos p~0)).
  change (Z.pos p~0) with (2 * Z.pos p). rewrite Z.log2_double by lia. lia.
Qed.

Lemma Zdigits2_unique p k :
  0 < k → 2 ^ (k - 1) ≤ Z.pos p < 2 ^ k → Zdigits2 (Z.pos p) = k.
Proof.
  intros Hk Hp. rewrite Zdigits2_log2.
  rewrite (Z.log2_unique (Z.pos p) (k - 1)); [lia|lia|].
  replace (Z.succ (k - 1)) with k by lia. done.
Qed.

Lemma Zdigits2_bounds p :
  2 ^ (Zdigits2 (Z.pos p) - 1) ≤ Z.pos p < 2 ^ Zdigits2 (Z.pos p).
Proof.
  rewrite Zdigits2_log2. replace (Z.log2 (Z.pos p) + 1 - 1) with (Z.log2 (Z.pos p)) by lia.
  replace (Z.log2 (Z.pos p) + 1) with (Z.succ (Z.log2 (Z.pos p))) by lia.
  apply Z.log2_spec. lia.
Qed.

Lemma iter_pos_nat {A} (f : A → A) n x :
  SpecFloat.iter_pos f n x = Nat.iter (Pos.to_nat n) f x.
Proof.
  revert x. induction n as [n IH|n IH|]; intros x; cbn [SpecFloat.iter_pos].
  - rewrite !IH, Pos2Nat.inj_xI.
    replace (S (2 * Pos.to_nat n)) with (Pos.to_nat n + S (Pos.to_nat n))%nat by lia.
    by rewrite Nat.iter_add, Nat.iter_succ_r.
  - rewrite !IH, Pos2Nat.inj_xO.
    replace (2 * Pos.to_nat n)%nat with (Pos.to_nat n + Pos.to_nat n)%nat by lia.
    by rewrite Nat.iter_add.
  - done.
Qed.

Lemma pos_iter_xO p d : Z.pos (Pos.iter xO p d) = Z.pos p * 2 ^ Z.pos d.
Proof.
  induction d as [|d IH] using Pos.peano_ind.
  - cbn. lia.
  - rewrite Pos.iter_succ, Pos2Z.inj_succ, Z.pow_succ_r by lia.
    rewrite Pos2Z.inj_xO, IH. lia.
Qed.


Lemma shr_1_spec mrs :
  0 ≤ shr_m mrs →
  shr_1 mrs = {| shr_m := shr_m mrs / 2; shr_r := Z.odd (shr_m mrs);
                 shr_s := shr_r mrs || shr_s mrs |}.
Proof.
  destruct mrs as [m r s]. cbn [shr_m shr_r shr_s]. intros Hm.
  rewrite <- Z.div2_div. destruct m as [|[p|p|]|p]; try done; lia.
Qed.

Lemma iter_shr_1 m (k : nat) :
  0 ≤ m → shifted m (Z.of_nat k) (Nat.iter k shr_1 (Build_shr_record m false false)).
Proof.
  intros Hm. induction k as [|k (Hq & Hr & Hs)].
  - unfold shifted. cbn. rewrite Z.div_1_r, Z.mod_1_r. done.
  - rewrite Nat.iter_succ. set (mrs := Nat.iter k shr_1 _) in *.
    assert (0 < 2 ^ Z.of_nat k) as Hpow by (apply Z.pow_pos_nonneg; lia).
    assert (0 ≤ shr_m mrs) as Hnn by (rewrite Hq; apply Z.div_pos; lia).
    rewrite shr_1_spec by done. unfold shifted. cbn [shr_m shr_r shr_s].
    rewrite Nat2Z.inj_succ, Z.pow_succ_r by lia.
    replace (2 * 2 ^ Z.of_nat k) with (2 ^ Z.of_nat k * 2) by lia.
    rewrite <- Z.div_div, Z.rem_mul_r by lia. rewrite <- Hq.
    rewrite (Zmod_odd (shr_m mrs)).
    pose proof (Z.mod_pos_bound m (2 ^ Z.of_nat k) Hpow) as HR.
    set (R := m mod 2 ^ Z.of_nat k) in *. set (W := 2 ^ Z.of_nat k) in *.
    split; [done|]. rewrite Hs, Hr.
    destruct (Z.odd (shr_m mrs)); destruct (Z.leb_spec W (2 * R));
      repeat match goal with
             | |- context [Z.leb ?a ?b] => destruct (Z.leb_spec a b)
             | |- context [Z.eqb ?a ?b] => destruct (Z.eqb_spec a b)
             end; cbn; try done; lia.
Qed.

Lemma fexp_normal x : -1021 ≤ x → fexp 53 1024 x = x - 53.
Proof. unfold fexp, emin. lia. Qed.

Lemma shr_fexp_id p e :
  Zdigits2 (Z.pos p) = 53 → -1074 ≤ e →
  shr_fexp 53 1024 (Z.pos p) e loc_Exact = (Build_shr_record (Z.pos p) false false, e).
Proof.
  intros Hd He. unfold shr_fexp. rewrite Hd, fexp_normal by lia.
  replace (53 + e - 53 - e) with 0 by lia. done.
Qed.

Lemma shr_fexp_shift p e n :
  Zdigits2 (Z.pos p) = 53 + n → 0 < n → -1074 ≤ e + n →
  ∃ mrs, shr_fexp 53 1024 (Z.pos p) e loc_Exact = (mrs, e + n) ∧ shifted (Z.pos p) n mrs.
Proof.
  intros Hd Hn He. unfold shr_fexp. rewrite Hd, fexp_normal by lia.
  replace (53 + n + e - 53 - e) with n by lia.
  destruct n as [|pn|pn]; try lia. cbn [shr shr_record_of_loc].
  eexists. split; [done|]. rewrite iter_pos_nat.
  rewrite <- (positive_nat_Z pn). apply iter_shr_1. lia.
Qed.

Lemma round_nearest m n mrs :
  0 ≤ m → 0 < n → shifted m n mrs →
  let M := round_nearest_even (shr_m mrs) (loc_of_shr_record mrs) in
  (M = m / 2 ^ n ∨ M = m / 2 ^ n + 1)
  ∧ 2 * m - 2 ^ n ≤ 2 * (M * 2 ^ n) ≤ 2 * m + 2 ^ n.
Proof.
  intros Hm Hn (Hq & Hr & Hs) M.
  assert (0 < 2 ^ n) as Hpow by (apply Z.pow_pos_nonneg; lia).
  pose proof (Z.div_mod m (2 ^ n) ltac:(lia)) as Hdm.
  pose proof (Z.mod_pos_bound m (2 ^ n) Hpow) as HR.
  destruct mrs as [fl r s]. cbn [shr_m shr_r shr_s] in *. subst fl.
  set (fl := m / 2 ^ n) in *. set (R := m mod 2 ^ n) in *. set (W := 2 ^ n) in *.
  assert (M = fl ∨ M = fl + 1) as HM.
  { unfold M. destruct r, s; cbn; [by right| |by left|by left].
    destruct (Z.even fl); [by left|by right]. }
  split; [done|].
  unfold M in *. clear M.
  destruct r; destruct s; cbn in *;
    destruct (Z.leb_spec W (2 * R)); try done;
    destruct (Z.eqb_spec (2 * R) W); try done;
    destruct (Z.eqb_spec (2 * R) 0); try done;
    try (destruct (Z.even fl)); nia.
Qed.

Lemma binary_round_aux_exact p e :
  Zdigits2 (Z.pos p) = 53 → -1074 ≤ e ≤ 971 →
  binary_round_aux 53 1024 false (Z.pos p) e loc_Exact = S754_finite false p e.
Proof.
  intros Hd He. unfold binary_round_aux. rewrite shr_fexp_id by (done || lia).
  cbn [shr_m loc_of_shr_record round_nearest_even].
  rewrite shr_fexp_id by (done || lia). cbn [shr_m].
  destruct (Z.leb_spec e (1024 - 53)); [done|lia].
Qed.

Lemma binary_round_aux_nearest p e n :
  Zdigits2 (Z.pos p) = 53 + n → 0 < n → -1074 ≤ e + n → e + n + 1 ≤ 971 →
  ∃ M M' e',
    binary_round_aux 53 1024 false (Z.pos p) e loc_Exact = S754_finite false M' e'
    ∧ (M = Z.pos p / 2 ^ n ∨ M = Z.pos p / 2 ^ n + 1)
    ∧ 2 * Z.pos p - 2 ^ n ≤ 2 * (M * 2 ^ n) ≤ 2 * Z.pos p + 2 ^ n
    ∧ (Z.pos M' = M ∧ e' = e + n ∨ 2 * Z.pos M' = M ∧ e' = e + n + 1).
Proof.
  intros Hd Hn He1 He2. unfold binary_round_aux.
  destruct (shr_fexp_shift p e n Hd Hn He1) as (mrs & -> & Hsh).
  destruct (round_nearest (Z.pos p) n mrs ltac:(lia) Hn Hsh) as [HM Hnear].
  set (M := round_nearest_even (shr_m mrs) (loc_of_shr_record mrs)) in *.
  pose proof (Zdigits2_bounds p) as Hb. rewrite Hd in Hb.
  assert (0 < 2 ^ n) as Hpow by (apply Z.pow_pos_nonneg; lia).
  replace (53 + n - 1) with (52 + n) in Hb by lia.
  rewrite !Z.pow_add_r in Hb by lia.
  assert (2 ^ 52 ≤ Z.pos p / 2 ^ n < 2 ^ 53) as Hfl.
  { split.
    - apply Z.div_le_lower_bound; lia.
    - apply Z.div_lt_upper_bound; lia. }
  assert (2 ^ 52 ≤ M ≤ 2 ^ 53) as HMb by lia.
  destruct M as [|pM|pM] eqn:HMeq; try lia.
  exists (Z.pos pM).
  destruct (decide (Z.pos pM < 2 ^ 53)) as [Hlt|Hge].
  - rewrite shr_fexp_id; [|apply Zdigits2_unique; lia|lia]. cbn [shr_m].
    destruct (Z.leb_spec (e + n) (1024 - 53)); [|lia].
    exists pM, (e + n). split; [done|]. split; [done|]. split; [done|]. by left.
  - assert (Z.pos pM = 2 ^ 53) as HpM by lia.
    destruct (shr_fexp_shift pM (e + n) 1) as (mrs2 & -> & (Hq2 & _));
      [apply Zdigits2_unique; lia|lia|lia|].
    rewrite Hq2.
    assert (Z.pos pM / 2 ^ 1 = Z.pos (2 ^ 52)%positive) as -> by (by rewrite HpM).
    destruct (Z.leb_spec (e + n + 1) (1024 - 53)); [|lia].
    exists (2 ^ 52)%positive, (e + n + 1). split; [done|]. split; [done|]. split; [done|].
    right. split; [|done]. by rewrite HpM.
Qed.

(* ===================================================================== *)
(** * LoadBot: the pacing delay                                           *)
(* ===================================================================== *)

Lemma float64_of_int_spec q :
  0 < q < 2 ^ 53 →
  ∃ mq,
    float64_of_int q = S754_finite false mq (Zdigits2 q - 53)
    ∧ Z.pos mq = q * 2 ^ (53 - Zdigits2 q)
    ∧ 2 ^ 52 ≤ Z.pos mq < 2 ^ 53
    ∧ 1 ≤ Zdigits2 q ≤ 53.
Proof.
  intros Hq. destruct q as [|p|p]; try lia.
  pose proof (Zdigits2_bounds p) as Hb.
  assert (1 ≤ Zdigits2 (Z.pos p)) as Hd1.
  { rewrite Zdigits2_log2. pose proof (Z.log2_nonneg (Z.pos p)). lia. }
  unfold float64_of_int, binary_normalize, binary_round.
  change (Z.pos (digits2_pos p)) with (Zdigits2 (Z.pos p)).
  generalize dependent (Zdigits2 (Z.pos p)). intros d Hb Hd1.
  assert (d ≤ 53) as Hd.
  { destruct (Z.le_gt_cases d 53) as [|Hgt]; [done|].
    assert (2 ^ 53 ≤ 2 ^ (d - 1)) by (apply Z.pow_le_mono_r; lia). lia. }
  assert (2 ^ 52 ≤ Z.pos p * 2 ^ (53 - d) < 2 ^ 53) as Hm.
  { assert (0 < 2 ^ (53 - d)) by (apply Z.pow_pos_nonneg; lia).
    assert (2 ^ 52 = 2 ^ (d - 1) * 2 ^ (53 - d)) as ->.
    { rewrite <- Z.pow_add_r by lia. f_equal. lia. }
    assert (2 ^ 53 = 2 ^ d * 2 ^ (53 - d)) as ->.
    { rewrite <- Z.pow_add_r by lia. f_equal. lia. }
    split.
    - apply Z.mul_le_mono_nonneg_r; lia.
    - apply Z.mul_lt_mono_pos_r; lia. }
  rewrite Z.add_0_r, fexp_normal by lia.
  unfold shl_align. rewrite Z.sub_0_r.
  destruct (d - 53) as [|pd|pd] eqn:Hd53; try lia.
  - exists p. replace (53 - d) with 0 in * by lia. rewrite Z.mul_1_r in *.
    rewrite binary_round_aux_exact; [done| |lia].
    apply Zdigits2_unique; lia.
  - assert (53 - d = Z.pos pd) as Hpd by lia. rewrite Hpd in *.
    exists (Pos.iter xO p pd).
    rewrite binary_round_aux_exact; [|apply Zdigits2_unique; [lia|]; rewrite pos_iter_xO; lia|lia].
    rewrite pos_iter_xO. done.
Qed.

Lemma damping_core (q X a Y b M P : Z) :
  0 < q → 0 < a → 0 < Y → 16 ≤ b →
  X = q * a → P = X * 8556839292003942 → b * Y = a * 2 ^ 53 →
  Y * 2 ^ 52 ≤ P < Y * 2 ^ 53 →
  2 * P - Y ≤ 2 * (M * Y) ≤ 2 * P + Y →
  M / b = 95 * q / 100.
Proof.
  intros Hq Ha HY Hb HX HP HW HPb Hnear.
  pose proof (Z.div_mod (95 * q) 100 ltac:(lia)) as Hdm.
  pose proof (Z.mod_pos_bound (95 * q) 100 ltac:(lia)) as Hr.
  set (N0 := 95 * q / 100) in *. set (r0 := (95 * q) mod 100) in *.
  assert (r0 ≤ 95) as Hr95 by lia.
  set (W := b * Y) in *.
  assert (16 * Y ≤ W) as HW16 by (unfold W; nia).
  assert (100 * (N0 * W) + r0 * W = 95 * (q * a) * 2 ^ 53) as HT.
  { rewrite HW. replace (100 * (N0 * (a * 2 ^ 53)) + r0 * (a * 2 ^ 53))
      with ((100 * N0 + r0) * (a * 2 ^ 53)) by ring.
    rewrite <- Hdm. ring. }
  assert (0 ≤ r0 * W ≤ 95 * W) as HU by nia.
  assert (100 * P = 100 * (N0 * W) + r0 * W - 40 * X) as HE by lia.
  symmetry. apply Z.le_antisymm.
  - apply Z.div_le_lower_bound; [lia|].
    destruct (Z.le_gt_cases (b * N0) M) as [|Hlt]; [done|]. exfalso.
    assert ((M + 1) * Y ≤ N0 * W) as Hc by (unfold W; nia).
    lia.
  - apply Z.lt_succ_r, Z.div_lt_upper_bound; [lia|].
    destruct (Z.le_gt_cases (b * Z.succ N0) M) as [Hge|]; [|done]. exfalso.
    assert (N0 * W + W ≤ M * Y) as Hc by (unfold W; nia).
    lia.
Qed.

Lemma int_of_float64_finite m e :
  e < 0 → Z.pos m / 2 ^ (- e) ≤ max_int64 →
  int_of_float64 (S754_finite false m e) = Z.pos m / 2 ^ (- e).
Proof.
  intros He Hmax. unfold int_of_float64.
  destruct (Z.leb_spec 0 e); [lia|].
  assert (0 ≤ Z.pos m / 2 ^ (- e)) by (apply Z.div_pos; [lia|apply Z.pow_pos_nonneg; lia]).
  destruct (Z.leb_spec min_int64 (Z.pos m / 2 ^ (- e))); [|unfold min_int64 in *; lia].
  destruct (Z.leb_spec (Z.pos m / 2 ^ (- e)) max_int64); [done|lia].
Qed.

Lemma damped_float q :
  0 ≤ q < 2 ^ 49 →
  int_of_float64 (float64_mul (float64_of_int q) float64_0_95) = 95 * q / 100.
Proof.
  intros Hq. destruct (decide (q = 0)) as [->|Hq0]; [done|].
  destruct (float64_of_int_spec q ltac:(lia)) as (mq & -> & Hmq & Hmqb & Hdq).
  assert (Zdigits2 q ≤ 49) as Hdq49.
  { destruct q as [|p|p]; try lia. pose proof (Zdigits2_bounds p) as Hb.
    destruct (Z.le_gt_cases (Zdigits2 (Z.pos p)) 49) as [|Hgt]; [done|].
    assert (2 ^ 49 ≤ 2 ^ (Zdigits2 (Z.pos p) - 1)) by (apply Z.pow_le_mono_r; lia). lia. }
  generalize dependent (Zdigits2 q). intros dq Hmq Hdq Hdq49.
  unfold float64_mul, float64_0_95, SFmul. cbn [xorb].
  set (p := (mq * 8556839292003942)%positive).
  assert (Z.pos p = Z.pos mq * 8556839292003942) as Hp by done.
  pose proof (Zdigits2_bounds p) as Hb.
  assert (105 ≤ Zdigits2 (Z.pos p) ≤ 106) as HdP.
  { split.
    - destruct (Z.le_gt_cases 105 (Zdigits2 (Z.pos p))) as [|Hlt]; [done|].
      assert (2 ^ Zdigits2 (Z.pos p) ≤ 2 ^ 104) by (apply Z.pow_le_mono_r; lia). lia.
    - destruct (Z.le_gt_cases (Zdigits2 (Z.pos p)) 106) as [|Hgt]; [done|].
      assert (2 ^ 106 ≤ 2 ^ (Zdigits2 (Z.pos p) - 1)) by (apply Z.pow_le_mono_r; lia). lia. }
  set (n := Zdigits2 (Z.pos p) - 53).
  assert (Zdigits2 (Z.pos p) = 53 + n) as Hn by (unfold n; lia).
  rewrite Hn in Hb. assert (52 ≤ n ≤ 53) as Hnb by lia. clearbody n.
  destruct (binary_round_aux_nearest p (dq - 53 + -53) n Hn)
    as (M & M' & e' & -> & HM & Hnear & HM'); [lia|lia|lia|].
  assert (0 < 2 ^ n) as HY by (apply Z.pow_pos_nonneg; lia).
  assert (0 < 2 ^ (53 - dq)) as Ha by (apply Z.pow_pos_nonneg; lia).
  set (kb := 106 - dq - n).
  assert (16 ≤ 2 ^ kb) as Hb16.
  { change 16 with (2 ^ 4). apply Z.pow_le_mono_r; unfold kb; lia. }
  assert (M / 2 ^ kb = 95 * q / 100) as Hcore.
  { apply (damping_core q (Z.pos mq) (2 ^ (53 - dq)) (2 ^ n) (2 ^ kb) M (Z.pos p));
      try done; try lia.
    - rewrite <- !Z.pow_add_r by (unfold kb; lia). f_equal. unfold kb. lia.
    - replace (53 + n - 1) with (n + 52) in Hb by lia.
      replace (53 + n) with (n + 53) in Hb by lia.
      by rewrite !Z.pow_add_r in Hb by lia. }
  assert (95 * q / 100 ≤ max_int64) as Hmax.
  { apply Z.div_le_upper_bound; [lia|]. unfold max_int64. lia. }
  destruct HM' as [[HMeq ->]|[HMeq ->]].
  - replace (- (dq - 53 + -53 + n)) with kb by (unfold kb; lia).
    rewrite int_of_float64_finite.
    + replace (- (dq - 53 + -53 + n)) with kb by (unfold kb; lia). by rewrite HMeq.
    + unfold kb in *. lia.
    + replace (- (dq - 53 + -53 + n)) with kb by (unfold kb; lia). rewrite HMeq. lia.
  - assert (Z.pos M' / 2 ^ (kb - 1) = M / 2 ^ kb) as Hhalf.
    { rewrite <- HMeq. replace kb with (1 + (kb - 1)) at 2 by lia.
      rewrite Z.pow_add_r by (unfold kb; lia).
      rewrite <- Z.div_div by (try apply Z.pow_pos_nonneg; unfold kb; lia).
      f_equal. change (2 ^ 1) with 2. rewrite Z.mul_comm. symmetry. apply Z.div_mul. lia. }
    rewrite int_of_float64_finite.
    + replace (- (dq - 53 + -53 + n + 1)) with (kb - 1) by (unfold kb; lia).
      by rewrite Hhalf.
    + unfold kb in *. lia.
    + replace (- (dq - 53 + -53 + n + 1)) with (kb - 1) by (unfold kb; lia).
      rewrite Hhalf. lia.
Qed.

Lemma wrap64_small z : min_int64 ≤ z ≤ max_int64 → wrap64 z = z.
Proof.
  unfold wrap64, min_int64, max_int64. intros Hz.
  rewrite Z.mod_small by lia. lia.
Qed.

Lemma int_div_nonneg a b :
  0 ≤ a ≤ max_int64 → 0 < b → int_div a b = Returns (a / b).
Proof.
  intros Ha Hb. unfold int_div. destruct (Z.eqb_spec b 0) as [|_]; [lia|].
  rewrite Z.quot_div_nonneg by lia. rewrite wrap64_small; [done|].
  assert (0 ≤ a / b ≤ a); [|unfold min_int64, max_int64 in *; lia].
  split; [apply Z.div_pos; lia|]. apply Z.div_le_upper_bound; nia.
Qed.

Lemma delays_damped (A tps : Z) :
  1 ≤ A → 1 ≤ tps → A * 1000 < 2 ^ 43 →
  delays A tps = Returns (damped (A * 1000 / tps) * Millisecond,
                          damped (A * 1000 / tps) * Millisecond / A).
Proof.
  intros HA Htps Hbound. unfold delays, delayMillis.
  rewrite wrap64_small by (unfold min_int64, max_int64; lia).
  rewrite int_div_nonneg by (unfold max_int64; lia). cbn.
  assert (0 ≤ A * 1000 / tps ≤ A * 1000) as Hq.
  { split; [apply Z.div_pos; lia|]. apply Z.div_le_upper_bound; nia. }
  rewrite damped_float by lia. fold (damped (A * 1000 / tps)).
  assert (0 ≤ damped (A * 1000 / tps) ≤ A * 1000 / tps) as Hd.
  { unfold damped. split; [apply Z.div_pos; lia|]. apply Z.div_le_upper_bound; lia. }
  rewrite wrap64_small by (unfold min_int64, max_int64, Millisecond; lia).
  rewrite int_div_nonneg by (unfold max_int64, Millisecond; lia). done.
Qed.

(** The constant is the binary64 nearest to 0.95: a 53-bit significand at
    less than half a unit in the last place from 0.95. *)
Lemma float64_0_95_nearest :
  float64_0_95 = S754_finite false 8556839292003942 (-53)
  ∧ 2 ^ 52 ≤ 8556839292003942 < 2 ^ 53
  ∧ 2 * Z.abs (95 * 2 ^ 53 - 100 * 8556839292003942) < 100.
Proof. split; [done|]. split; [lia|]. vm_compute. done. Qed.

(** C3. With [A >= 1] accounts and a rate [TPS >= 1] (and [A * 1000] below
    [2^43], so that no 64-bit operation wraps), let [q] be the integer
    quotient [A * 1000 / TPS].  The per-account delay is [0.95 * q]
    milliseconds rounded down to a whole millisecond (the binary64 product
    truncates to exactly that), hence within one millisecond of [0.95 * q] and
    within two of [950 * A / TPS]; the launch stagger is the delay divided by
    [A] (integer division, in nanoseconds); every worker started by [Start] is
    given that delay.  For 10 accounts at 5 transactions per second the delay
    is 1900 ms and the stagger 190 ms. *)
Theorem Start_pacing_parameters (rt : Runtime) (cfg : LoadBotConfig) :
  let A := Z.of_nat (length (Accounts cfg)) in
  let tps := TransactionsPerSecond cfg in
  let q := A * 1000 / tps in
  1 ≤ A → 1 ≤ tps → A * 1000 < 2 ^ 43 →
  delays A tps = Returns (damped q * Millisecond, damped q * Millisecond / A)
  ∧ 100 * damped q ≤ 95 * q < 100 * (damped q + 1)
  ∧ 100 * tps * damped q ≤ 95000 * A < 100 * tps * (damped q + 2)
  ∧ (∀ r ws i w, Start rt cfg = Returns (r, ws) → ws !! i = Some w →
       workerDelay w = damped q * Millisecond)
  ∧ delays 10 5 = Returns (1900 * Millisecond, 190 * Millisecond).
Proof.
  intros A tps q HA Htps Hbound.
  pose proof (delays_damped A tps HA Htps Hbound) as Hd. fold q in Hd.
  assert (100 * damped q ≤ 95 * q < 100 * (damped q + 1)) as Hround.
  { unfold damped. pose proof (Z.div_mod (95 * q) 100 ltac:(lia)).
    pose proof (Z.mod_pos_bound (95 * q) 100 ltac:(lia)). lia. }
  assert (tps * q ≤ A * 1000 < tps * (q + 1)) as Hq.
  { unfold q. pose proof (Z.div_mod (A * 1000) tps ltac:(lia)).
    pose proof (Z.mod_pos_bound (A * 1000) tps ltac:(lia)). lia. }
  split; [done|]. split; [done|]. split; [nia|]. split.
  - intros r ws i w HS Hi.
    apply Start_inv in HS as [(err & _ & _ & ->)|(pool & d & sd & r0 & _ & Hd' & Hl & _)];
      [done|].
    fold A tps in Hd'. rewrite Hd in Hd'. injection Hd' as <- <-.
    apply launch_inv in Hl as [_ Hw]; [|done].
    by destruct (Hw i w Hi) as [?|(_ & _ & ? & _)].
  - by vm_compute.
Qed.

(* ===================================================================== *)
(** * The properties at concrete inputs                                   *)
(* ===================================================================== *)

(** Settles a decidable proposition by evaluating its decision procedure. *)
Ltac decide_true :=
  match goal with
  | |- ?P => apply (@bool_decide_unpack P _); vm_compute; exact I
  end.

Lemma Init_full_mesh_witness :
  staticNodes (Init Example.healthy Example.fresh Example.world).2 !! 2%nat
  = Some ["enode://v0"; "enode://v1"; "enode://v3"]%string
  ∧ "enode://v2"%string ∉ ["enode://v0"; "enode://v1"; "enode://v3"]%string.
Proof.
  destruct (Init_full_mesh Example.healthy Example.fresh
              (Init Example.healthy Example.fresh Example.world).1.2 Example.world
              (Init Example.healthy Example.fresh Example.world).2
              2 (Example.node 2 "v2")) as (_ & Hpeers & _ & _ & Hself).
  - left. reflexivity.
  - vm_compute. reflexivity.
  - reflexivity.
  - split; [exact Hpeers|]. apply Hself.
    decide_true.
Defined.

Lemma Init_ordered_fail_fast_witness :
  (∃ cl' w',
     Init Example.initFails Example.fresh Example.world
     = (Some (ErrorNew "geth init: exit status 1"), cl', w')
     ∧ calls w' = [CallInit 0 "genesis.json"; CallEnodeURL 0;
                   CallInit 1 "genesis.json"; CallEnodeURL 1;
                   CallInit 2 "genesis.json"]
     ∧ initialized w' = [1%nat; 0%nat]
     ∧ staticNodes w' = ∅)
  ∧ (∃ cl' w',
       Init Example.peeringFails Example.fresh Example.world
       = (Some (ErrorNew "static-nodes.json: permission denied"), cl', w')
       ∧ staticNodes w' !! 0%nat = Some ["enode://v1"; "enode://v2"; "enode://v3"]%string
       ∧ staticNodes w' !! 1%nat = None).
Proof.
  split.
  - destruct (Init_ordered_fail_fast Example.initFails Example.fresh Example.world)
      as [Hboot _]; [left; reflexivity|].
    destruct (Hboot [Example.node 0 "v0"; Example.node 1 "v1"] (Example.node 2 "v2")
                    [Example.node 3 "v3"] (ErrorNew "geth init: exit status 1"))
      as (cl' & w' & HI & Hc & _ & Hi & Hs).
    + reflexivity.
    + repeat constructor.
    + reflexivity.
    + exists cl', w'. split; [exact HI|]. split; [exact Hc|]. split; [exact Hi|exact Hs].
  - destruct (Init_ordered_fail_fast Example.peeringFails Example.fresh Example.world)
      as [_ Hpeer]; [left; reflexivity|].
    destruct (Hpeer [Example.node 0 "v0"] (Example.node 1 "v1")
                    [Example.node 2 "v2"; Example.node 3 "v3"]
                    (ErrorNew "static-nodes.json: permission denied"))
      as (cl' & w' & HI & _ & _ & Hbefore & Hfrom).
    + reflexivity.
    + repeat constructor.
    + intros [|j] n Hj; [injection Hj as <-; reflexivity|discriminate Hj].
    + reflexivity.
    + exists cl', w'. split; [exact HI|]. split.
      * exact (Hbefore 0%nat (Example.node 0 "v0") eq_refl).
      * exact (Hfrom 1%nat (le_n 1)).
Defined.

Lemma Start_pacing_parameters_witness :
  delays 3 5 = Returns (570 * Millisecond, 190 * Millisecond).
Proof.
  destruct (Start_pacing_parameters Example.runtime Example.config) as (Hd & _).
  - vm_compute. discriminate.
  - vm_compute. discriminate.
  - vm_compute. reflexivity.
  - exact Hd.
Defined.

Lemma Run_first_error_witness :
  (Run false [(1%nat, None); (2%nat, Some (ErrorNew "exit status 1"));
              (0%nat, None); (3%nat, Some Canceled)] Example.fresh).1
  = Returns (Some (ErrorNew "exit status 1")).
Proof.
  destruct (Run_first_error Example.fresh false [(1%nat, None)]
              [(0%nat, None); (3%nat, Some Canceled)] 2 (ErrorNew "exit status 1"))
    as (_ & _ & _ & _ & _ & _ & Hret).
  - repeat constructor.
  - vm_compute. lia.
  - decide_true.
  - apply Hret. intros j Hj.
    do 4 (destruct j as [|j]; [decide_true|]).
    vm_compute in Hj. lia.
Defined.

Lemma clientPool_size_witness :
  ∃ pool, clientPool Example.config = Returns (inl pool).
Proof.
  destruct (clientPool_size Example.config) as (_ & _ & Hbuilt).
  - vm_compute. discriminate.
  - apply Hbuilt. intros k _. by exists (Conn k).
Defined.

Lemma worker_client_assignment_witness :
  ∃ pool, clientPool Example.config = Returns (inl pool)
          ∧ pool !! (2 mod length pool)%nat = Some (Conn 0).
Proof.
  destruct (worker_client_assignment Example.runtime Example.config
              (Some (Errorf "Error sending transaction" Canceled))
              [mkWorker (Example.account "d0") 570000000 (Conn 0);
               mkWorker (Example.account "d1") 570000000 (Conn 1);
               mkWorker (Example.account "d2") 570000000 (Conn 0)]
              2 (mkWorker (Example.account "d2") 570000000 (Conn 0)))
    as (pool & Hp & _ & _ & Hc & _).
  - vm_compute. reflexivity.
  - reflexivity.
  - exists pool. split; [exact Hp|exact Hc].
Defined.

Lemma runCycle_pacing_witness :
  runCycle (ctx Example.runtime) 570000000 (Example.confirmed 1000000000)
  = CycleContinue (Some (370000000, 1570000000)).
Proof.
  destruct (runCycle_pacing (ctx Example.runtime) 570000000 (Example.confirmed 1000000000))
    as (_ & Hsleep & _); [reflexivity|reflexivity|].
  destruct Hsleep as (_ & _ & Htimer & _).
  - vm_compute. discriminate.
  - vm_compute. discriminate.
  - vm_compute. discriminate.
  - apply Htimer. right. exists 2000000000. split; [reflexivity|]. vm_compute. reflexivity.
Defined.

Lemma node_list_built_once_witness :
  nodes (steps Example.healthy (Example.fresh, Example.world)
           [OpInit; OpSetEnv (env.mkEnvironment [] [] Example.datadir "genesis.json" 1101);
            OpPrintNodeInfo]).1
  = Some (buildNodes Example.environment "geth").
Proof.
  destruct (node_list_built_once Example.healthy Example.environment "geth" Example.world []
              [OpSetEnv (env.mkEnvironment [] [] Example.datadir "genesis.json" 1101);
               OpPrintNodeInfo] OpInit) as (_ & _ & Hsame).
  - constructor.
  - reflexivity.
  - exact (proj1 (Hsame 2%nat)).
Defined.

Lemma Start_panics_witness :
  Start Example.runtime Example.zeroRate = Panics IntegerDivideByZero
  ∧ Start Example.runtime Example.zeroRateNoDial
    = Returns (Some (ErrorNew "dial tcp 127.0.0.1:8545: connection refused"), []).
Proof.
  destruct (Start_panics Example.zeroRate) as [Hbuilt _].
  destruct (Hbuilt [Conn 0; Conn 1]) as ((_ & Hrate) & _); [vm_compute; reflexivity| |].
  - reflexivity.
  - split; [apply Hrate|].
    destruct (Start_panics Example.zeroRateNoDial) as [_ Hfails].
    apply Hfails. vm_compute. reflexivity.
Defined.

(** With a rate of zero and a client factory that fails, [Start] returns the
    error of the factory: it does not panic. *)
Lemma Start_zero_rate_returns :
  TransactionsPerSecond Example.zeroRateNoDial = 0
  ∧ Start Example.runtime Example.zeroRateNoDial
    = Returns (Some (ErrorNew "dial tcp 127.0.0.1:8545: connection refused"), [])
  ∧ Start Example.runtime Example.zeroRateNoDial ≠ Panics IntegerDivideByZero.
Proof. split; [reflexivity|]. split; [by vm_compute|]. by vm_compute. Qed.

(* ===================================================================== *)
(** * Cluster.PrintNodeInfo                                               *)
(* ===================================================================== *)

Section PrintLoop.
Context (P : Procs).

Lemma enodeResult_calls w n cs :
  enodeResult P {| initialized := initialized w; staticNodes := staticNodes w;
                   calls := cs |} n = enodeResult P w n.
Proof. done. Qed.

Lemma print_one n i w rest url :
  enodeResult P w n = inl url →
  printLoop P i (n :: rest) w
  = printLoop P (S i) rest
      {| initialized := initialized w; staticNodes := staticNodes w;
         calls := calls w ++ [CallEnodeURL (Number (Config n)); Printed i url] |}.
Proof.
  unfold enodeResult. intros Hr. cbn [printLoop].
  unfold bind at 1, node_EnodeURL. cbn [logCall initialized].
  destruct (bool_decide _); [|done]. rewrite Hr.
  unfold bind at 1, printf, logCall. cbn. by rewrite <- (assoc_L (++)).
Qed.

Lemma print_fails n i w rest e :
  enodeResult P w n = inr e →
  printLoop P i (n :: rest) w
  = (inr e, logCall (CallEnodeURL (Number (Config n))) w).
Proof.
  unfold enodeResult. intros Hr. cbn [printLoop].
  unfold bind at 1, node_EnodeURL. cbn [logCall initialized].
  destruct (bool_decide _); [by rewrite Hr|]. by simplify_eq.
Qed.

Lemma printLoop_all ns : ∀ i w,
  Forall (λ n, answers P w n = true) ns →
  printLoop P i ns w
  = (inl (), {| initialized := initialized w; staticNodes := staticNodes w;
                calls := calls w ++ infoCalls (urlIn P w) i ns |}).
Proof.
  induction ns as [|n rest IH]; intros i w Hall.
  - cbn. rewrite app_nil_r. by destruct w.
  - inversion_clear Hall as [|? ? Hn Hrest].
    destruct (enodeResult P w n) as [url|e] eqn:Hr; [|by unfold answers in Hn; rewrite Hr in Hn].
    rewrite (print_one _ _ _ _ url Hr), IH by done. cbn.
    unfold urlIn at 2. rewrite Hr. by rewrite <- (assoc_L (++)).
Qed.

Lemma printLoop_fails pre nk post e : ∀ i w,
  Forall (λ n, answers P w n = true) pre →
  enodeResult P w nk = inr e →
  printLoop P i (pre ++ nk :: post) w
  = (inr e, {| initialized := initialized w; staticNodes := staticNodes w;
               calls := calls w ++ infoCalls (urlIn P w) i pre
                        ++ [CallEnodeURL (Number (Config nk))] |}).
Proof.
  induction pre as [|n rest IH]; intros i w Hall Hk.
  - cbn [app]. by rewrite (print_fails _ _ _ _ e Hk).
  - inversion_clear Hall as [|? ? Hn Hrest].
    destruct (enodeResult P w n) as [url|e'] eqn:Hr; [|by unfold answers in Hn; rewrite Hr in Hn].
    cbn [app]. rewrite (print_one _ _ _ _ url Hr), IH by done. cbn.
    unfold urlIn at 2. rewrite Hr. by rewrite <- !(assoc_L (++)).
Qed.

Lemma PrintNodeInfo_unfold cl w :
  PrintNodeInfo P cl w =
  match printLoop P 0 (nodesOf cl) w with
  | (inr e, w) => (Some e, (ensureNodes cl).2, w)
  | (inl _, w) => (None, (ensureNodes cl).2, w)
  end.
Proof. unfold PrintNodeInfo, nodesOf. by destruct (ensureNodes cl). Qed.

Lemma infoCalls_read_only url ns : ∀ i c,
  c ∈ infoCalls url i ns → isReadOnly c = true.
Proof.
  induction ns as [|n rest IH]; intros i c Hc; [by apply elem_of_nil in Hc|].
  cbn in Hc. apply elem_of_cons in Hc as [->|Hc]; [done|].
  apply elem_of_cons in Hc as [->|Hc]; [done|]. by eapply IH.
Qed.

(** Either every node answers, or there is a first one that does not. *)
Lemma first_failure w ns :
  Forall (λ n, answers P w n = true) ns
  ∨ ∃ pre nk post e, ns = pre ++ nk :: post
      ∧ Forall (λ n, answers P w n = true) pre
      ∧ enodeResult P w nk = inr e.
Proof.
  induction ns as [|n rest IH]; [by left|].
  destruct (enodeResult P w n) as [url|e] eqn:Hr.
  - destruct IH as [Hall|(pre & nk & post & e & -> & Hpre & Hk)].
    + left. constructor; [by unfold answers; rewrite Hr|done].
    + right. exists (n :: pre), nk, post, e. split; [done|]. split; [|done].
      constructor; [by unfold answers; rewrite Hr|done].
  - right. by exists [], n, rest, e.
Qed.

End PrintLoop.

(** X1. [PrintNodeInfo] only reads: whatever the node processes answer, it
    leaves the set of initialised data directories and every stored peer list
    as they were, keeps the calls already logged, and adds only identifier
    lookups and printed lines. *)
Theorem PrintNodeInfo_read_only (P : Procs) (cl : Cluster) (w : World) :
  let w' := (PrintNodeInfo P cl w).2 in
  initialized w' = initialized w
  ∧ staticNodes w' = staticNodes w
  ∧ ∃ new, calls w' = calls w ++ new ∧ ∀ c, c ∈ new → isReadOnly c = true.
Proof.
  rewrite PrintNodeInfo_unfold.
  destruct (first_failure P w (nodesOf cl)) as [Hall|(pre & nk & post & e & -> & Hpre & Hk)].
  - rewrite printLoop_all by done. cbn. split; [done|]. split; [done|].
    eexists. split; [done|]. apply infoCalls_read_only.
  - rewrite (printLoop_fails P pre nk post e) by done. cbn. split; [done|]. split; [done|].
    eexists. split; [done|].
    intros c [Hc|Hc]%elem_of_app; [by eapply infoCalls_read_only|].
    by apply list_elem_of_singleton in Hc as ->.
Qed.

(** X2. [PrintNodeInfo] walks the nodes in index order.  If every node
    answers its identifier, it returns [nil] after one lookup and one printed
    line [(i, identifier)] per node.  If the lookup of the node at index [k] is
    the first to fail with [e] (the node is not initialised, or its process
    fails), it returns [e] after the lines of the nodes before [k] and that
    lookup: nothing is printed for node [k] and no later node is asked. *)
Theorem PrintNodeInfo_stops_at_first_failure (P : Procs) (cl : Cluster) (w : World) :
  (Forall (λ n, answers P w n = true) (nodesOf cl) →
     ∃ cl' w', PrintNodeInfo P cl w = (None, cl', w')
       ∧ calls w' = calls w ++ infoCalls (urlIn P w) 0 (nodesOf cl))
  ∧ (∀ pre nk post e,
       nodesOf cl = pre ++ nk :: post →
       Forall (λ n, answers P w n = true) pre →
       enodeResult P w nk = inr e →
       ∃ cl' w', PrintNodeInfo P cl w = (Some e, cl', w')
         ∧ calls w' = calls w ++ infoCalls (urlIn P w) 0 pre
                      ++ [CallEnodeURL (Number (Config nk))]).
Proof.
  split.
  - intros Hall. rewrite PrintNodeInfo_unfold, printLoop_all by done. by eexists _, _.
  - intros pre nk post e Hns Hpre Hk.
    rewrite PrintNodeInfo_unfold, Hns, (printLoop_fails P pre nk post e) by done.
    by eexists _, _.
Qed.

Lemma peerCalls_length ids ns : ∀ i, length (peerCalls ids i ns) = length ns.
Proof. induction ns as [|n rest IH]; intros i; [done|]. cbn. by rewrite IH. Qed.

Lemma bootCalls_length g (ns : list Node) :
  length (flat_map (bootCalls g) ns) = (2 * length ns)%nat.
Proof. induction ns as [|n rest IH]; [done|]. cbn. rewrite IH. lia. Qed.

(** X3. [Init] returns [nil] exactly when every node boots (its [geth init]
    and its identifier lookup succeed) and every node accepts its peer list.
    It has then made three calls per node and no other: the two bootstrap calls
    of each node in index order, followed by one push per node in index order;
    with no validator it makes no call at all. *)
Theorem Init_succeeds_iff (P : Procs) (cl : Cluster) (w : World) :
  let g := env.GenesisPath (env cl) in
  let ns := nodesOf cl in
  let ids := enodeOf P <$> ns in
  ((Init P cl w).1.1 = None ↔
     Forall (λ n, bootError P g n = None) ns
     ∧ ∀ j n, ns !! j = Some n → peerError P ids j n = None)
  ∧ ((Init P cl w).1.1 = None →
       calls (Init P cl w).2 = calls w ++ flat_map (bootCalls g) ns ++ peerCalls ids 0 ns
       ∧ length (calls (Init P cl w).2) = (length (calls w) + 3 * length ns)%nat).
Proof.
  intros g ns ids.
  assert ((Init P cl w).1.1 = None →
          Forall (λ n, bootError P g n = None) ns
          ∧ (∀ j n, ns !! j = Some n → peerError P ids j n = None)
          ∧ (Init P cl w).2 = peeredAll ids 0 ns (foldl (booted g) w ns)) as Hinv.
  { destruct (Init P cl w) as [[r cl'] w'] eqn:HI. cbn. intros ->.
    by apply Init_success_inv in HI. }
  split; [split|].
  - intros H. destruct (Hinv H) as (? & ? & _). done.
  - intros [Hboot Hpeer]. rewrite Init_peer_stage by done.
    fold g ns ids. by rewrite connectLoop_peers.
  - intros H. destruct (Hinv H) as (_ & _ & ->).
    rewrite peeredAll_calls, booted_calls. split; [by rewrite <- (assoc_L (++))|].
    rewrite !length_app, peerCalls_length, bootCalls_length. lia.
Qed.

Lemma booted_answers (P : Procs) g ns w n :
  Forall (λ n, bootError P g n = None) ns → n ∈ ns →
  enodeResult P (foldl (booted g) w ns) n = inl (enodeOf P n).
Proof.
  intros Hboot Hn. unfold enodeResult. rewrite booted_initialized.
  rewrite bool_decide_eq_true_2.
  - eapply bootError_None, (proj1 (Forall_forall _ _) Hboot n Hn).
  - apply elem_of_app. left. rewrite list_elem_of_In, <- in_rev, <- list_elem_of_In.
    apply list_elem_of_fmap. by exists n.
Qed.

(** After [Init] succeeded every node is initialised: an identifier lookup
    reaches the node process, whatever that process is by then. *)
Lemma Init_initialised (P P' : Procs) (cl cl' : Cluster) (w w' : World) (n : Node) :
  Init P cl w = (None, cl', w') → n ∈ nodesOf cl →
  enodeResult P' w' n = procEnodeURL P' n.
Proof.
  intros HI Hn. apply Init_success_inv in HI as (_ & _ & ->).
  unfold enodeResult. rewrite peeredAll_initialized, booted_initialized.
  rewrite bool_decide_eq_true_2; [done|].
  apply elem_of_app. left. rewrite list_elem_of_In, <- in_rev, <- list_elem_of_In.
  apply list_elem_of_fmap. by exists n.
Qed.

Lemma infoCalls_ext (url url' : Node → string) ns : ∀ i,
  (∀ n, n ∈ ns → url n = url' n) → infoCalls url i ns = infoCalls url' i ns.
Proof.
  induction ns as [|n rest IH]; intros i Hall; [done|].
  cbn. rewrite Hall by left. do 2 f_equal. apply IH. intros m Hm. apply Hall. by right.
Qed.

(** X4. After a successful [Init] every node is initialised, so a later
    [PrintNodeInfo] on the cluster [Init] left depends only on what the node
    processes answer by then ([P'], which need not be what they answered
    during [Init]): it returns [nil] exactly when every node answers its
    identifier lookup.  If every node still answers as it did during [Init],
    the line printed for the node at index [i] carries the identifier [Init]
    collected for that node, and the stored peer lists stay as [Init] left
    them. *)
Theorem Init_then_PrintNodeInfo (P P' : Procs) (cl cl' : Cluster) (w w' : World) :
  Init P cl w = (None, cl', w') →
  ((PrintNodeInfo P' cl' w').1.1 = None ↔
     Forall (λ n, ∃ url, procEnodeURL P' n = inl url) (nodesOf cl))
  ∧ ((∀ n, n ∈ nodesOf cl → procEnodeURL P' n = procEnodeURL P n) →
     ∃ w'', PrintNodeInfo P' cl' w' = (None, cl', w'')
       ∧ calls w'' = calls w' ++ infoCalls (enodeOf P) 0 (nodesOf cl)
       ∧ staticNodes w'' = staticNodes w').
Proof.
  intros HI. pose proof (Init_cluster P cl w) as Hcl. rewrite HI in Hcl. cbn in Hcl.
  pose proof (λ n, Init_initialised P P' cl cl' w w' n HI) as Hres.
  apply Init_success_inv in HI as (Hboot & _ & _).
  assert (nodesOf cl' = nodesOf cl) as Hns.
  { rewrite Hcl. unfold nodesOf at 1. by rewrite (ensureNodes_idem _ _ (ensureNodes_nodes cl)). }
  assert (ensureNodes cl' = (nodesOf cl, cl')) as Hens.
  { rewrite Hcl at 1 2. by rewrite (ensureNodes_idem _ _ (ensureNodes_nodes cl)). }
  assert (Forall (λ n, ∃ url, procEnodeURL P' n = inl url) (nodesOf cl) →
          Forall (λ n, answers P' w' n = true) (nodesOf cl)) as Hans.
  { intros Hall. apply Forall_forall. intros n Hn.
    destruct (proj1 (Forall_forall _ _) Hall n Hn) as [url Hurl].
    unfold answers. by rewrite Hres, Hurl. }
  rewrite PrintNodeInfo_unfold, Hns, Hens. cbn [snd].
  split; [split|].
  - intros Hnil.
    destruct (first_failure P' w' (nodesOf cl))
      as [Hall|(pre & nk & post & e & Hsplit & Hpre & Hk)].
    + apply Forall_forall. intros n Hn.
      pose proof (proj1 (Forall_forall _ _) Hall n Hn) as Ha.
      unfold answers in Ha. rewrite Hres in Ha by done.
      destruct (procEnodeURL P' n) as [url|]; [by exists url|done].
    + rewrite Hsplit in Hnil. by rewrite (printLoop_fails P' pre nk post e) in Hnil.
  - intros Hall. by rewrite printLoop_all by auto.
  - intros Hsame.
    assert (Forall (λ n, ∃ url, procEnodeURL P' n = inl url) (nodesOf cl)) as Hall.
    { apply Forall_forall. intros n Hn. rewrite (Hsame n Hn).
      pose proof (bootError_None _ _ _ (proj1 (Forall_forall _ _) Hboot n Hn)) as Hb.
      eauto. }
    rewrite printLoop_all by auto.
    eexists. split; [done|]. cbn. split; [|done]. f_equal.
    apply infoCalls_ext. intros n Hn. unfold urlIn, enodeOf.
    by rewrite Hres, (Hsame n Hn).
Qed.

(* ===================================================================== *)
(** * Cluster.Run: when it returns, and when it returns nil               *)
(* ===================================================================== *)

Lemma Run_tasks_counted parentDone cs ns :
  counted (errgroup.completeAll (runTasks parentDone ns) cs).
Proof. apply completeAll_counted, spawn_seq_counted. Qed.

Lemma completeAll_idle cs : ∀ t, errgroup.running t = [] → errgroup.completeAll t cs = t.
Proof.
  induction cs as [|c cs IH]; intros t Ht; [done|].
  rewrite completeAll_cons. unfold errgroup.complete. rewrite Ht.
  rewrite bool_decide_eq_false_2 by apply not_elem_of_nil. by apply IH.
Qed.

(** X5. [Run] returns exactly when every node of the cluster has returned:
    while the [Run] of some node has not returned, [Wait] blocks; and [Run]
    never panics.  With no validator it returns [nil] at once. *)
Theorem Run_returns_iff (cl : Cluster) (parentDone : bool) (cs : list (nat * error)) :
  ((∃ r, (Run parentDone cs cl).1 = Returns r) ↔
     ∀ j, (j < length (nodesOf cl))%nat → j ∈ cs.*1)
  ∧ ((Run parentDone cs cl).1 = Blocks ↔
       ∃ j, (j < length (nodesOf cl))%nat ∧ j ∉ cs.*1)
  ∧ (∀ p, (Run parentDone cs cl).1 ≠ Panics p)
  ∧ (nodesOf cl = [] → (Run parentDone cs cl).1 = Returns None).
Proof.
  rewrite Run_unfold. cbn [fst].
  set (t := errgroup.completeAll (runTasks parentDone (nodesOf cl)) cs).
  pose proof (Run_tasks_counted parentDone cs (nodesOf cl)) as [Hwg Hnd]. fold t in Hwg, Hnd.
  assert (∀ j, j ∈ errgroup.running t ↔ (j < length (nodesOf cl))%nat ∧ j ∉ cs.*1) as Hrun.
  { intros j. unfold t. by rewrite completeAll_running, runTasks_running. }
  unfold errgroup.Wait. rewrite Hwg.
  destruct (errgroup.running t) as [|k l] eqn:Hl; cbn [length].
  - split; [|split; [|split]]; try done.
    + split; [|eauto]. intros _ j Hj.
      destruct (decide (j ∈ cs.*1)) as [|Hn]; [done|].
      exfalso. apply (not_elem_of_nil j). by apply Hrun.
    + split; [done|]. intros (j & Hj & Hn). exfalso.
      apply (not_elem_of_nil j). by apply Hrun.
    + intros Hns. f_equal. unfold t. rewrite Hns. by rewrite completeAll_idle.
  - assert (k ∈ k :: l) as Hk by left.
    apply Hrun in Hk as [Hk Hn].
    split; [|split; [|split]]; try done.
    + split; [by intros [r ?]|]. intros Hall. by destruct (Hn (Hall k Hk)).
    + split; [|done]. intros _. by exists k.
    + intros Hns. rewrite Hns in Hk. cbn in Hk. lia.
Qed.

Lemma Run_returns_all (cl : Cluster) (parentDone : bool) (cs : list (nat * error)) :
  (∃ r, (Run parentDone cs cl).1 = Returns r) ↔
  ∀ j, (j < length (nodesOf cl))%nat → j ∈ cs.*1.
Proof.
  rewrite Run_unfold. cbn [fst].
  set (t := errgroup.completeAll (runTasks parentDone (nodesOf cl)) cs).
  pose proof (Run_tasks_counted parentDone cs (nodesOf cl)) as [Hwg _]. fold t in Hwg.
  assert (∀ j, j ∈ errgroup.running t ↔ (j < length (nodesOf cl))%nat ∧ j ∉ cs.*1) as Hrun.
  { intros j. unfold t. by rewrite completeAll_running, runTasks_running. }
  unfold errgroup.Wait. rewrite Hwg.
  destruct (errgroup.running t) as [|k l] eqn:Hl; cbn [length].
  - split; [|eauto]. intros _ j Hj.
    destruct (decide (j ∈ cs.*1)) as [|Hn]; [done|].
    exfalso. apply (not_elem_of_nil j). by apply Hrun.
  - assert (k ∈ k :: l) as Hk by left.
    apply Hrun in Hk as [Hk Hn].
    split; [by intros [r ?]|]. intros Hall. by destruct (Hn (Hall k Hk)).
Qed.

Section NilReturns.
Import errgroup.

Lemma gerr_None_iff cs : ∀ t,
  NoDup cs.*1 → latched t →
  (gerr (group (completeAll t cs)) = None ↔
     gerr (group t) = None ∧ ∀ j r, (j, r) ∈ cs → j ∈ running t → r = None).
Proof.
  induction cs as [|[j0 r0] cs IH]; intros t Hnd Hl.
  - cbn. split; [|by intros []]. intros H. split; [done|].
    intros j r Hc. by apply elem_of_nil in Hc.
  - rewrite fmap_cons in Hnd. apply NoDup_cons in Hnd as [Hj0 Hnd]. cbn in Hj0.
    rewrite completeAll_cons, (IH _ Hnd (complete_latched t _ Hl)).
    assert (gerr (group (complete t (j0, r0))) = None ↔
            gerr (group t) = None ∧ (j0 ∈ running t → r0 = None)) as Hstep.
    { unfold complete. cbn. case_bool_decide as Hin; cbn.
      - destruct r0 as [e|]; cbn.
        + destruct (errOnce (group t)) eqn:Ho; cbn.
          * split; [intros H; by destruct (Hl Ho)|]. intros [_ H]. by specialize (H Hin).
          * split; [done|]. intros [_ H]. by specialize (H Hin).
        + tauto.
      - tauto. }
    rewrite Hstep. split.
    + intros [[Hg H0] Hrest]. split; [done|]. intros j r Hc Hj.
      apply elem_of_cons in Hc as [[= -> ->]|Hc]; [by apply H0|].
      apply (Hrest j r Hc). rewrite complete_running. split; [done|]. cbn.
      intros ->. apply Hj0. apply list_elem_of_fmap. by exists (j0, r).
    + intros [Hg Hall]. split; [split; [done|]|].
      * intros Hin. apply (Hall j0 r0); [left|done].
      * intros j r Hc Hj. apply complete_running in Hj as [Hj _].
        apply (Hall j r); [by right|done].
Qed.

End NilReturns.

(** X6. When every node returns once, [Run] returns [nil] exactly when every
    node of the cluster has returned and each of them returned [nil]: one node
    returning an error is enough for [Run] to return an error. *)
Theorem Run_nil_iff (cl : Cluster) (parentDone : bool) (cs : list (nat * error)) :
  NoDup cs.*1 →
  ((Run parentDone cs cl).1 = Returns None ↔
     (∀ j, (j < length (nodesOf cl))%nat → j ∈ cs.*1)
     ∧ ∀ j r, (j, r) ∈ cs → (j < length (nodesOf cl))%nat → r = None).
Proof.
  intros Hnd.
  assert (latched (runTasks parentDone (nodesOf cl))) as Hl.
  { unfold latched, runTasks. by rewrite spawn_seq. }
  destruct (runTasks_group parentDone (nodesOf cl)) as (_ & _ & He).
  pose proof (gerr_None_iff cs _ Hnd Hl) as Hiff. rewrite He in Hiff.
  pose proof (Run_returns_all cl parentDone cs) as Hret.
  split.
  - intros HR. split; [apply Hret; eauto|].
    rewrite Run_unfold in HR. cbn in HR. apply Wait_returns in HR. symmetry in HR.
    apply Hiff in HR as [_ Hall]. intros j r Hc Hj. apply (Hall j r Hc).
    by apply runTasks_running.
  - intros [Hall Hnil]. apply Hret in Hall as [r Hr]. rewrite Hr. f_equal.
    rewrite Run_unfold in Hr. cbn in Hr. apply Wait_returns in Hr. rewrite Hr.
    apply Hiff. split; [done|]. intros j r' Hc Hj. apply (Hnil j r' Hc).
    by apply runTasks_running in Hj.
Qed.

(* ===================================================================== *)
(** * toSerializedBlsPublicKey                                            *)
(* ===================================================================== *)

Lemma copy_into {A} (bs : list A) : ∀ (pre key : list A),
  length key = (length pre + length bs)%nat →
  foldl (λ key ib, <[ib.1 := ib.2]> key) key (imap (λ i b, (length pre + i, b)%nat) bs)
  = take (length pre) key ++ bs.
Proof.
  induction bs as [|b bs IH]; intros pre key Hlen.
  - cbn in *. rewrite app_nil_r, take_ge; [done|lia].
  - cbn [imap foldl]. cbn [fst snd].
    assert (imap ((λ i b0, (length pre + i, b0)%nat) ∘ S) bs
            = imap (λ i b0, (length (pre ++ [b]) + i, b0)%nat) bs) as ->.
    { apply imap_ext. intros i x _. cbn. rewrite length_app. cbn. f_equal. lia. }
    rewrite IH by (rewrite length_insert, length_app; cbn in *; lia).
    rewrite length_app. cbn [length]. rewrite Nat.add_0_r.
    replace (length pre + 1)%nat with (S (length pre)) by lia.
    rewrite (take_S_r _ _ b).
    + rewrite take_insert_ge by lia. by rewrite <- (assoc_L (++)).
    + apply list_lookup_insert_eq. cbn in Hlen. lia.
Qed.

(** X7. [toSerializedBlsPublicKey] ends the process unless the slice has
    exactly the length of the key array; for a slice of that length it returns
    an array holding the bytes of the slice, in order and unchanged. *)
Theorem toSerializedBlsPublicKey_copies (PUBLICKEYBYTES : nat) (bs : list Byte.byte) :
  (length bs = PUBLICKEYBYTES → toSerializedBlsPublicKey PUBLICKEYBYTES bs = Continues bs)
  ∧ (length bs ≠ PUBLICKEYBYTES →
     toSerializedBlsPublicKey PUBLICKEYBYTES bs = Fatal "Invalid bls key size").
Proof.
  unfold toSerializedBlsPublicKey. split; intros Hlen.
  - rewrite bool_decide_eq_false_2 by (intros H; by apply H). f_equal.
    refine (copy_into bs [] (replicate PUBLICKEYBYTES Byte.x00) _).
    by rewrite length_replicate.
  - by rewrite bool_decide_eq_true_2.
Qed.

(* ===================================================================== *)
(** * LoadBot: recipients, waits, launch                                  *)
(* ===================================================================== *)

(** X8. [nextTransfer] always pays the configured amount to the address of
    one of the configured accounts, whatever the generator draws; every
    account can be drawn, the sender's own included; with no account it
    panics in [rand.Intn]. *)
Theorem nextTransfer_picks_account (cfg : LoadBotConfig) :
  (Accounts cfg = [] → ∀ raw, nextTransfer cfg raw = Raise "invalid argument to Intn")
  ∧ (Accounts cfg ≠ [] → ∀ raw, ∃ acc,
       acc ∈ Accounts cfg ∧ nextTransfer cfg raw = Ok (env.Address acc, Amount cfg))
  ∧ (∀ i acc, Accounts cfg !! i = Some acc →
       nextTransfer cfg i = Ok (env.Address acc, Amount cfg)).
Proof.
  unfold nextTransfer, Intn. split; [|split].
  - by intros ->.
  - intros Hne raw. destruct (Z.leb_spec (Z.of_nat (length (Accounts cfg))) 0) as [H0|Hpos].
    { destruct (Accounts cfg); [done|cbn in H0; lia]. }
    destruct (lookup_lt_is_Some_2 (Accounts cfg)
                (Z.to_nat (Z.of_nat raw mod Z.of_nat (length (Accounts cfg))))) as [acc Hacc].
    { pose proof (Z.mod_pos_bound (Z.of_nat raw) _ Hpos). lia. }
    exists acc. rewrite Hacc. split; [|done]. by eapply list_elem_of_lookup_2.
  - intros i acc Hi. pose proof (lookup_lt_Some _ _ _ Hi) as Hlt.
    destruct (Z.leb_spec (Z.of_nat (length (Accounts cfg))) 0) as [H0|Hpos]; [lia|].
    rewrite Z.mod_small by lia. by rewrite Nat2Z.id, Hi.
Qed.

(** X9. [waitFor] never returns before it was entered nor later than the
    requested wait after it (at once when the wait is not positive).  It
    returns [nil] only when the whole wait has elapsed, and an error only when
    the context is done by then, the error being [ctx.Err()]; with a context
    that is never done it always returns [nil]. *)
Theorem waitFor_bounds (ctx : Context) (tie : SelectCase) (now waitTime : Z) :
  let r := (waitFor ctx tie now waitTime).1 in
  let t := (waitFor ctx tie now waitTime).2 in
  now ≤ t ≤ now + Z.max 0 waitTime
  ∧ (r = None → t = now + Z.max 0 waitTime)
  ∧ (∀ e, r = Some e → e = ctxErr ctx ∧ ∃ T, doneAt ctx = Some T ∧ T ≤ t)
  ∧ (doneAt ctx = None → r = None)
  ∧ (∀ T, doneAt ctx = Some T → T ≤ now → 0 < waitTime → r = Some (ctxErr ctx) ∧ t = now).
Proof.
  unfold waitFor. destruct (doneAt ctx) as [T|]; [|cbn; repeat split; (done || lia)].
  assert (∀ a b : Z, (a <? b) = true → a < b) as Hlt by (intros; lia).
  assert (∀ a b : Z, (a <? b) = false → b ≤ a) as Hge by (intros; lia).
  destruct (Z.max now T <? now + Z.max 0 waitTime) eqn:H1;
    [apply Hlt in H1|apply Hge in H1;
     destruct (now + Z.max 0 waitTime <? Z.max now T) eqn:H2;
       [apply Hlt in H2|apply Hge in H2; destruct tie]]; cbn.
  all: split; [lia|].
  all: split; [first [done|intros _; lia]|].
  all: split; [intros e He; first [done|injection He as <-; split; [done|];
                                          exists T; split; [done|lia]]|].
  all: split; [done|].
  all: intros T' HT' HT Hw; injection HT' as <-; first [lia|split; [done|lia]].
Qed.

Section LaunchPrefix.
Context (rt : Runtime) (pool : list Client) (delay startDelay : Z).

Lemma workersFrom_accounts accs : ∀ i,
  length pool ≠ 0%nat →
  workerAccount <$> workersFrom pool delay i accs = accs
  ∧ length (workersFrom pool delay i accs) = length accs.
Proof.
  induction accs as [|acc rest IH]; intros i Hne; [done|]. cbn.
  destruct (lookup_lt_is_Some_2 pool (i mod length pool)%nat) as [client ->].
  { by apply Nat.mod_upper_bound. }
  cbn. destruct (IH (S i) Hne) as [-> ->]. done.
Qed.

Lemma launch_step acc rest started i client :
  pool !! (i mod length pool)%nat = Some client →
  launch rt pool (Z.of_nat (length pool)) delay startDelay i (acc :: rest) started
  = match launchWait rt startDelay i with
    | Some err => Returns (Some err, started)
    | None => launch rt pool (Z.of_nat (length pool)) delay startDelay (S i) rest
                     (started ++ [mkWorker acc delay client])
    end.
Proof.
  intros Hc. pose proof (lookup_lt_Some _ _ _ Hc) as Hlt.
  cbn [launch]. rewrite int_rem_nat by lia. cbn. rewrite index_nat, Hc. cbn.
  unfold launchWait. by destruct (waitFor _ _ _ _) as [[err|] t].
Qed.

Lemma launch_all accs : ∀ i started,
  length pool ≠ 0%nat →
  (∀ j, (j < length accs)%nat → launchWait rt startDelay (i + j) = None) →
  launch rt pool (Z.of_nat (length pool)) delay startDelay i accs started
  = Returns (None, started ++ workersFrom pool delay i accs).
Proof.
  induction accs as [|acc rest IH]; intros i started Hne Hw.
  - cbn. by rewrite app_nil_r.
  - destruct (lookup_lt_is_Some_2 pool (i mod length pool)%nat) as [client Hc].
    { by apply Nat.mod_upper_bound. }
    rewrite (launch_step _ _ _ _ client Hc).
    specialize (Hw 0%nat) as H0. rewrite Nat.add_0_r in H0. rewrite H0 by (cbn; lia).
    rewrite IH; [|done|].
    + cbn [workersFrom]. rewrite Hc. by rewrite <- (assoc_L (++)).
    + intros j Hj. replace (S i + j)%nat with (i + S j)%nat by lia. apply Hw. cbn. lia.
Qed.

Lemma launch_interrupted accs : ∀ i started k e,
  length pool ≠ 0%nat →
  (k < length accs)%nat →
  (∀ j, (j < k)%nat → launchWait rt startDelay (i + j) = None) →
  launchWait rt startDelay (i + k) = Some e →
  launch rt pool (Z.of_nat (length pool)) delay startDelay i accs started
  = Returns (Some e, started ++ workersFrom pool delay i (take k accs)).
Proof.
  induction accs as [|acc rest IH]; intros i started k e Hne Hk Hw He; [cbn in Hk; lia|].
  destruct (lookup_lt_is_Some_2 pool (i mod length pool)%nat) as [client Hc].
  { by apply Nat.mod_upper_bound. }
  rewrite (launch_step _ _ _ _ client Hc). destruct k as [|k].
  - rewrite Nat.add_0_r in He. rewrite He. cbn. by rewrite app_nil_r.
  - specialize (Hw 0%nat) as H0. rewrite Nat.add_0_r in H0. rewrite H0 by lia.
    rewrite (IH (S i) _ k e); [|done|cbn in Hk; lia| |].
    + cbn [take workersFrom]. rewrite Hc. by rewrite <- (assoc_L (++)).
    + intros j Hj. replace (S i + j)%nat with (i + S j)%nat by lia. apply Hw. lia.
    + by replace (S i + k)%nat with (i + S k)%nat by lia.
Qed.

End LaunchPrefix.

Lemma launchWait_err rt sd i e : launchWait rt sd i = Some e → e = ctxErr (ctx rt).
Proof.
  unfold launchWait. destruct (waitFor _ _ _ _) as [r t] eqn:Hw. cbn. intros ->.
  by eapply waitFor_err.
Qed.

(** X10. The launch loop of [Start] is fail-fast.  If the launch waits before
    index [k] elapse and the wait at index [k] is interrupted, [Start] returns
    at once with the error of the context; it has then started exactly the
    workers of the first [k] accounts, one each and in order, and does not wait
    for them: what they do afterwards has no part in the result. *)
Theorem Start_launch_interrupted (rt : Runtime) (cfg : LoadBotConfig)
    (pool : list Client) (delay startDelay : Z) (k : nat) (e : err) :
  clientPool cfg = Returns (inl pool) → pool ≠ [] →
  delays (Z.of_nat (length (Accounts cfg))) (TransactionsPerSecond cfg)
  = Returns (delay, startDelay) →
  (k < length (Accounts cfg))%nat →
  (∀ j, (j < k)%nat → launchWait rt startDelay j = None) →
  launchWait rt startDelay k = Some e →
  e = ctxErr (ctx rt)
  ∧ ∃ ws, Start rt cfg = Returns (Some e, ws)
      ∧ workerAccount <$> ws = take k (Accounts cfg)
      ∧ length ws = k.
Proof.
  intros Hp Hpool Hd Hk Hw He. split; [by eapply launchWait_err|].
  assert (length pool ≠ 0%nat) as Hne by (by destruct pool).
  unfold Start. rewrite Hp. cbn. apply clientPool_built in Hp as [_ <-]. rewrite Hd. cbn.
  rewrite (launch_interrupted rt pool delay startDelay (Accounts cfg) 0 [] k e) by done.
  cbn. eexists. split; [done|].
  destruct (workersFrom_accounts pool delay (take k (Accounts cfg)) 0 Hne) as [-> ->].
  split; [done|]. rewrite length_take. lia.
Qed.

Lemma clientLoop_fails factory n : ∀ i clients k e,
  (k < n)%nat →
  (∀ j, (j < k)%nat → ∃ c, factory (i + j)%nat = inl c) →
  factory (i + k)%nat = inr e →
  clientLoop factory n i clients = inr e.
Proof.
  induction n as [|n IH]; intros i clients k e Hk Hok He; [lia|]. cbn.
  destruct k as [|k].
  - rewrite Nat.add_0_r in He. by rewrite He.
  - destruct (Hok 0%nat) as [c Hc]; [lia|]. rewrite Nat.add_0_r in Hc. rewrite Hc.
    apply (IH _ _ k); [lia| |].
    + intros j Hj. replace (S i + j)%nat with (i + S j)%nat by lia. apply Hok. lia.
    + by replace (S i + k)%nat with (i + S k)%nat by lia.
Qed.

(** X11. [Start] gives up at the first client it cannot create: if the call
    number [k] of the factory (counting from 0, [k] below the capped client
    count) is the first to fail, [Start] returns its error without starting
    any worker, whatever the rate, the accounts and the run-time are; a
    negative client count makes [Start] panic in [make] instead. *)
Theorem Start_factory_failure (rt : Runtime) (cfg : LoadBotConfig) (k : nat) (e : err) :
  (Z.of_nat k < Z.min (ClientCount cfg) clientCap →
   (∀ j, (j < k)%nat → ∃ c, ClientFactory cfg j = inl c) →
   ClientFactory cfg k = inr e →
   Start rt cfg = Returns (Some e, []))
  ∧ (ClientCount cfg < 0 → Start rt cfg = Panics MakeSliceCapOutOfRange).
Proof.
  pose proof (cappedClientCount_min cfg) as Hmin. split.
  - intros Hk Hok He. unfold Start, clientPool, makeClients.
    destruct (Z.ltb_spec (cappedClientCount cfg) 0) as [|_]; [lia|]. cbn.
    by rewrite (clientLoop_fails _ _ 0 [] k e) by (done || lia).
  - intros Hneg. unfold Start, clientPool, makeClients.
    destruct (Z.ltb_spec (cappedClientCount cfg) 0) as [|]; [done|].
    unfold clientCap in *. lia.
Qed.

Lemma workersFrom_delay pool delay accs : ∀ i w,
  w ∈ workersFrom pool delay i accs → workerDelay w = delay.
Proof.
  induction accs as [|acc rest IH]; intros i w Hw; [by apply elem_of_nil in Hw|].
  cbn in Hw. destruct (pool !! _); [|by apply elem_of_nil in Hw].
  apply elem_of_cons in Hw as [->|Hw]; [done|]. by eapply IH.
Qed.

(** X12. When every worker has been started, [Start] returns the error of
    the worker that returns first: if the first goroutine to return is the
    worker of account [i], and its [runBot] returns [ri], then whatever [Start]
    returns is [ri] (which is not [nil]), however the other workers end; and
    the workers started are one per account, in the order of the accounts. *)
Theorem Start_returns_first_error (rt : Runtime) (cfg : LoadBotConfig)
    (pool : list Client) (delay startDelay : Z) (i : nat) (rest : list nat)
    (ri r : error) (ws : list Worker) :
  clientPool cfg = Returns (inl pool) → pool ≠ [] →
  delays (Z.of_nat (length (Accounts cfg))) (TransactionsPerSecond cfg)
  = Returns (delay, startDelay) →
  (∀ j, (j < length (Accounts cfg))%nat → launchWait rt startDelay j = None) →
  returnOrder rt = i :: rest →
  (i < length (Accounts cfg))%nat →
  runBot (ctx rt) delay (cycles rt i) = Returns ri →
  Start rt cfg = Returns (r, ws) →
  r = ri ∧ ri ≠ None ∧ workerAccount <$> ws = Accounts cfg.
Proof.
  intros Hp Hpool Hd Hw Hord Hi Hrun HS.
  assert (length pool ≠ 0%nat) as Hne by (by destruct pool).
  assert (ri ≠ None) as Hri by (by eapply runBot_not_nil).
  unfold Start in HS. rewrite Hp in HS. cbn in HS.
  apply clientPool_built in Hp as [_ Hcc]. rewrite <- Hcc in HS. clear Hcc.
  rewrite Hd in HS. cbn in HS.
  rewrite (launch_all rt pool delay startDelay (Accounts cfg) 0 []) in HS by done.
  cbn in HS. set (ws0 := workersFrom pool delay 0 (Accounts cfg)) in *.
  destruct (workersFrom_accounts pool delay (Accounts cfg) 0 Hne) as [Hacc Hlen].
  fold ws0 in Hacc, Hlen.
  destruct (errgroup.Wait _) as [r0| |] eqn:HW; cbn in HS; try done.
  unfold mret, Outcome_ret in HS. injection HS as <- <-.
  split; [|done]. apply Wait_returns in HW. rewrite HW. clear HW.
  destruct (lookup_lt_is_Some_2 ws0 i) as [w Hwi]; [lia|].
  assert (workerDelay w = delay) as Hdel.
  { apply (workersFrom_delay pool delay (Accounts cfg) 0). by eapply list_elem_of_lookup_2. }
  assert (∃ tl, workerReturns rt ws0 = (i, ri) :: tl) as [tl ->].
  { unfold workerReturns. rewrite Hord. cbn. rewrite Hwi. cbn. rewrite Hdel, Hrun.
    by eexists. }
  rewrite completeAll_cons.
  destruct ri as [e|]; [|done].
  destruct (complete_first_error (workerTasks rt ws0) i e) as (_ & Ho & He).
  { unfold workerTasks. by rewrite spawn_seq. }
  { apply workerTasks_running. lia. }
  destruct (completeAll_latched tl _ Ho) as (_ & _ & Hg).
  etrans; [exact Hg|exact He].
Qed.


Lemma Is_refl e : Is e e = true.
Proof. destruct e; cbn; by rewrite decide_True. Qed.

Lemma Is_wrapped_cause msg e : Is (Errorf msg e) e = true.
Proof. cbn. destruct (decide (Errorf msg e = e)); [done|]. apply Is_refl. Qed.

Lemma Errorf_fresh msg e : Errorf msg e ≠ e.
Proof.
  revert msg. induction e as [| | |m0 inner IH]; intros m1; try done.
  intros [= -> H]. by apply (IH m0).
Qed.

Lemma runBot_prefix ctx d pre : ∀ rest,
  forallb (continues ctx d) pre = true →
  runBot ctx d (pre ++ rest) = runBot ctx d rest.
Proof.
  induction pre as [|c pre IH]; intros rest Hpre; [done|].
  cbn in Hpre. apply andb_true_iff in Hpre as [Hc Hpre]. cbn.
  unfold continues in Hc. destruct (runCycle ctx d c); [done|]. by apply IH.
Qed.

(** X13. [runBot] stops at the first turn in which sending or waiting for
    the confirmation fails: the turns after it play no part.  What it returns
    then is a new error that wraps the cause (so [errors.Is] finds the cause in
    it) and is never the cause itself, so that comparing the result with
    [context.Canceled] by [==] fails even when the cause is the cancellation. *)
Theorem runBot_wraps_cause (ctx : Context) (d : Z) (pre post : list Cycle)
    (c : Cycle) (cause : err) :
  forallb (continues ctx d) pre = true →
  sendResult c = Some cause ∨ (sendResult c = None ∧ minedResult c = Some cause) →
  ∃ e, runBot ctx d (pre ++ c :: post) = Returns (Some e)
       ∧ Is e cause = true
       ∧ e ≠ cause
       ∧ ∃ msg, e = Errorf msg cause.
Proof.
  intros Hpre Hc. rewrite runBot_prefix by done. cbn. unfold runCycle.
  pose proof (λ msg, Errorf_fresh msg cause) as Hne.
  destruct Hc as [->|[-> ->]]; eexists; (split; [done|]);
    (split; [by rewrite Is_wrapped_cause|]); (split; [apply Hne|by eexists]).
Qed.

(* ===================================================================== *)
(** * LoadBot: the delay                                                *)
(* ===================================================================== *)
Lemma damped_zero_iff q : 0 ≤ q → damped q = 0 ↔ q ≤ 1.
Proof.
  intros Hq. unfold damped. split.
  - intros H. destruct (Z.le_gt_cases q 1) as [|Hgt]; [done|].
    assert (1 ≤ 95 * q / 100); [|lia]. apply Z.div_le_lower_bound; lia.
  - intros H. apply Z.div_small. lia.
Qed.

Lemma quotient_le_1 a b : 0 ≤ a → 1 ≤ b → a / b ≤ 1 ↔ a < 2 * b.
Proof.
  intros Ha Hb. split.
  - intros H. destruct (Z.lt_ge_cases a (2 * b)) as [|Hge]; [done|].
    assert (2 ≤ a / b); [|lia]. apply Z.div_le_lower_bound; lia.
  - intros H. assert (a / b < 2); [|lia]. apply Z.div_lt_upper_bound; lia.
Qed.

(** X14. The pacing is lost at high rates: for at least one account and a
    positive rate, the delay between two transactions of an account is zero
    exactly when the rate is above 500 transactions per second and account
    ([len * 1000 < 2 * TransactionsPerSecond]), because the quotient in
    milliseconds is 0 or 1 and [int(float64(1) * 0.95)] is 0; the start delay
    is then zero as well, so that all the workers start at once. *)
Theorem delays_zero_iff (A tps : Z) :
  1 ≤ A → 1 ≤ tps → A * 1000 < 2 ^ 43 →
  ∃ delay startDelay,
    delays A tps = Returns (delay, startDelay)
    ∧ (delay = 0 ↔ A * 1000 < 2 * tps)
    ∧ (delay = 0 → startDelay = 0).
Proof.
  intros HA Htps Hb. rewrite delays_damped by done. do 2 eexists. split; [done|].
  assert (0 ≤ A * 1000 / tps) as Hq by (apply Z.div_pos; lia).
  pose proof (damped_zero_iff _ Hq) as Hz.
  pose proof (quotient_le_1 (A * 1000) tps ltac:(lia) Htps) as Hq1.
  unfold Millisecond. split; [split|].
  - intros H. apply Hq1, Hz. lia.
  - intros H. apply Hq1, Hz in H. rewrite H. done.
  - intros ->. done.
Qed.

Lemma damped_bounds A tps :
  1 ≤ A → 1 ≤ tps →
  0 ≤ damped (A * 1000 / tps)
  ∧ damped (A * 1000 / tps) * tps ≤ 950 * A
  ∧ 950 * A < (damped (A * 1000 / tps) + 2) * tps.
Proof.
  intros HA Htps. unfold damped.
  pose proof (Z.div_mod (A * 1000) tps ltac:(lia)) as Hq.
  pose proof (Z.mod_pos_bound (A * 1000) tps ltac:(lia)) as Hr.
  set (q := A * 1000 / tps) in *. set (r := (A * 1000) mod tps) in *.
  assert (0 ≤ q) as Hq0 by (apply Z.div_pos; lia).
  pose proof (Z.div_mod (95 * q) 100 ltac:(lia)) as Hm.
  pose proof (Z.mod_pos_bound (95 * q) 100 ltac:(lia)) as Hs.
  set (m := 95 * q / 100) in *. set (s := (95 * q) mod 100) in *.
  split; [apply Z.div_pos; lia|]. split; nia.
Qed.

(** X15. For at least one account and a positive rate, the delay is a whole
    number [ms] of milliseconds that never exceeds the announced 95% of
    [len / TransactionsPerSecond] seconds and falls short of it by less than
    two milliseconds ([ms * tps <= 950 * len < (ms + 2) * tps]); the start
    delay is the delay divided by the number of accounts, rounded down, so
    that the staggered starts of all the accounts fit in one delay. *)
Theorem delays_bounds (A tps delay startDelay : Z) :
  1 ≤ A → 1 ≤ tps → A * 1000 < 2 ^ 43 →
  delays A tps = Returns (delay, startDelay) →
  ∃ ms, delay = ms * Millisecond
        ∧ 0 ≤ ms
        ∧ ms * tps ≤ 950 * A < (ms + 2) * tps
        ∧ 0 ≤ startDelay
        ∧ A * startDelay ≤ delay < A * (startDelay + 1).
Proof.
  intros HA Htps Hb. rewrite delays_damped by done. intros [= <- <-].
  destruct (damped_bounds A tps HA Htps) as (H0 & Hle & Hlt).
  exists (damped (A * 1000 / tps)). split; [done|]. split; [done|]. split; [done|].
  set (d := damped (A * 1000 / tps) * Millisecond).
  assert (0 ≤ d) as Hd by (unfold d, Millisecond; lia).
  pose proof (Z.div_mod d A ltac:(lia)) as Hq.
  pose proof (Z.mod_pos_bound d A ltac:(lia)) as Hr.
  split; [apply Z.div_pos; lia|]. lia.
Qed.

Lemma damped_mono q q' : q ≤ q' → damped q ≤ damped q'.
Proof. intros H. unfold damped. apply Z.div_le_mono; lia. Qed.

(** X16. A higher rate never gives a longer delay, and more accounts never
    give a shorter one: for [1 <= len <= len'] and [1 <= tps' <= tps], the
    delay of [len] accounts at rate [tps] is at most that of [len'] accounts
    at rate [tps']. *)
Theorem delays_monotone (A A' tps tps' d sd d' sd' : Z) :
  1 ≤ A ≤ A' → 1 ≤ tps' ≤ tps → A' * 1000 < 2 ^ 43 →
  delays A tps = Returns (d, sd) →
  delays A' tps' = Returns (d', sd') →
  d ≤ d'.
Proof.
  intros HA Htps Hb. rewrite !delays_damped by lia. intros [= <- <-] [= <- <-].
  unfold Millisecond. apply Z.mul_le_mono_nonneg_r; [lia|]. apply damped_mono.
  trans (A' * 1000 / tps).
  - apply Z.div_le_mono; lia.
  - apply Z.div_le_compat_l; lia.
Qed.

(* ===================================================================== *)
(** * LoadBot: a loop without exit, a wait for all                      *)
(* ===================================================================== *)
Lemma continues_never_done ctx d c :
  doneAt ctx = None →
  continues ctx d c = true ↔ sendResult c = None ∧ minedResult c = None.
Proof.
  intros Hctx. unfold continues, runCycle.
  destruct (sendResult c); [by split; [|intros []]|].
  destruct (minedResult c); [by split; [|intros []]|].
  destruct (After _ _); [done|]. unfold waitFor. by rewrite Hctx.
Qed.

Lemma runBot_Blocks_iff ctx d cs :
  runBot ctx d cs = Blocks ↔ forallb (continues ctx d) cs = true.
Proof.
  induction cs as [|c cs IH]; [done|]. cbn. unfold continues.
  destruct (runCycle ctx d c); [by split|]. by rewrite IH.
Qed.

(** X17. [runBot] has no exit of its own.  With a context that is never
    done, it has not returned after the turns observed exactly when every send
    and every confirmation of these turns succeeded: it then goes on to the
    next turn, whatever the delay and the clock are. *)
Theorem runBot_runs_on (ctx : Context) (d : Z) (cs : list Cycle) :
  doneAt ctx = None →
  runBot ctx d cs = Blocks ↔ ∀ c, c ∈ cs → sendResult c = None ∧ minedResult c = None.
Proof.
  intros Hctx. rewrite runBot_Blocks_iff, forallb_forall. split.
  - intros H c Hc. apply (continues_never_done ctx d c Hctx), H. by apply list_elem_of_In.
  - intros H c Hc. apply (continues_never_done ctx d c Hctx), H. by apply list_elem_of_In.
Qed.

(** X18. [Start] waits for every worker it started.  When all the workers
    have been started, [Start] has not returned as long as one of them has
    not: an error of another worker (which cancels the context of the group)
    does not make [Start] return before the remaining workers have returned
    by themselves. *)
Theorem Start_waits_for_all (rt : Runtime) (cfg : LoadBotConfig)
    (pool : list Client) (delay startDelay : Z) (i : nat) :
  clientPool cfg = Returns (inl pool) → pool ≠ [] →
  delays (Z.of_nat (length (Accounts cfg))) (TransactionsPerSecond cfg)
  = Returns (delay, startDelay) →
  (∀ j, (j < length (Accounts cfg))%nat → launchWait rt startDelay j = None) →
  (i < length (Accounts cfg))%nat →
  i ∉ returnOrder rt ∨ runBot (ctx rt) delay (cycles rt i) = Blocks →
  Start rt cfg = Blocks.
Proof.
  intros Hp Hpool Hd Hw Hi Hrun.
  assert (length pool ≠ 0%nat) as Hne by (by destruct pool).
  unfold Start. rewrite Hp. cbn.
  apply clientPool_built in Hp as [_ <-]. rewrite Hd. cbn.
  rewrite (launch_all rt pool delay startDelay (Accounts cfg) 0 []) by done.
  cbn -[workerTasks workerReturns errgroup.completeAll errgroup.Wait]. set (ws := workersFrom pool delay 0 (Accounts cfg)).
  destruct (workersFrom_accounts pool delay (Accounts cfg) 0 Hne) as [_ Hlen].
  fold ws in Hlen.
  set (t := errgroup.completeAll (workerTasks rt ws) (workerReturns rt ws)).
  pose proof (completeAll_counted (workerReturns rt ws) _ (workerTasks_counted rt ws))
    as [Hwg _]. fold t in Hwg.
  assert (i ∈ errgroup.running t) as Hin.
  { unfold t. apply completeAll_running. split; [apply workerTasks_running; lia|].
    intros Hmem. apply list_elem_of_fmap in Hmem as ([j r] & Hj & Hmem). cbn in Hj. subst j.
    apply workerReturns_elem in Hmem as (Hord & w & Hwi & Hr).
    destruct Hrun as [Hn|Hb]; [done|].
    assert (workerDelay w = delay) as Hdel.
    { apply (workersFrom_delay pool delay (Accounts cfg) 0).
      by eapply list_elem_of_lookup_2. }
    rewrite Hdel, Hb in Hr. done. }
  assert (errgroup.Wait (errgroup.group t) = Blocks) as ->; [|done].
  unfold errgroup.Wait. rewrite Hwg.
  destruct (errgroup.running t) as [|k l]; [by apply elem_of_nil in Hin|done].
Qed.

(* ===================================================================== *)
(** * LoadBot: cancellation                                               *)
(* ===================================================================== *)

Lemma launchWait_elapses rt sd j T :
  doneAt (ctx rt) = Some T → launchAt rt j + Z.max 0 sd < T →
  launchWait rt sd j = None.
Proof.
  intros HT Hlt. unfold launchWait. rewrite waitFor_timer; [done|]. right. eauto.
Qed.

Lemma launchWait_interrupted rt sd k T :
  doneAt (ctx rt) = Some T → Z.max (launchAt rt k) T < launchAt rt k + Z.max 0 sd →
  launchWait rt sd k = Some (ctxErr (ctx rt)).
Proof. intros HT Hlt. unfold launchWait. by rewrite (waitFor_cancelled _ _ _ _ T). Qed.

Lemma interruptedInWait_returns ctx d c :
  interruptedInWait ctx d c → runCycle ctx d c = CycleReturn (Some (ctxErr ctx)).
Proof.
  intros (Hs & Hm & Hchk & T & HT & Hlt). unfold runCycle. rewrite Hs, Hm.
  unfold After, Add. destruct (Z.ltb_spec (sentAt c + d) (checkedAt c)); [lia|].
  by rewrite (waitFor_cancelled _ _ _ _ T).
Qed.

Lemma failureSeen_returns ctx d c :
  failureSeen c = true →
  ∃ msg cause, runCycle ctx d c = CycleReturn (Some (Errorf msg cause)).
Proof.
  unfold failureSeen, runCycle. destruct (sendResult c); [eauto|].
  destruct (minedResult c); [eauto|]. intros H. by vm_compute in H.
Qed.

Lemma interrupted_returns ctx d c :
  interrupted ctx d c → ∃ r, runCycle ctx d c = CycleReturn r.
Proof.
  intros [H|H].
  - destruct (failureSeen_returns ctx d c H) as (msg & cause & ->). eauto.
  - rewrite (interruptedInWait_returns ctx d c H). eauto.
Qed.

Lemma runBot_member ctx d cs c :
  c ∈ cs → (∃ r, runCycle ctx d c = CycleReturn r) → ∃ r, runBot ctx d cs = Returns r.
Proof.
  induction cs as [|c0 cs IH]; intros Hc Hr; [by apply elem_of_nil in Hc|]. cbn.
  destruct (runCycle ctx d c0) eqn:H0; [eauto|].
  apply elem_of_cons in Hc as [->|Hc]; [|by apply IH].
  destruct Hr as [r Hr]. congruence.
Qed.

(** With every worker started, [Start] is the [Wait] on the group of the
    workers, one per account. *)
Lemma Start_launched rt cfg pool delay startDelay :
  clientPool cfg = Returns (inl pool) → pool ≠ [] →
  delays (Z.of_nat (length (Accounts cfg))) (TransactionsPerSecond cfg)
  = Returns (delay, startDelay) →
  (∀ j, (j < length (Accounts cfg))%nat → launchWait rt startDelay j = None) →
  let ws := workersFrom pool delay 0 (Accounts cfg) in
  length ws = length (Accounts cfg)
  ∧ Start rt cfg
    = (r ← errgroup.Wait (errgroup.group
             (errgroup.completeAll (workerTasks rt ws) (workerReturns rt ws)));
       mret (r, ws)).
Proof.
  intros Hp Hpool Hd Hw ws.
  assert (length pool ≠ 0%nat) as Hne by (by destruct pool).
  split; [apply (workersFrom_accounts pool delay (Accounts cfg) 0 Hne)|].
  unfold Start. rewrite Hp. cbn -[workerTasks workerReturns errgroup.completeAll errgroup.Wait].
  apply clientPool_built in Hp as [_ <-]. rewrite Hd.
  cbn -[workerTasks workerReturns errgroup.completeAll errgroup.Wait].
  rewrite (launch_all rt pool delay startDelay (Accounts cfg) 0 []) by done.
  done.
Qed.

(** The error of the group is the result of the worker that returns first. *)
Lemma first_returner_gerr rt ws i rest w e :
  returnOrder rt = i :: rest → ws !! i = Some w →
  runBot (ctx rt) (workerDelay w) (cycles rt i) = Returns (Some e) →
  errgroup.gerr (errgroup.group
    (errgroup.completeAll (workerTasks rt ws) (workerReturns rt ws))) = Some e.
Proof.
  intros Hord Hwi Hrun.
  assert (∃ tl, workerReturns rt ws = (i, Some e) :: tl) as [tl ->].
  { unfold workerReturns. rewrite Hord. cbn. rewrite Hwi. cbn. rewrite Hrun. by eexists. }
  rewrite completeAll_cons.
  destruct (complete_first_error (workerTasks rt ws) i e) as (_ & Ho & He).
  { unfold workerTasks. by rewrite spawn_seq. }
  { apply workerTasks_running. by eapply lookup_lt_Some. }
  destruct (completeAll_latched tl _ Ho) as (_ & _ & Hg).
  etrans; [exact Hg|exact He].
Qed.

(** C5. [Start] returns [nil] only if every worker it started returned
    [nil]; but a worker never returns [nil], so [Start] never returns [nil].
    Cancellation surfaces in two ways.  A worker whose turn reaches [waitFor]
    with the context done before the timer fires returns [ctx.Err()] itself; a
    worker whose [Send] or [WaitMined] fails returns a new error that wraps
    the failure, which is never [context.Canceled] itself.  With the context
    cancelled at [T] (its error being [context.Canceled]): a launch wait that
    the cancellation interrupts makes [Start] return [context.Canceled] at
    once, with the workers started so far; and when all the workers were
    started before [T] and each of them is ended in one of the two ways (its
    failures being or wrapping [context.Canceled]), every worker returns and
    [Start] returns a non-nil error that is or wraps [context.Canceled]: the
    error of the worker that returns first, which is [context.Canceled] itself
    if that worker was interrupted in [waitFor] and a wrapper different from
    it if its [Send] or [WaitMined] failed. *)
Theorem Start_nil_and_cancellation (rt : Runtime) (cfg : LoadBotConfig) :
  (∀ ws, Start rt cfg = Returns (None, ws) →
     ∀ i w, ws !! i = Some w →
       runBot (ctx rt) (workerDelay w) (cycles rt i) = Returns None)
  ∧ (∀ d cs r, runBot (ctx rt) d cs = Returns r → r ≠ None)
  ∧ (∀ ws, Start rt cfg ≠ Returns (None, ws))
  ∧ (∀ d pre c post,
       forallb (continues (ctx rt) d) pre = true →
       (interruptedInWait (ctx rt) d c →
          runBot (ctx rt) d (pre ++ c :: post) = Returns (Some (ctxErr (ctx rt))))
       ∧ (failureSeen c = true →
          ∃ msg cause,
            runBot (ctx rt) d (pre ++ c :: post) = Returns (Some (Errorf msg cause))
            ∧ (sendResult c = Some cause
               ∨ sendResult c = None ∧ minedResult c = Some cause)
            ∧ Errorf msg cause ≠ Canceled))
  ∧ (∀ pool delay startDelay T,
       clientPool cfg = Returns (inl pool) → pool ≠ [] →
       delays (Z.of_nat (length (Accounts cfg))) (TransactionsPerSecond cfg)
       = Returns (delay, startDelay) →
       doneAt (ctx rt) = Some T → ctxErr (ctx rt) = Canceled →
       (∀ k, (k < length (Accounts cfg))%nat →
          (∀ j, (j < k)%nat → launchAt rt j + Z.max 0 startDelay < T) →
          Z.max (launchAt rt k) T < launchAt rt k + Z.max 0 startDelay →
          ∃ ws, Start rt cfg = Returns (Some Canceled, ws) ∧ length ws = k)
       ∧ ((∀ j, (j < length (Accounts cfg))%nat →
             launchAt rt j + Z.max 0 startDelay < T) →
          returnsObserved rt delay (length (Accounts cfg)) →
          (∀ i, (i < length (Accounts cfg))%nat →
             onlyCancelled rt i = true
             ∧ ∃ c, c ∈ cycles rt i ∧ interrupted (ctx rt) delay c) →
          ∃ e ws,
            Start rt cfg = Returns (Some e, ws)
            ∧ Is e Canceled = true
            ∧ length ws = length (Accounts cfg)
            ∧ ∀ i rest pre c post,
                returnOrder rt = i :: rest → (i < length (Accounts cfg))%nat →
                cycles rt i = pre ++ c :: post →
                forallb (continues (ctx rt) delay) pre = true →
                (interruptedInWait (ctx rt) delay c → e = Canceled)
                ∧ (failureSeen c = true →
                   e ≠ Canceled ∧ ∃ msg cause, e = Errorf msg cause))).
Proof.
  split; [intros ws; apply Start_nil_workers|].
  split; [intros d cs r; apply runBot_not_nil|].
  split; [intros ws; apply Start_not_nil|].
  assert (∀ d pre c post,
            forallb (continues (ctx rt) d) pre = true →
            (interruptedInWait (ctx rt) d c →
               runBot (ctx rt) d (pre ++ c :: post) = Returns (Some (ctxErr (ctx rt))))
            ∧ (failureSeen c = true →
               ∃ msg cause,
                 runBot (ctx rt) d (pre ++ c :: post) = Returns (Some (Errorf msg cause))
                 ∧ (sendResult c = Some cause
                    ∨ sendResult c = None ∧ minedResult c = Some cause)
                 ∧ Errorf msg cause ≠ Canceled)) as Hworker.
  { intros d pre c post Hpre. rewrite runBot_prefix by done. cbn [runBot]. split.
    - intros Hint. by rewrite (interruptedInWait_returns _ _ _ Hint).
    - unfold failureSeen, runCycle. destruct (sendResult c) as [es|].
      { intros _. do 2 eexists. split; [done|]. split; [by left|done]. }
      destruct (minedResult c) as [em|].
      { intros _. do 2 eexists. split; [done|]. split; [by right|done]. }
      intros H. by vm_compute in H. }
  split; [exact Hworker|].
  intros pool delay startDelay T Hp Hpool Hd HT Hctx.
  assert (length pool ≠ 0%nat) as Hne by (by destruct pool).
  split.
  - intros k Hk Hbefore Hat.
    unfold Start. rewrite Hp. cbn. apply clientPool_built in Hp as [_ <-]. rewrite Hd. cbn.
    rewrite (launch_interrupted rt pool delay startDelay (Accounts cfg) 0 [] k Canceled).
    + cbn. eexists. split; [done|].
      destruct (workersFrom_accounts pool delay (take k (Accounts cfg)) 0 Hne) as [_ ->].
      rewrite length_take. lia.
    + done.
    + done.
    + intros j Hj. by apply (launchWait_elapses rt startDelay j T), Hbefore.
    + rewrite <- Hctx. by apply (launchWait_interrupted rt startDelay k T).
  - intros Hlaunch Hobs Hworkers.
    destruct (Start_launched rt cfg pool delay startDelay Hp Hpool Hd) as [Hlen HS].
    { intros j Hj. by apply (launchWait_elapses rt startDelay j T), Hlaunch. }
    set (ws := workersFrom pool delay 0 (Accounts cfg)) in *.
    set (t := errgroup.completeAll (workerTasks rt ws) (workerReturns rt ws)) in *.
    assert (∀ j w, ws !! j = Some w → workerDelay w = delay) as Hdelay.
    { intros j w Hj. apply (workersFrom_delay pool delay (Accounts cfg) 0).
      by eapply list_elem_of_lookup_2. }
    assert (∀ j w, ws !! j = Some w →
              ∃ r, runBot (ctx rt) delay (cycles rt j) = Returns r
                   ∧ (j, r) ∈ workerReturns rt ws) as Hret.
    { intros j w Hj. pose proof (lookup_lt_Some _ _ _ Hj) as Hlt. rewrite Hlen in Hlt.
      destruct (Hworkers j Hlt) as (_ & c & Hc & Hint).
      destruct (runBot_member (ctx rt) delay (cycles rt j) c Hc
                  (interrupted_returns _ _ _ Hint)) as [r Hr].
      exists r. split; [done|]. apply workerReturns_elem.
      split; [apply Hobs; eauto|]. exists w. by rewrite (Hdelay j w Hj). }
    assert (errgroup.Wait (errgroup.group t) = Returns (errgroup.gerr (errgroup.group t)))
      as HW.
    { apply Wait_all_returned; [apply completeAll_counted, workerTasks_counted|].
      intros j. unfold t. rewrite completeAll_running, workerTasks_running.
      intros [Hj Hn]. apply lookup_lt_is_Some_2 in Hj as [w Hj].
      destruct (Hret j w Hj) as (r & _ & Hr). apply Hn.
      apply list_elem_of_fmap. by exists (j, r). }
    rewrite HS, HW. cbn.
    assert (∃ e, errgroup.gerr (errgroup.group t) = Some e) as [e He].
    { destruct (errgroup.gerr (errgroup.group t)) as [e|] eqn:Hg; [eauto|]. exfalso.
      destruct (Accounts cfg) as [|a0 rest0] eqn:Ha.
      { by rewrite delays_panics in Hd by (by right). }
      destruct (lookup_lt_is_Some_2 ws 0) as [w0 Hw0]; [rewrite Hlen; cbn; lia|].
      pose proof (Wait_None_workers rt ws 0 w0 HW Hw0) as H0.
      by apply runBot_not_nil in H0. }
    rewrite He. exists e, ws. split; [done|]. split; [|split; [done|]].
    + destruct (gerr_source (workerReturns rt ws) (workerTasks rt ws))
        as [Hg|([j r] & e' & Hin & Hr & Hg)]; fold t in Hg.
      { rewrite workerTasks_gerr in Hg. congruence. }
      rewrite He in Hg. injection Hg as <-. cbn in Hr. subst r.
      apply workerReturns_elem in Hin as (_ & w & Hj & Hrun).
      pose proof (lookup_lt_Some _ _ _ Hj) as Hlt. rewrite Hlen in Hlt.
      destruct (Hworkers j Hlt) as (Honly & _).
      destruct (runBot_cancelled _ _ _ _ Hctx Honly Hrun) as (e' & [= <-] & He'). done.
    + intros i rest pre c post Hord Hi Hcyc Hpre.
      destruct (lookup_lt_is_Some_2 ws i) as [w Hwi]; [by rewrite Hlen|].
      pose proof (Hdelay i w Hwi) as Hdel.
      destruct (Hworker delay pre c post Hpre) as [Hwait Hfail].
      rewrite <- Hcyc in Hwait, Hfail.
      split.
      * intros Hint. specialize (Hwait Hint). rewrite <- Hdel in Hwait.
        pose proof (first_returner_gerr rt ws i rest w _ Hord Hwi Hwait) as Hg.
        fold t in Hg. rewrite Hctx in Hg. congruence.
      * intros Hf. destruct (Hfail Hf) as (msg & cause & Hrun & _ & Hne').
        rewrite <- Hdel in Hrun.
        pose proof (first_returner_gerr rt ws i rest w _ Hord Hwi Hrun) as Hg.
        fold t in Hg. assert (e = Errorf msg cause) as -> by congruence.
        split; [done|eauto].
Qed.

(* ===================================================================== *)
(** * The further properties on the concrete inputs                       *)
(* ===================================================================== *)

Lemma PrintNodeInfo_stops_at_first_failure_witness :
  ∃ cl' w', PrintNodeInfo Scenario.lookupFails Scenario.built Scenario.initialised
            = (Some (ErrorNew "nodekey: no such file"), cl', w')
    ∧ calls w' = calls Scenario.initialised
                 ++ [CallEnodeURL 0; Printed 0 "enode://v0";
                     CallEnodeURL 1; Printed 1 "enode://v1";
                     CallEnodeURL 2].
Proof.
  destruct (PrintNodeInfo_stops_at_first_failure
              Scenario.lookupFails Scenario.built Scenario.initialised) as [_ Hfail].
  apply (Hfail [Example.node 0 "v0"; Example.node 1 "v1"] (Example.node 2 "v2")
               [Example.node 3 "v3"] (ErrorNew "nodekey: no such file")).
  - reflexivity.
  - repeat constructor.
  - reflexivity.
Defined.

Lemma Init_succeeds_iff_witness :
  (Init Example.healthy Example.fresh Example.world).1.1 = None
  ∧ length (calls (Init Example.healthy Example.fresh Example.world).2) = 12%nat.
Proof.
  destruct (Init_succeeds_iff Example.healthy Example.fresh Example.world) as [Hiff Hcalls].
  assert ((Init Example.healthy Example.fresh Example.world).1.1 = None) as Hnil.
  { apply Hiff. split.
    - repeat constructor.
    - intros j n Hj. reflexivity. }
  split; [exact Hnil|]. exact (proj2 (Hcalls Hnil)).
Defined.

Lemma Init_then_PrintNodeInfo_witness :
  (PrintNodeInfo Scenario.lookupFails Scenario.built Scenario.initialised).1.1 ≠ None
  ∧ ∃ w'', PrintNodeInfo Example.healthy Scenario.built Scenario.initialised
           = (None, Scenario.built, w'')
      ∧ calls w'' = calls Scenario.initialised
                    ++ infoCalls (enodeOf Example.healthy) 0 (nodesOf Example.fresh)
      ∧ staticNodes w'' = staticNodes Scenario.initialised.
Proof.
  split.
  - destruct (Init_then_PrintNodeInfo Example.healthy Scenario.lookupFails Example.fresh
                Scenario.built Example.world Scenario.initialised) as [Hiff _].
    + vm_compute. reflexivity.
    + intros Hnil. apply Hiff in Hnil.
      destruct (proj1 (Forall_forall _ _) Hnil (Example.node 2 "v2")) as [url Hurl].
      * apply list_elem_of_In. vm_compute. right. right. left. reflexivity.
      * discriminate Hurl.
  - destruct (Init_then_PrintNodeInfo Example.healthy Example.healthy Example.fresh
                Scenario.built Example.world Scenario.initialised) as [_ Hsame].
    + vm_compute. reflexivity.
    + apply Hsame. reflexivity.
Defined.

Lemma Run_returns_iff_witness :
  (Run false [(1%nat, None); (0%nat, Some Canceled); (3%nat, None)] Example.fresh).1 = Blocks.
Proof.
  destruct (Run_returns_iff Example.fresh false
              [(1%nat, None); (0%nat, Some Canceled); (3%nat, None)]) as (_ & Hb & _).
  apply Hb. exists 2%nat. split; [vm_compute; lia|decide_true].
Defined.

Lemma Run_nil_iff_witness :
  (Run false [(2%nat, None); (0%nat, None); (3%nat, None); (1%nat, None)] Example.fresh).1
  = Returns None.
Proof.
  apply (Run_nil_iff Example.fresh false
           [(2%nat, None); (0%nat, None); (3%nat, None); (1%nat, None)]).
  - decide_true.
  - split.
    + intros j Hj. do 4 (destruct j as [|j]; [decide_true|]). vm_compute in Hj. lia.
    + intros j r Hc _.
      repeat (apply elem_of_cons in Hc as [Hc|Hc]; [by injection Hc as -> ->|]).
      by apply elem_of_nil in Hc.
Defined.

Lemma toSerializedBlsPublicKey_copies_witness :
  toSerializedBlsPublicKey 3 [Byte.x0a; Byte.xff; Byte.x10]
  = Continues [Byte.x0a; Byte.xff; Byte.x10].
Proof.
  by apply (proj1 (toSerializedBlsPublicKey_copies 3 [Byte.x0a; Byte.xff; Byte.x10])).
Defined.

Lemma nextTransfer_picks_account_witness :
  ∃ acc, acc ∈ Accounts Example.config
         ∧ nextTransfer Example.config 7 = Ok (env.Address acc, 10000000).
Proof.
  destruct (nextTransfer_picks_account Example.config) as (_ & Hpick & _).
  apply Hpick. discriminate.
Defined.

Lemma Start_launch_interrupted_witness :
  ∃ ws, Start Scenario.cancelledEarly Example.config = Returns (Some Canceled, ws)
        ∧ workerAccount <$> ws = [Example.account "d0"]
        ∧ length ws = 1%nat.
Proof.
  destruct (Start_launch_interrupted Scenario.cancelledEarly Example.config
              [Conn 0; Conn 1] 570000000 190000000 1 Canceled) as [_ H].
  - vm_compute. reflexivity.
  - discriminate.
  - vm_compute. reflexivity.
  - vm_compute. lia.
  - intros j Hj. destruct j as [|j]; [reflexivity|lia].
  - reflexivity.
  - exact H.
Defined.

Lemma Start_factory_failure_witness :
  Start Example.runtime Scenario.thirdDialFails
  = Returns (Some (ErrorNew "dial tcp 127.0.0.1:8545: connection refused"), []).
Proof.
  destruct (Start_factory_failure Example.runtime Scenario.thirdDialFails 2
              (ErrorNew "dial tcp 127.0.0.1:8545: connection refused")) as [Hfail _].
  apply Hfail.
  - reflexivity.
  - intros j Hj. do 2 (destruct j as [|j]; [by eexists|]). lia.
  - reflexivity.
Defined.

Lemma Start_returns_first_error_witness :
  ∃ r ws, Start Example.runtime Example.config = Returns (r, ws)
          ∧ runBot (ctx Example.runtime) 570000000 (cycles Example.runtime 2) = Returns r
          ∧ r ≠ None
          ∧ workerAccount <$> ws = Accounts Example.config.
Proof.
  exists (Some (Errorf "Error sending transaction" Canceled)), Scenario.workers.
  split; [vm_compute; reflexivity|]. split; [vm_compute; reflexivity|].
  destruct (Start_returns_first_error Example.runtime Example.config
              [Conn 0; Conn 1] 570000000 190000000 2 [0%nat; 1%nat]
              (Some (Errorf "Error sending transaction" Canceled))
              (Some (Errorf "Error sending transaction" Canceled))
              Scenario.workers) as (_ & Hne & Hacc).
  - vm_compute. reflexivity.
  - discriminate.
  - vm_compute. reflexivity.
  - intros j Hj. do 3 (destruct j as [|j]; [reflexivity|]). vm_compute in Hj. lia.
  - reflexivity.
  - vm_compute. lia.
  - vm_compute. reflexivity.
  - vm_compute. reflexivity.
  - split; [exact Hne|exact Hacc].
Defined.

Lemma runBot_wraps_cause_witness :
  ∃ e, runBot (ctx Example.runtime) 570000000
              ([Example.confirmed 1000000000]
               ++ Example.cancelledAt 2000000000 :: [Example.confirmed 2000000001])
       = Returns (Some e)
       ∧ Is e Canceled = true
       ∧ e ≠ Canceled
       ∧ ∃ msg, e = Errorf msg Canceled.
Proof.
  apply (runBot_wraps_cause (ctx Example.runtime) 570000000
           [Example.confirmed 1000000000] [Example.confirmed 2000000001]
           (Example.cancelledAt 2000000000) Canceled).
  - vm_compute. reflexivity.
  - left. reflexivity.
Defined.

Lemma delays_zero_iff_witness :
  ∃ delay startDelay,
    delays 3 5 = Returns (delay, startDelay)
    ∧ (delay = 0 ↔ 3 * 1000 < 2 * 5)
    ∧ (delay = 0 → startDelay = 0).
Proof. apply (delays_zero_iff 3 5); [lia|lia|reflexivity]. Defined.

Lemma delays_bounds_witness :
  delays 3 5 = Returns (570000000, 190000000)
  ∧ ∃ ms, 570000000 = ms * Millisecond
          ∧ 0 ≤ ms
          ∧ ms * 5 ≤ 950 * 3 < (ms + 2) * 5
          ∧ 0 ≤ 190000000
          ∧ 3 * 190000000 ≤ 570000000 < 3 * (190000000 + 1).
Proof.
  split; [vm_compute; reflexivity|].
  apply (delays_bounds 3 5 570000000 190000000); [lia|lia|reflexivity|].
  vm_compute. reflexivity.
Defined.

Lemma delays_monotone_witness :
  delays 3 5 = Returns (570000000, 190000000)
  ∧ delays 4 2 = Returns (1900000000, 475000000)
  ∧ 570000000 ≤ 1900000000.
Proof.
  split; [vm_compute; reflexivity|]. split; [vm_compute; reflexivity|].
  apply (delays_monotone 3 4 5 2 570000000 190000000 1900000000 475000000).
  - lia.
  - lia.
  - reflexivity.
  - vm_compute. reflexivity.
  - vm_compute. reflexivity.
Defined.

Lemma runBot_runs_on_witness :
  runBot Scenario.background 570000000
         [Example.confirmed 0; Example.confirmed 570000000] = Blocks.
Proof.
  apply (runBot_runs_on Scenario.background 570000000
           [Example.confirmed 0; Example.confirmed 570000000]).
  - reflexivity.
  - intros c Hc.
    repeat (apply elem_of_cons in Hc as [Hc|Hc]; [by subst c|]).
    by apply elem_of_nil in Hc.
Defined.

Lemma Start_waits_for_all_witness : Start Scenario.stuck Example.config = Blocks.
Proof.
  apply (Start_waits_for_all Scenario.stuck Example.config
           [Conn 0; Conn 1] 570000000 190000000 1).
  - vm_compute. reflexivity.
  - discriminate.
  - vm_compute. reflexivity.
  - intros j Hj. do 3 (destruct j as [|j]; [reflexivity|]). vm_compute in Hj. lia.
  - vm_compute. lia.
  - left. decide_true.
Defined.

Lemma Start_nil_and_cancellation_witness :
  (∃ e ws, Start Example.runtime Example.config = Returns (Some e, ws)
           ∧ Is e Canceled = true ∧ e ≠ Canceled)
  ∧ (∃ ws, Start Scenario.cancelledAsleep Example.config = Returns (Some Canceled, ws))
  ∧ (∃ ws, Start Scenario.cancelledEarly Example.config = Returns (Some Canceled, ws)
           ∧ length ws = 1%nat).
Proof.
  split; [|split].
  - destruct (Start_nil_and_cancellation Example.runtime Example.config)
      as (_ & _ & _ & _ & Hc).
    destruct (Hc [Conn 0; Conn 1] 570000000 190000000 2000000000) as [_ Hall].
    + vm_compute. reflexivity.
    + discriminate.
    + vm_compute. reflexivity.
    + reflexivity.
    + reflexivity.
    + destruct Hall as (e & ws & HS & HIs & _ & Hfirst).
      * intros j Hj. do 3 (destruct j as [|j]; [reflexivity|]). vm_compute in Hj. lia.
      * intros i Hi _. do 3 (destruct i as [|i]; [decide_true|]). vm_compute in Hi. lia.
      * intros i Hi.
        do 3 (destruct i as [|i];
              [split; [reflexivity|];
               eexists; split; [apply list_elem_of_In; right; left; reflexivity|];
               left; reflexivity|]).
        vm_compute in Hi. lia.
      * exists e, ws. split; [exact HS|]. split; [exact HIs|].
        destruct (Hfirst 2%nat [0%nat; 1%nat]
                    [Example.confirmed (1000000000 + Z.of_nat 2 * 190000000)]
                    (Example.cancelledAt (2000000000 + Z.of_nat 2)) [])
          as [_ Hwrap].
        -- reflexivity.
        -- vm_compute. lia.
        -- reflexivity.
        -- vm_compute. reflexivity.
        -- exact (proj1 (Hwrap eq_refl)).
  - destruct (Start_nil_and_cancellation Scenario.cancelledAsleep Example.config)
      as (_ & _ & _ & _ & Hc).
    destruct (Hc [Conn 0; Conn 1] 570000000 190000000 2000000000) as [_ Hall].
    + vm_compute. reflexivity.
    + discriminate.
    + vm_compute. reflexivity.
    + reflexivity.
    + reflexivity.
    + destruct Hall as (e & ws & HS & _ & _ & Hfirst).
      * intros j Hj. do 3 (destruct j as [|j]; [reflexivity|]). vm_compute in Hj. lia.
      * intros i Hi _. do 3 (destruct i as [|i]; [decide_true|]). vm_compute in Hi. lia.
      * intros i Hi.
        do 3 (destruct i as [|i];
              [split; [reflexivity|];
               eexists; split; [apply list_elem_of_In; right; left; reflexivity|];
               right; split; [reflexivity|]; split; [reflexivity|];
               split; [vm_compute; discriminate|];
               exists 2000000000; split; [reflexivity|vm_compute; reflexivity]|]).
        vm_compute in Hi. lia.
      * exists ws. rewrite HS. do 3 f_equal.
        destruct (Hfirst 1%nat [0%nat; 2%nat]
                    [Example.confirmed (1000000000 + Z.of_nat 1 * 190000000)]
                    (Example.confirmed (1570000000 + Z.of_nat 1 * 190000000)) [])
          as [Hwait _].
        -- reflexivity.
        -- vm_compute. lia.
        -- reflexivity.
        -- vm_compute. reflexivity.
        -- apply Hwait. split; [reflexivity|]. split; [reflexivity|].
           split; [vm_compute; discriminate|].
           exists 2000000000. split; [reflexivity|vm_compute; reflexivity].
  - destruct (Start_nil_and_cancellation Scenario.cancelledEarly Example.config)
      as (_ & _ & _ & _ & Hc).
    destruct (Hc [Conn 0; Conn 1] 570000000 190000000 250000000) as [Hlaunch _].
    + vm_compute. reflexivity.
    + discriminate.
    + vm_compute. reflexivity.
    + reflexivity.
    + reflexivity.
    + apply (Hlaunch 1%nat).
      * vm_compute. lia.
      * intros j Hj. destruct j as [|j]; [reflexivity|lia].
      * reflexivity.
Defined.

(** A run cancelled after 2 s in which [Start] returns an error that wraps
    [context.Canceled] and is not [context.Canceled] itself: the worker that
    returns first was cancelled while sending. *)
Lemma Start_cancelled_returns_wrapper :
  doneAt (ctx Example.runtime) = Some 2000000000
  ∧ ctxErr (ctx Example.runtime) = Canceled
  ∧ Start Example.runtime Example.config
    = Returns (Some (Errorf "Error sending transaction" Canceled), Scenario.workers)
  ∧ Errorf "Error sending transaction" Canceled ≠ Canceled.
Proof.
  split; [reflexivity|]. split; [reflexivity|]. split; [by vm_compute|discriminate].
Qed.
